(** * Verification of [paste_image_auto] (src/image_fit_paste.py)

    A shallow embedding of the compositing routine: the geometry is
    computed on Python integers ([Z]) and Python floats (IEEE-754 binary64,
    modelled as the rationals they denote, every operation being the exact
    operation followed by rounding to nearest, ties to even); the Pillow
    objects live in an object store so that aliasing and mutation are
    visible. *)

From Stdlib Require Import ZArith QArith Qminmax Lia Lqa Bool.
From Stdlib Require Import Floats.SpecFloat.
From stdpp Require Import base list strings gmap.

Local Open Scope Z_scope.

(* ===================================================================== *)
(** * Part I: definitions                                                 *)
(* ===================================================================== *)

(** ** Python floats: IEEE-754 binary64 *)

Module Binary64.

(** Precision (bits of significand), exponent of the least subnormal and
    the overflow threshold [2^emax]. *)
Definition prec : Z := 53.
Definition emin : Z := -1074.
Definition emax : Z := 1024.

(** The integer nearest to [n/d] ([0 < d]), ties going to the even one. *)
Definition round_half_even (n d : Z) : Z :=
  let q := n / d in
  let r := n mod d in
  match 2 * r ?= d with
  | Lt => q
  | Gt => q + 1
  | Eq => if Z.even q then q else q + 1
  end.

(** [floor (log2 (n/d))] for [0 < n], [0 < d]. *)
Definition ilog2 (n d : Z) : Z :=
  let k := Z.log2 n - Z.log2 d in
  if d * 2 ^ Z.max 0 k <=? n * 2 ^ Z.max 0 (- k) then k else k - 1.

(** The rational [m * 2^e]. *)
Definition scaleb (m e : Z) : Q :=
  if 0 <=? e then inject_Z (m * 2 ^ e) else Qmake m (Z.to_pos (2 ^ (- e))).

(** Significand and exponent of the binary64 number nearest to [n/d],
    for [0 < n] and [0 < d]: the exponent is the one of the binade of
    [n/d], or [emin] in the subnormal range. *)
Definition nearest (n d : Z) : Z * Z :=
  let e := Z.max (ilog2 n d - (prec - 1)) emin in
  (round_half_even (n * 2 ^ Z.max 0 (- e)) (d * 2 ^ Z.max 0 e), e).

(** A result is out of range when its magnitude reaches [2^emax]. *)
Definition overflows (m e : Z) : bool :=
  2 ^ (emax - emin) <=? m * 2 ^ (e - emin).

(** Rounding of a rational to binary64; [None] stands for an infinity. *)
Definition rnd (x : Q) : option Q :=
  match Qnum x with
  | Z0 => Some 0%Q
  | Zpos n =>
      let '(m, e) := nearest (Zpos n) (Zpos (Qden x)) in
      if overflows m e then None else Some (scaleb m e)
  | Zneg n =>
      let '(m, e) := nearest (Zpos n) (Zpos (Qden x)) in
      if overflows m e then None else Some (Qopp (scaleb m e))
  end.

(** The unit roundoff [2^-53] and the least positive normal number
    [2^-1022]. *)
Definition eps : Q := 1 # 9007199254740992.
Definition tiny : Q := scaleb 1 (-1022).

(** The value of a finite [spec_float] of the Standard Library, used to
    compare [rnd] with the library's binary64 operations. *)
Definition SF2Q (f : spec_float) : option Q :=
  match f with
  | S754_zero _ => Some 0%Q
  | S754_finite s m e =>
      Some (if s then Qopp (scaleb (Zpos m) e) else scaleb (Zpos m) e)
  | _ => None
  end.

Definition Z2SF (z : Z) : spec_float :=
  binary_normalize prec emax z 0 false.

Definition same_value (a b : option Q) : bool :=
  match a, b with
  | Some x, Some y => Qeq_bool x y
  | None, None => true
  | _, _ => false
  end.

(** [rnd] against the library's division and multiplication: [a / b],
    and [c * (a / b)], for integers. *)
Definition agrees_div (a b : Z) : bool :=
  same_value (rnd (a # Z.to_pos b)) (SF2Q (SFdiv prec emax (Z2SF a) (Z2SF b))).

Definition agrees_mul (c a b : Z) : bool :=
  match rnd (a # Z.to_pos b) with
  | Some s =>
      same_value (rnd (inject_Z c * s))
        (SF2Q (SFmul prec emax (Z2SF c) (SFdiv prec emax (Z2SF a) (Z2SF b))))
  | None => false
  end.

Definition upto (n : nat) : list Z := map (fun k => Z.of_nat (S k)) (seq 0 n).

End Binary64.

(** ** Outcomes of Python code *)

(** The exceptions that can leave the routine.  The first three are the
    ones it raises itself (lines 43, 67 and 79); the others come from the
    arithmetic and from Pillow. *)
Inductive error : Type :=
| TypeMismatch          (* TypeError: content_image is not a PIL image *)
| InvalidGeometry       (* ValueError: invalid paste region *)
| InvalidContentSize    (* ValueError: content_image has an invalid size *)
| ZeroDivisionError
| OverflowError
| DecodeFailure         (* Image.open could not read or decode the path *)
| ResizeFailure         (* Image.resize rejected the requested size *)
| EncodeFailure         (* Image.save could not encode the canvas *)
| BadReference.         (* a reference to no object: unreachable from Python *)

Inductive Result (A : Type) : Type :=
| Ok (a : A)
| Raise (e : error).
Arguments Ok {A} a.
Arguments Raise {A} e.

Definition is_validation_error (e : error) : bool :=
  match e with
  | TypeMismatch | InvalidGeometry | InvalidContentSize => true
  | _ => false
  end.

Definition not_validation (e : error) : Prop := is_validation_error e = false.

(** ** Python arithmetic on [int] and [float] *)

Module Py.
Import Binary64.

(** A finite float is the rational it denotes; [None] is an infinity. *)
Definition float : Type := Q.

(** [a / b] on two [int]s: the correctly rounded quotient. *)
Definition truediv (a b : Z) : Result float :=
  if b =? 0 then Raise ZeroDivisionError
  else match rnd (Qmake (a * Z.sgn b) (Z.to_pos (Z.abs b))) with
       | Some q => Ok q
       | None => Raise OverflowError
       end.

(** [float(c)] for an [int] [c]. *)
Definition float_of_int (c : Z) : Result float :=
  match rnd (inject_Z c) with
  | Some q => Ok q
  | None => Raise OverflowError
  end.

(** [c * s] for an [int] [c] and a [float] [s]: [c] is converted, the
    product is rounded and may be infinite. *)
Definition mul_int_float (c : Z) (s : float) : Result (option float) :=
  match float_of_int c with
  | Ok cf => Ok (rnd (cf * s)%Q)
  | Raise e => Raise e
  end.

(** [round(x)] with one argument: nearest [int], ties to even; an
    infinity cannot be converted. *)
Definition round (x : option float) : Result Z :=
  match x with
  | Some q => Ok (round_half_even (Qnum q) (Zpos (Qden q)))
  | None => Raise OverflowError
  end.

(** [min(a, b)]: the second argument replaces the first only when it is
    strictly smaller. *)
Definition min (a b : float) : float :=
  if Qle_bool a b then a else b.

(** [a < b], [a <= b] on [int]s are [Z.ltb], [Z.leb]; [a // 2] is
    [Z.div], which rounds toward minus infinity as Python does. *)
Definition floordiv (a b : Z) : Z := a / b.
End Py.

(** ** Pillow images and the object store *)

(** A decoded image: its bands (as [getbands()] lists them), its size and
    its pixels.  Pillow keeps a dimension in a C [int]. *)
Record Image (Pixel : Type) : Type := mkImage {
  im_bands : list string;
  im_size : Z * Z;
  im_data : Z -> Z -> Pixel;
}.
Arguments mkImage {Pixel} _ _ _.
Arguments im_bands {Pixel} _.
Arguments im_size {Pixel} _.
Arguments im_data {Pixel} _ _ _.

Definition INT_MAX : Z := 2147483647.

Definition wf_size (sz : Z * Z) : Prop :=
  0 <= sz.1 <= INT_MAX /\ 0 <= sz.2 <= INT_MAX.

(** The sizes [Image.resize] can take: each side from 1 to the largest
    C [int]. *)
Definition size_ok (size : Z * Z) : bool :=
  (1 <=? size.1) && (size.1 <=? INT_MAX) && (1 <=? size.2) && (size.2 <=? INT_MAX).

(** The raster library, at its boundary: what the routine cannot see
    inside of Pillow. *)
Class Raster (Pixel : Type) : Type := {
  (** pixels of [im.resize(size, Image.LANCZOS)] *)
  lanczos : Image Pixel -> Z * Z -> Z -> Z -> Pixel;
  (** pixels of [im.convert("RGBA")] *)
  to_rgba : Image Pixel -> Z -> Z -> Pixel;
  (** a source pixel in the bands of the destination of a paste *)
  adapt : list string -> list string -> Pixel -> Pixel;
  (** the value, 0 to 255, that a pixel of a mask image contributes *)
  mask_value : list string -> Pixel -> Z;
  (** [mix d s a]: destination [d] after pasting [s] under mask value [a] *)
  mix : Pixel -> Pixel -> Z -> Pixel;
  (** the PNG encoding written by [im.save(buf, format="PNG")] *)
  png_encode : Image Pixel -> option (list Byte.byte);
}.

(** The documented contract of a paste mask: "where the mask is 255, the
    given image is copied as is; where the mask is 0, the current value
    is preserved". *)
Class RasterLaws {Pixel : Type} (R : Raster Pixel) : Prop := {
  mix_transparent : forall d s : Pixel, mix d s 0 = d;
  mix_opaque : forall d s : Pixel, mix d s 255 = s;
}.

(** An argument that is either a path or an already decoded image, the
    latter by reference to the object. *)
Inductive ImageArg : Type :=
| Path (p : string)
| Decoded (r : nat).

(** Calls into Pillow, the file system and the standard output, in the
    order the routine makes them. *)
Inductive Event : Type :=
| EvOpen (p : string)
| EvConvert (r : nat)
| EvCopy (r : nat)
| EvResize (r : nat) (size : Z * Z)
| EvPaste (dst src : nat) (box : Z * Z) (mask : option nat)
| EvPrint (s : string)
| EvSave (r : nat).

(** The size the content was resized to, the boxes and masks of the
    pastes, and what was printed, in a sequence of calls. *)
Definition resized_to (t : list Event) : list (Z * Z) :=
  flat_map (fun ev => match ev with EvResize _ size => [size] | _ => [] end) t.

Definition pastes (t : list Event) : list (nat * nat * (Z * Z) * option nat) :=
  flat_map (fun ev => match ev with
                      | EvPaste d s box m => [(d, s, box, m)]
                      | _ => []
                      end) t.

Definition printed (t : list Event) : list string :=
  flat_map (fun ev => match ev with EvPrint s => [s] | _ => [] end) t.

Definition is_load (ev : Event) : bool :=
  match ev with
  | EvOpen _ | EvConvert _ | EvCopy _ => true
  | _ => false
  end.

Section Model.
Context {Pixel : Type} {R : Raster Pixel}.

(** The objects (a reference is an index; objects are never freed) and
    the files: a path names no file, a file that does not decode, or a
    file that decodes to an image. *)
Record World : Type := mkWorld {
  heap : list (Image Pixel);
  files : gmap string (option (Image Pixel));
}.

(** A computation returns or raises, leaves a world behind and has made
    some calls. *)
Definition M (A : Type) : Type := World -> Result A * World * list Event.

Definition ret {A} (a : A) : M A := fun w => (Ok a, w, []).
Definition raise {A} (e : error) : M A := fun w => (Raise e, w, []).
Definition bind {A B} (m : M A) (k : A -> M B) : M B :=
  fun w =>
    match m w with
    | (Ok a, w1, t1) => let '(r, w2, t2) := k a w1 in (r, w2, t1 ++ t2)
    | (Raise e, w1, t1) => (Raise e, w1, t1)
    end.
Definition emit (ev : Event) : M unit := fun w => (Ok tt, w, [ev]).
Definition lift {A} (r : Result A) : M A := fun w => (r, w, []).

Local Notation "x <- m ;; k" := (bind m (fun x => k))
  (at level 100, m at next level, right associativity).
Local Notation "m ;;; k" := (bind m (fun _ => k))
  (at level 100, right associativity).

Definition deref (r : nat) : M (Image Pixel) :=
  fun w => match heap w !! r with
           | Some im => (Ok im, w, [])
           | None => (Raise BadReference, w, [])
           end.

Definition alloc (im : Image Pixel) : M nat :=
  fun w => (Ok (length (heap w)), mkWorld (heap w ++ [im]) (files w), []).

Definition store (r : nat) (im : Image Pixel) : M unit :=
  fun w => (Ok tt, mkWorld (<[r := im]> (heap w)) (files w), []).

(** [im.copy()] *)
Definition copy (r : nat) : M nat :=
  emit (EvCopy r) ;;; im <- deref r ;; alloc im.

(** [Image.open(p)] *)
Definition open (p : string) : M nat :=
  emit (EvOpen p) ;;;
  fun w => match files w !! p with
           | Some (Some im) => alloc im w
           | _ => (Raise DecodeFailure, w, [])
           end.

(** [im.convert("RGBA")] *)
Definition convert_rgba (r : nat) : M nat :=
  emit (EvConvert r) ;;;
  im <- deref r ;;
  alloc (mkImage ["R"; "G"; "B"; "A"]%string (im_size im) (to_rgba im)).

(** [os.path.isfile(p)] *)
Definition isfile (p : string) : M bool :=
  fun w => (Ok (bool_decide (is_Some (files w !! p))), w, []).

(** [im.resize(size, Image.LANCZOS)]: a new image of that size with the
    bands of [im]; sizes below 1 or beyond a C [int] are rejected.
    Pillow can also give up on a size it has no memory for; that is left
    out, so that the model goes on where such a call stops. *)
Definition resize (r : nat) (size : Z * Z) : M nat :=
  emit (EvResize r size) ;;;
  im <- deref r ;;
  if size_ok size
  then alloc (mkImage (im_bands im) size (lanczos im size))
  else raise ResizeFailure.

(** The canvas after [dst.paste(src, box, mask)].  Only coordinates
    inside the canvas are pixels of it, which is how the clipping of
    the pasted rectangle shows. *)
Definition pasted (dst src : Image Pixel) (box : Z * Z)
    (mask : option (Image Pixel)) : Image Pixel :=
  mkImage (im_bands dst) (im_size dst)
    (fun x y =>
       let i := x - box.1 in
       let j := y - box.2 in
       if (0 <=? i) && (i <? (im_size src).1) &&
          (0 <=? j) && (j <? (im_size src).2)
       then
         let s := adapt (im_bands dst) (im_bands src) (im_data src i j) in
         match mask with
         | None => s
         | Some m => mix (im_data dst x y) s (mask_value (im_bands m) (im_data m i j))
         end
       else im_data dst x y).

(** [dst.paste(src, box)] and [dst.paste(src, box, mask)]: the object
    [dst] is modified in place.  Pillow rejects a box with a coordinate
    beyond a C [int] and a mask of a mode it does not take; that is left
    out, so that the model goes on where such a call stops.  What is
    proved of the calls that return holds of the calls that Pillow lets
    return. *)
Definition paste (dst src : nat) (box : Z * Z) (mask : option nat) : M unit :=
  emit (EvPaste dst src box mask) ;;;
  d <- deref dst ;;
  s <- deref src ;;
  m <- match mask with
       | Some r => mi <- deref r ;; ret (Some mi)
       | None => ret None
       end ;;
  store dst (pasted d s box m).

(** [print(s)] *)
Definition print (s : string) : M unit := emit (EvPrint s).

(** [im.save(buf, format="PNG"); buf.getvalue()] *)
Definition save_png (r : nat) : M (list Byte.byte) :=
  emit (EvSave r) ;;;
  im <- deref r ;;
  match png_encode im with
  | Some b => ret b
  | None => raise EncodeFailure
  end.

(** *** The routine *)

Definition rbind {A B} (r : Result A) (k : A -> Result B) : Result B :=
  match r with
  | Ok a => k a
  | Raise e => Raise e
  end.

(** Lines 96-97: [max(1, int(round(c * scale)))]. *)
Definition placed (c : Z) (scale : Py.float) : Result Z :=
  rbind (Py.mul_int_float c scale) (fun p =>
  rbind (Py.round p) (fun n =>
  Ok (Z.max 1 n))).

(** Lines 82-97: the contain scale and the placed size [(new_w, new_h)]. *)
Definition fit (region_w region_h cw ch : Z) (allow_upscale : bool)
    : Result (Py.float * (Z * Z)) :=
  rbind (Py.truediv region_w cw) (fun scale_w =>
  rbind (Py.truediv region_h ch) (fun scale_h =>
  let scale := Py.min scale_w scale_h in
  let scale := if negb allow_upscale then Py.min 1%Q scale else scale in
  rbind (placed cw scale) (fun new_w =>
  rbind (placed ch scale) (fun new_h =>
  Ok (scale, (new_w, new_h)))))).

(** Lines 70-71: the inner width or height. *)
Definition region (lo hi padding : Z) : Z :=
  Z.max 1 ((hi - lo) - 2 * padding).

(** Lines 107-114: [px]. *)
Definition paste_x (align : string) (x1 x2 padding region_w new_w : Z) : Z :=
  if String.eqb align "left" then x1 + padding
  else if String.eqb align "center"
       then x1 + padding + Py.floordiv (region_w - new_w) 2
       else x2 - padding - new_w.

(** Lines 117-124: [py]. *)
Definition paste_y (valign : string) (y1 y2 padding region_h new_h : Z) : Z :=
  if String.eqb valign "top" then y1 + padding
  else if String.eqb valign "middle"
       then y1 + padding + Py.floordiv (region_h - new_h) 2
       else y2 - padding - new_h.

Definition warning : string := "Warning: overlay image is not exist.".

(** Lines 46-52: the canvas to draw on, a copy of the caller's image or
    the decoded file in RGBA. *)
Definition open_canvas (image_source : ImageArg) : M nat :=
  match image_source with
  | Decoded r => copy r
  | Path p => o <- open p ;; convert_rgba o
  end.

(** Lines 55-60: the overlay, when one is given and can be had.  Without
    [image_overlay] the variable [img_overlay] stays unbound and is not
    read. *)
Definition open_overlay (image_overlay : option ImageArg) : M (option nat) :=
  match image_overlay with
  | None => ret None
  | Some (Decoded r) => c <- copy r ;; ret (Some c)
  | Some (Path p) =>
      b <- isfile p ;;
      if b then o <- open p ;; c <- convert_rgba o ;; ret (Some c)
      else ret None
  end.

(** Lines 142-150: the overlay on top, or the warning. *)
Definition draw_overlay (img : nat) (image_overlay : option ImageArg)
    (img_overlay : option nat) : M unit :=
  match image_overlay, img_overlay with
  | Some _, Some ov => paste img ov (0, 0) (Some ov)
  | Some _, None => print warning
  | None, _ => ret tt
  end.

(** Lines 82-159, once the inputs have passed the checks: scale, resize,
    place, paste, overlay, encode.  [img] is the canvas, [content] the
    content image and [(cw, ch)] its size. *)
Definition fit_and_paste (img : nat) (img_overlay : option nat)
    (content : nat) (cw ch : Z) (x1 y1 x2 y2 : Z)
    (align valign : string) (padding : Z)
    (allow_upscale keep_alpha : bool) (image_overlay : option ImageArg)
    : M (list Byte.byte) :=
  let region_w := region x1 x2 padding in
  let region_h := region y1 y2 padding in
  f <- lift (fit region_w region_h cw ch allow_upscale) ;;
  let '(new_w, new_h) := f.2 in
  resized <- resize content (new_w, new_h) ;;
  let px := paste_x align x1 x2 padding region_w new_w in
  let py := paste_y valign y1 y2 padding region_h new_h in
  rim <- deref resized ;;
  (if keep_alpha && bool_decide ("A"%string ∈ im_bands rim)
   then paste img resized (px, py) (Some resized)
   else paste img resized (px, py) None) ;;;
  draw_overlay img image_overlay img_overlay ;;;
  save_png img.

Definition paste_image_auto
    (image_source : ImageArg) (top_left bottom_right : Z * Z)
    (content_image : ImageArg) (align valign : string) (padding : Z)
    (allow_upscale keep_alpha : bool) (image_overlay : option ImageArg)
    : M (list Byte.byte) :=
  match content_image with
  | Path _ => raise TypeMismatch
  | Decoded content =>
      img <- open_canvas image_source ;;
      img_overlay <- open_overlay image_overlay ;;
      let '(x1, y1) := top_left in
      let '(x2, y2) := bottom_right in
      if negb ((x2 >? x1) && (y2 >? y1)) then raise InvalidGeometry else
      cim <- deref content ;;
      let '(cw, ch) := im_size cim in
      if (cw <=? 0) || (ch <=? 0) then raise InvalidContentSize else
      fit_and_paste img img_overlay content cw ch x1 y1 x2 y2
        align valign padding allow_upscale keep_alpha image_overlay
  end.

(** A step that only loads images adds objects and draws nothing. *)
Definition loads (w w1 : World) (t : list Event) : Prop :=
  (exists l, heap w1 = heap w ++ l) /\ files w1 = files w /\
  forallb is_load t = true.

(** A computation that can raise only the errors in [P]. *)
Definition raises_only {A} (P : error -> Prop) (m : M A) : Prop :=
  forall w e w' t, m w = (Raise e, w', t) -> P e.

(** An outcome that leaves the first [n] objects and the files of [w] as
    they are, has pasted only onto later objects, and returns in [Q]. *)
Definition framed (n : nat) {A} (Q : A -> Prop) (w : World)
    (o : Result A * World * list Event) : Prop :=
  (length (heap w) <= length (heap o.1.2))%nat /\
  (forall i, (i < n)%nat -> heap o.1.2 !! i = heap w !! i) /\
  files o.1.2 = files w /\
  (forall d s b k, In (d, s, b, k) (pastes o.2) -> (n <= d)%nat) /\
  (forall a, o.1.1 = Ok a -> Q a).

Definition frames (n : nat) {A} (Q : A -> Prop) (m : M A) : Prop :=
  forall w, (n <= length (heap w))%nat -> framed n Q w (m w).

(** What a caller of the routine can see of a run. *)
Definition result_of {A} (o : Result A * World * list Event) : Result A := o.1.1.
Definition world_of {A} (o : Result A * World * list Event) : World := o.1.2.
Definition events_of {A} (o : Result A * World * list Event) : list Event := o.2.

(** The pixel at [(x, y)] of the object [r]. *)
Definition pixel_at (w : World) (r : nat) (x y : Z) : option Pixel :=
  (fun im => im_data im x y) <$> heap w !! r.

(** Two outcomes with the same result and the same world, whose calls are
    the same except that the first printed the warning just before the
    canvas [img] was saved. *)
Definition differ_by_warning (img : nat) {A}
    (o1 o2 : Result A * World * list Event) : Prop :=
  result_of o1 = result_of o2 /\ world_of o1 = world_of o2 /\
  ((events_of o1 = events_of o2 /\ forall a, result_of o2 <> Ok a) \/
   exists pre, events_of o2 = pre ++ [EvSave img] /\
               events_of o1 = pre ++ [EvPrint warning; EvSave img]).

(** The validation error of a call, if it raises one: what lines 41-43,
    63-67 and 77-79 decide, once the canvas and the overlay are loaded.
    Neither the padding nor the alignment nor the flags are read. *)
Definition checks (image_source : ImageArg) (top_left bottom_right : Z * Z)
    (content_image : ImageArg) (image_overlay : option ImageArg) (w : World)
    : option error :=
  match content_image with
  | Path _ => Some TypeMismatch
  | Decoded content =>
      match open_canvas image_source w with
      | (Ok _, w1, _) =>
          match open_overlay image_overlay w1 with
          | (Ok _, w2, _) =>
              if negb ((bottom_right.1 >? top_left.1) && (bottom_right.2 >? top_left.2))
              then Some InvalidGeometry
              else match heap w2 !! content with
                   | Some cim =>
                       if ((im_size cim).1 <=? 0) || ((im_size cim).2 <=? 0)
                       then Some InvalidContentSize
                       else None
                   | None => None
                   end
          | _ => None
          end
      | _ => None
      end
  end.

(** How far a call with a decoded content gets. *)
Inductive progress (image_source : ImageArg) (x1 y1 x2 y2 : Z) (content : nat)
    (image_overlay : option ImageArg) (w : World)
    (run : Result (list Byte.byte) * World * list Event) : Prop :=
| canvas_fails e w1 t1 :
    open_canvas image_source w = (Raise e, w1, t1) ->
    not_validation e -> run = (Raise e, w1, t1) ->
    progress image_source x1 y1 x2 y2 content image_overlay w run
| overlay_fails img w1 t1 e w2 t2 :
    open_canvas image_source w = (Ok img, w1, t1) ->
    open_overlay image_overlay w1 = (Raise e, w2, t2) ->
    not_validation e -> run = (Raise e, w2, t1 ++ t2) ->
    progress image_source x1 y1 x2 y2 content image_overlay w run
| region_fails img w1 t1 o w2 t2 :
    open_canvas image_source w = (Ok img, w1, t1) ->
    open_overlay image_overlay w1 = (Ok o, w2, t2) ->
    x2 <= x1 \/ y2 <= y1 ->
    run = (Raise InvalidGeometry, w2, t1 ++ t2) ->
    progress image_source x1 y1 x2 y2 content image_overlay w run
| content_missing img w1 t1 o w2 t2 :
    open_canvas image_source w = (Ok img, w1, t1) ->
    open_overlay image_overlay w1 = (Ok o, w2, t2) ->
    x1 < x2 -> y1 < y2 -> heap w2 !! content = None ->
    run = (Raise BadReference, w2, t1 ++ t2) ->
    progress image_source x1 y1 x2 y2 content image_overlay w run
| size_fails img w1 t1 o w2 t2 cim :
    open_canvas image_source w = (Ok img, w1, t1) ->
    open_overlay image_overlay w1 = (Ok o, w2, t2) ->
    x1 < x2 -> y1 < y2 -> heap w2 !! content = Some cim ->
    (im_size cim).1 <= 0 \/ (im_size cim).2 <= 0 ->
    run = (Raise InvalidContentSize, w2, t1 ++ t2) ->
    progress image_source x1 y1 x2 y2 content image_overlay w run
| checks_pass img w1 t1 o w2 t2 cim :
    open_canvas image_source w = (Ok img, w1, t1) ->
    open_overlay image_overlay w1 = (Ok o, w2, t2) ->
    x1 < x2 -> y1 < y2 -> heap w2 !! content = Some cim ->
    0 < (im_size cim).1 -> 0 < (im_size cim).2 ->
    (forall e, result_of run = Raise e -> not_validation e) ->
    progress image_source x1 y1 x2 y2 content image_overlay w run.

(** The image that an argument stands for when the routine loads it: the
    decoded image itself, or the image of the file in RGBA. *)
Definition load (w : World) (a : ImageArg) : option (Image Pixel) :=
  match a with
  | Decoded r => heap w !! r
  | Path p =>
      match files w !! p with
      | Some (Some im) =>
          Some (mkImage ["R"; "G"; "B"; "A"]%string (im_size im) (to_rgba im))
      | _ => None
      end
  end.

(** The overlay that lines 55-60 and 142 arrive at: none when the
    argument is absent or a path that names no file, else the image the
    argument stands for; [None] when that image cannot be had. *)
Definition overlay_of (w : World) (image_overlay : option ImageArg)
    : option (option (Image Pixel)) :=
  match image_overlay with
  | None => Some None
  | Some (Decoded r) => Some <$> load w (Decoded r)
  | Some (Path p) =>
      if bool_decide (is_Some (files w !! p))
      then Some <$> load w (Path p)
      else Some None
  end.

(** The canvas that is encoded: the content pasted at [box] under its
    own mask or under none, then the overlay over all of it. *)
Definition composed (canvas rim : Image Pixel) (box : Z * Z) (alpha : bool)
    (overlay : option (Image Pixel)) : Image Pixel :=
  let mid := pasted canvas rim box (if alpha then Some rim else None) in
  match overlay with
  | Some ov => pasted mid ov (0, 0) (Some ov)
  | None => mid
  end.

End Model.

(** ** A small raster library to run the routine on

    Pixels are a grey value with an alpha value; resampling picks the
    nearest source pixel; the encoder writes the size and then the bytes
    of the pixels, row by row. *)

Module Demo.

Definition Pixel : Type := Z * Z.

Definition nearest_pixel (im : Image Pixel) (size : Z * Z) (x y : Z) : Pixel :=
  im_data im (x * (im_size im).1 / size.1) (y * (im_size im).2 / size.2).

Definition blend (d s : Pixel) (a : Z) : Pixel :=
  if a =? 0 then d
  else if a =? 255 then s
  else ((d.1 * (255 - a) + s.1 * a) / 255, (d.2 * (255 - a) + s.2 * a) / 255).

Definition byte_of (z : Z) : Byte.byte :=
  match Byte.of_N (Z.to_N (z mod 256)) with
  | Some b => b
  | None => Byte.x00
  end.

Definition encode (im : Image Pixel) : option (list Byte.byte) :=
  let w := (im_size im).1 in
  let h := (im_size im).2 in
  Some (byte_of w :: byte_of h ::
        flat_map (fun y =>
          flat_map (fun x => let p := im_data im (Z.of_nat x) (Z.of_nat y) in
                             [byte_of p.1; byte_of p.2])
                   (seq 0 (Z.to_nat w)))
          (seq 0 (Z.to_nat h))).

#[export] Instance raster : Raster Pixel := {|
  lanczos := nearest_pixel;
  to_rgba := fun im => im_data im;
  adapt := fun _ _ p => p;
  mask_value := fun _ p => p.2;
  mix := blend;
  png_encode := encode;
|}.

(** A uniform image. *)
Definition solid (bands : list string) (w h : Z) (p : Pixel) : Image Pixel :=
  mkImage bands (w, h) (fun _ _ => p).

(** An opaque centre with a fully transparent one-pixel border. *)
Definition framed (w h : Z) (v : Z) : Image Pixel :=
  mkImage ["L"; "A"]%string (w, h)
    (fun x y => if (1 <=? x) && (x <? w - 1) && (1 <=? y) && (y <? h - 1)
                then (v, 255) else (v, 0)).

Definition objects (objs : list (Image Pixel)) : World :=
  mkWorld objs ∅.

End Demo.

#[global] Existing Instance Demo.raster.

(** ** Calls to run the routine on *)

(** A 4 by 2 content with an alpha band, centred in the 6 by 6 region
    [(1,1)-(7,7)] of an 8 by 8 canvas: it is upscaled to 6 by 3 when
    upscaling is allowed and kept at 4 by 2 otherwise. *)
Definition small_content : Image Demo.Pixel :=
  Demo.solid ["L"; "A"]%string 4 2 (7, 255).

Definition small_world : World :=
  Demo.objects [Demo.solid ["L"]%string 8 8 (200, 255); small_content].

Definition small_run (allow_upscale : bool) :=
  paste_image_auto (Decoded 0%nat) (1, 1) (7, 7) (Decoded 1%nat)
    "center" "middle" 0 allow_upscale true None small_world.

(** A 4 by 4 content that is opaque but for a transparent border of one
    pixel, on the same canvas and region; and the same call with another
    overlay argument. *)
Definition framed_content : Image Demo.Pixel := Demo.framed 4 4 9.

Definition framed_world : World :=
  Demo.objects [Demo.solid ["L"]%string 8 8 (200, 255); framed_content].

Definition framed_run (keep_alpha : bool) (image_overlay : option ImageArg) :=
  paste_image_auto (Decoded 0%nat) (1, 1) (7, 7) (Decoded 1%nat)
    "center" "middle" 0 false keep_alpha image_overlay framed_world.

(** Calls that fail a check: a path for the content, the region
    [(0,0)-(0,5)], and a content of width 0. *)
Definition flat_world : World :=
  Demo.objects [Demo.solid ["L"]%string 8 8 (200, 255);
                Demo.solid ["L"]%string 0 5 (7, 255)].

Definition checked_run (top_left bottom_right : Z * Z) (content_image : ImageArg)
    (world : World) :=
  paste_image_auto (Decoded 0%nat) top_left bottom_right content_image
    "center" "middle" 0 false true None world.

(** The small call with a negative padding, left and top aligned. *)
Definition padded_run (padding : Z) (allow_upscale : bool) :=
  paste_image_auto (Decoded 0%nat) (1, 1) (7, 7) (Decoded 1%nat)
    "left" "top" padding allow_upscale true None small_world.

(** A 3 by 2 content in the 2 by 2 region [(0,0)-(2,2)] of a 4 by 4
    canvas: the scale is [2/3] rounded to binary64 and the content is
    resized to 2 by 1. *)
Definition thin_content : Image Demo.Pixel :=
  Demo.solid ["L"]%string 3 2 (7, 255).

Definition thin_world : World :=
  Demo.objects [Demo.solid ["L"]%string 4 4 (200, 255); thin_content].

Definition thin_run :=
  paste_image_auto (Decoded 0%nat) (0, 0) (2, 2) (Decoded 1%nat)
    "center" "middle" 0 false true None thin_world.

(** An 8 by 8 overlay with an opaque centre and a transparent border of
    one pixel; a world where the canvas and the overlay are also files,
    beside a file that does not decode; the images these files load as;
    and the call that puts the 4 by 2 content, upscaled to 6 by 3, into
    the region [(1,1)-(7,7)]. *)
Definition overlay_image : Image Demo.Pixel := Demo.framed 8 8 50.

Definition disk_world : World :=
  mkWorld [Demo.solid ["L"]%string 8 8 (200, 255); small_content; overlay_image]
    (<["canvas.png"%string := Some (Demo.solid ["L"]%string 8 8 (200, 255))]>
       (<["overlay.png"%string := Some overlay_image]>
          (<["broken.png"%string := None]> ∅))).

Definition disk_canvas : Image Demo.Pixel :=
  mkImage ["R"; "G"; "B"; "A"]%string (8, 8) (fun _ _ => (200, 255)).

Definition disk_overlay : Image Demo.Pixel :=
  mkImage ["R"; "G"; "B"; "A"]%string (8, 8) (im_data overlay_image).

Definition disk_run (image_source : ImageArg) (allow_upscale keep_alpha : bool)
    (image_overlay : option ImageArg) :=
  paste_image_auto image_source (1, 1) (7, 7) (Decoded 1%nat)
    "center" "middle" 0 allow_upscale keep_alpha image_overlay disk_world.

Definition disk_run_aligned (align valign : string) :=
  paste_image_auto (Decoded 0%nat) (1, 1) (7, 7) (Decoded 1%nat)
    align valign 0 false true None disk_world.

(* ===================================================================== *)
(** * Part II: properties                                                 *)
(* ===================================================================== *)

(** ** Rounding to the nearest integer *)

Module RoundFacts.
Import Binary64.

Lemma round_half_even_near (n d : Z) :
  0 < d -> - d <= 2 * (round_half_even n d * d - n) <= d.
Proof.
  intros Hd. unfold round_half_even.
  pose proof (Z.div_mod n d ltac:(lia)) as Hdm.
  pose proof (Z.mod_pos_bound n d Hd) as Hr.
  destruct (Z.compare_spec (2 * (n mod d)) d);
    try destruct (Z.even (n / d)); nia.
Qed.

Lemma round_half_even_unique (n d z : Z) :
  0 < d -> - d < 2 * (z * d - n) < d -> round_half_even n d = z.
Proof.
  intros Hd Hz. pose proof (round_half_even_near n d Hd). nia.
Qed.

Lemma round_half_even_below (n d z : Z) :
  0 < d -> 2 * (n - z * d) < d -> round_half_even n d <= z.
Proof.
  intros Hd Hz. pose proof (round_half_even_near n d Hd). nia.
Qed.

Lemma round_half_even_above (n d z : Z) :
  0 < d -> 2 * (z * d - n) < d -> z <= round_half_even n d.
Proof.
  intros Hd Hz. pose proof (round_half_even_near n d Hd). nia.
Qed.

Lemma round_half_even_exact (z d : Z) :
  0 < d -> round_half_even (z * d) d = z.
Proof. intros Hd. apply round_half_even_unique; lia. Qed.

End RoundFacts.

(** ** Rounding to binary64 *)

Module FloatFacts.
Import Binary64 RoundFacts.

Lemma scaleb_nonneg (m e : Z) :
  0 <= e -> scaleb m e = inject_Z (m * 2 ^ e).
Proof. intros H. unfold scaleb. destruct (Z.leb_spec 0 e); [reflexivity | lia]. Qed.

Lemma scaleb_neg (m e : Z) :
  e < 0 -> scaleb m e = Qmake m (Z.to_pos (2 ^ (- e))).
Proof. intros H. unfold scaleb. destruct (Z.leb_spec 0 e); [lia | reflexivity]. Qed.

Lemma pow2_pos (k : Z) : 0 <= k -> 0 < 2 ^ k.
Proof. intros. apply Z.pow_pos_nonneg; lia. Qed.

(** Products of two powers of two with the same total exponent. *)
Lemma pow2_mul_eq (a b c d : Z) :
  0 <= a -> 0 <= b -> 0 <= c -> 0 <= d -> a + b = c + d ->
  2 ^ a * 2 ^ b = 2 ^ c * 2 ^ d.
Proof.
  intros. rewrite <- !Z.pow_add_r by lia. f_equal. lia.
Qed.

Lemma pow2_le (a b : Z) : 0 <= a <= b -> 2 ^ a <= 2 ^ b.
Proof. intros. apply Z.pow_le_mono_r; lia. Qed.

(** [2^k <= n/d < 2^(k+1)] for [k = ilog2 n d], without fractions. *)
Lemma ilog2_spec (n d : Z) :
  0 < n -> 0 < d ->
  let k := ilog2 n d in
  d * 2 ^ Z.max 0 k <= n * 2 ^ Z.max 0 (- k) /\
  n * 2 ^ Z.max 0 (- (k + 1)) < d * 2 ^ Z.max 0 (k + 1).
Proof.
  intros Hn Hd. unfold ilog2.
  pose proof (Z.log2_spec n Hn) as [Hn1 Hn2].
  pose proof (Z.log2_spec d Hd) as [Hd1 Hd2].
  pose proof (Z.log2_nonneg n) as Ha. pose proof (Z.log2_nonneg d) as Hb.
  set (a := Z.log2 n) in *. set (b := Z.log2 d) in *.
  rewrite <- Z.add_1_r in Hn2, Hd2.
  destruct (Z.leb_spec (d * 2 ^ Z.max 0 (a - b)) (n * 2 ^ Z.max 0 (- (a - b))))
    as [Ht | Ht]; cbv zeta; split; try assumption.
  - destruct (Z.le_gt_cases 0 (a - b)) as [Hk | Hk].
    + replace (Z.max 0 (- (a - b + 1))) with 0 by lia.
      replace (Z.max 0 (a - b + 1)) with (a - b + 1) by lia.
      pose proof (pow2_mul_eq b (a - b + 1) (a + 1) 0 ltac:(lia) ltac:(lia) ltac:(lia) ltac:(lia) ltac:(lia)) as E.
      pose proof (pow2_pos (a - b + 1) ltac:(lia)).
      rewrite Z.pow_0_r in *. nia.
    + replace (Z.max 0 (- (a - b + 1))) with (b - a - 1) by lia.
      replace (Z.max 0 (a - b + 1)) with 0 by lia.
      pose proof (pow2_mul_eq (a + 1) (b - a - 1) b 0 ltac:(lia) ltac:(lia) ltac:(lia) ltac:(lia) ltac:(lia)) as E.
      pose proof (pow2_pos (b - a - 1) ltac:(lia)).
      rewrite Z.pow_0_r in *. nia.
  - destruct (Z.le_gt_cases 1 (a - b)) as [Hk | Hk].
    + replace (Z.max 0 (- (a - b - 1))) with 0 by lia.
      replace (Z.max 0 (a - b - 1)) with (a - b - 1) by lia.
      pose proof (pow2_mul_eq (b + 1) (a - b - 1) a 0 ltac:(lia) ltac:(lia) ltac:(lia) ltac:(lia) ltac:(lia)) as E.
      pose proof (pow2_pos (a - b - 1) ltac:(lia)).
      rewrite Z.pow_0_r in *. nia.
    + replace (Z.max 0 (- (a - b - 1))) with (b - a + 1) by lia.
      replace (Z.max 0 (a - b - 1)) with 0 by lia.
      pose proof (pow2_mul_eq a (b - a + 1) (b + 1) 0 ltac:(lia) ltac:(lia) ltac:(lia) ltac:(lia) ltac:(lia)) as E.
      pose proof (pow2_pos (b - a + 1) ltac:(lia)).
      rewrite Z.pow_0_r in *. nia.
  - replace (a - b - 1 + 1) with (a - b) by lia. lia.
Qed.

Lemma pow2_mul_le (a b c d : Z) :
  0 <= a -> 0 <= b -> 0 <= c -> 0 <= d -> a + b <= c + d ->
  2 ^ a * 2 ^ b <= 2 ^ c * 2 ^ d.
Proof.
  intros. rewrite <- !Z.pow_add_r by lia. apply pow2_le. lia.
Qed.

(** The significand [m] and exponent [e] chosen for [n/d], with
    [A = 2^max(0,-e)] and [B = 2^max(0,e)], so that [2^e = B/A]. *)
Lemma nearest_spec (n d : Z) :
  0 < n -> 0 < d ->
  let '(m, e) := nearest n d in
  let A := 2 ^ Z.max 0 (- e) in
  let B := 2 ^ Z.max 0 e in
  0 < A /\ 0 < B /\ emin <= e /\ 0 <= m <= 2 ^ 53 /\
  - (d * B) <= 2 * (m * (d * B) - n * A) <= d * B /\
  n * A < 2 ^ 53 * (d * B) /\
  (emin <= ilog2 n d - 52 ->
     e = ilog2 n d - 52 /\ 2 ^ 52 <= m /\ 2 ^ 52 * (d * B) <= n * A).
Proof.
  intros Hn Hd. unfold nearest, prec, emin.
  set (k := ilog2 n d). set (e := Z.max (k - (53 - 1)) (-1074)).
  cbv zeta.
  pose proof (ilog2_spec n d Hn Hd) as [HL HU]. fold k in HL, HU.
  pose proof (pow2_pos (Z.max 0 (- e)) ltac:(lia)) as HA.
  pose proof (pow2_pos (Z.max 0 e) ltac:(lia)) as HB.
  set (A := 2 ^ Z.max 0 (- e)) in *. set (B := 2 ^ Z.max 0 e) in *.
  split; [exact HA |]. split; [exact HB |]. split; [lia |].
  assert (Hup : n * A < 2 ^ 53 * (d * B)).
  { pose proof (pow2_pos (Z.max 0 (- (k + 1))) ltac:(lia)) as HN.
    pose proof (pow2_mul_le (Z.max 0 (k + 1)) (Z.max 0 (- e))
                  (53 + Z.max 0 e) (Z.max 0 (- (k + 1)))
                  ltac:(lia) ltac:(lia) ltac:(lia) ltac:(lia) ltac:(lia)) as E.
    rewrite (Z.pow_add_r 2 53) in E by lia. fold A B in E.
    set (Pt := 2 ^ Z.max 0 (k + 1)) in *.
    set (Nt := 2 ^ Z.max 0 (- (k + 1))) in *.
    assert (n * A * Nt < 2 ^ 53 * (d * B) * Nt) by nia.
    nia. }
  split.
  { split.
    - apply round_half_even_above; nia.
    - apply round_half_even_below; nia. }
  split; [apply round_half_even_near; nia |].
  split; [exact Hup |].
  intros Hnorm. split; [lia |].
  assert (H52 : 2 ^ 52 * (d * B) <= n * A).
  {
    pose proof (pow2_pos (Z.max 0 (- k)) ltac:(lia)) as HN.
    pose proof (pow2_mul_eq 52 (Z.max 0 e + Z.max 0 (- k))
                  (Z.max 0 k) (Z.max 0 (- e))
                  ltac:(lia) ltac:(lia) ltac:(lia) ltac:(lia) ltac:(lia)) as E.
    rewrite (Z.pow_add_r 2 (Z.max 0 e)) in E by lia. fold A B in E.
    set (Pk := 2 ^ Z.max 0 k) in *.
    set (Nk := 2 ^ Z.max 0 (- k)) in *.
    assert (2 ^ 52 * (d * B) * Nk <= n * A * Nk) by nia.
    nia. }
  split; [| exact H52].
  apply round_half_even_above; nia.
Qed.

Local Open Scope Q_scope.

Lemma scaleb_frac (m e : Z) :
  scaleb m e * inject_Z (2 ^ Z.max 0 (- e)) == inject_Z (m * 2 ^ Z.max 0 e).
Proof.
  destruct (Z.leb_spec 0 e) as [H | H]; unfold scaleb.
  - destruct (Z.leb_spec 0 e); [| lia].
    replace (Z.max 0 (- e)) with 0%Z by lia.
    replace (Z.max 0 e) with e by lia.
    rewrite Z.pow_0_r. unfold Qeq, Qmult, inject_Z; cbn [Qnum Qden]. lia.
  - destruct (Z.leb_spec 0 e); [lia |].
    replace (Z.max 0 (- e)) with (- e)%Z by lia.
    replace (Z.max 0 e) with 0%Z by lia.
    pose proof (pow2_pos (- e) ltac:(lia)).
    unfold Qeq, Qmult, inject_Z; cbn [Qnum Qden].
    rewrite Pos.mul_1_r, Z2Pos.id by lia. lia.
Qed.

Lemma inject_Z_pos (z : Z) : (0 < z)%Z -> 0 < inject_Z z.
Proof. intros H. unfold Qlt, inject_Z; cbn [Qnum Qden]. lia. Qed.

Lemma Qmake_frac (n : Z) (d : positive) :
  (n # d) * inject_Z (Zpos d) == inject_Z n.
Proof. unfold Qeq, Qmult, inject_Z; cbn [Qnum Qden]. lia. Qed.

(** What [rnd] returns on a positive rational, with denominators
    cleared: [c] is a common positive factor and [r] the weight of one
    unit of the significand [m]. *)
Lemma rnd_pos_spec (x v : Q) :
  0 < x -> rnd x = Some v ->
  exists (m e : Z) (c r : Q),
    0 < c /\ 0 < r /\ (0 <= m <= 2 ^ 53)%Z /\
    v = scaleb m e /\
    v * c == inject_Z m * r /\
    - r <= 2 * (v * c - x * c) <= r /\
    x * c < inject_Z (2 ^ 53) * r /\
    inject_Z (2 ^ Z.max 0 e) * c == r * inject_Z (2 ^ Z.max 0 (- e)) /\
    (emin <= e)%Z /\
    ((emin <= ilog2 (Qnum x) (Zpos (Qden x)) - 52)%Z ->
       e = (ilog2 (Qnum x) (Zpos (Qden x)) - 52)%Z /\
       (2 ^ 52 <= m)%Z /\
       inject_Z (2 ^ 52) * r <= x * c).
Proof.
  intros Hx Hr. destruct x as [n d].
  assert (Hn : (0 < n)%Z) by (unfold Qlt in Hx; simpl in Hx; lia).
  destruct n as [| n | n]; try lia.
  unfold rnd in Hr. cbn [Qnum Qden] in *.
  pose proof (nearest_spec (Zpos n) (Zpos d) ltac:(lia) ltac:(lia)) as Hs.
  destruct (nearest (Zpos n) (Zpos d)) as [m e].
  destruct (overflows m e); [discriminate |]. injection Hr as <-.
  cbv zeta in Hs. destruct Hs as (HA & HB & He & Hm & Hnear & Hup & Hnorm).
  set (A := (2 ^ Z.max 0 (- e))%Z) in *. set (B := (2 ^ Z.max 0 e)%Z) in *.
  pose proof (scaleb_frac m e) as Hv. fold A B in Hv.
  pose proof (Qmake_frac (Zpos n) d) as Hxd.
  exists m, e, (inject_Z (Zpos d) * inject_Z A), (inject_Z (Zpos d) * inject_Z B).
  pose proof (inject_Z_pos A HA) as HcA.
  pose proof (inject_Z_pos B HB) as HcB.
  pose proof (inject_Z_pos (Zpos d) ltac:(lia)) as Hcd.
  assert (E1 : scaleb m e * (inject_Z (Z.pos d) * inject_Z A)
               == inject_Z m * (inject_Z (Z.pos d) * inject_Z B)).
  { transitivity (scaleb m e * inject_Z A * inject_Z (Zpos d)); [ring |].
    rewrite Hv, inject_Z_mult. ring. }
  assert (E2 : (Zpos n # d) * (inject_Z (Z.pos d) * inject_Z A)
               == inject_Z (Zpos n) * inject_Z A).
  { transitivity ((Zpos n # d) * inject_Z (Zpos d) * inject_Z A); [ring |].
    rewrite Hxd. ring. }
  assert (Eq : inject_Z m * (inject_Z (Z.pos d) * inject_Z B)
               == inject_Z (m * (Zpos d * B))) by (rewrite !inject_Z_mult; ring).
  split; [nra |]. split; [nra |]. split; [exact Hm |].
  split; [reflexivity |]. split; [exact E1 |].
  split.
  { rewrite E1, E2, Eq. rewrite <- !inject_Z_mult.
    set (p := (Zpos n * A)%Z) in *. set (q := (m * (Zpos d * B))%Z) in *.
    set (r := (Zpos d * B)%Z) in *.
    assert (H1 : (2 * p <= 2 * q + r)%Z) by lia.
    assert (H2 : (2 * q <= 2 * p + r)%Z) by lia.
    rewrite Zle_Qle in H1, H2.
    rewrite ?inject_Z_plus, ?inject_Z_mult in H1, H2.
    change (inject_Z 2) with 2 in *.
    split; lra. }
  split.
  { rewrite E2. rewrite Zlt_Qlt in Hup. rewrite !inject_Z_mult in Hup.
    exact Hup. }
  split; [unfold A, B; ring |]. split; [exact He |].
  intros Hn'. destruct (Hnorm Hn') as (-> & Hm52 & H52).
  split; [reflexivity |]. split; [exact Hm52 |].
  rewrite E2. rewrite Zle_Qle in H52. rewrite !inject_Z_mult in H52.
  exact H52.
Qed.

(** Exponent ranges, from bounds on the rational. *)
Lemma ilog2_normal (x : Q) :
  0 < x -> tiny <= x -> (emin <= ilog2 (Qnum x) (Zpos (Qden x)) - 52)%Z.
Proof.
  intros Hx Ht. destruct x as [n d].
  assert (Hn : (0 < n)%Z) by (unfold Qlt in Hx; simpl in Hx; lia).
  cbn [Qnum Qden].
  pose proof (ilog2_spec n (Zpos d) Hn ltac:(lia)) as [_ HU]. cbv zeta in HU.
  set (k := ilog2 n (Zpos d)) in *.
  destruct (Z.le_gt_cases (-1022) k) as [Hk | Hk]; [unfold emin; lia |].
  exfalso.
  replace (Z.max 0 (k + 1)) with 0%Z in HU by lia.
  replace (Z.max 0 (- (k + 1))) with (- (k + 1))%Z in HU by lia.
  rewrite Z.pow_0_r in HU.
  assert (H1 : (2 ^ 1022 <= 2 ^ (- (k + 1)))%Z) by (apply pow2_le; lia).
  assert (H2 : (Zpos d <= n * 2 ^ 1022)%Z).
  { unfold tiny in Ht. rewrite scaleb_neg in Ht by lia.
    unfold Qle in Ht. cbn [Qnum Qden] in Ht.
    rewrite Z2Pos.id in Ht by (apply pow2_pos; lia).
    change (- -1022)%Z with 1022%Z in Ht. lia. }
  nia.
Qed.

(** Rounding in the normal range changes a value by at most the
    fraction [eps] of it. *)
Lemma rnd_rel_err (x v : Q) :
  0 < x -> tiny <= x -> rnd x = Some v ->
  x * (1 - eps) <= v <= x * (1 + eps).
Proof.
  intros Hx Ht Hr.
  destruct (rnd_pos_spec x v Hx Hr)
    as (m & e & c & r & Hc & Hr0 & _ & _ & _ & Hnear & _ & _ & _ & Hnorm).
  destruct (Hnorm (ilog2_normal x Hx Ht)) as (_ & _ & H52).
  change (inject_Z (2 ^ 52)) with (4503599627370496 # 1) in H52.
  unfold eps.
  split.
  - apply (Qmult_le_r _ _ c Hc).
    assert (E : x * (1 - (1 # 9007199254740992)) * c
                == x * c * (1 - (1 # 9007199254740992))) by ring.
    rewrite E. lra.
  - apply (Qmult_le_r _ _ c Hc).
    assert (E : x * (1 + (1 # 9007199254740992)) * c
                == x * c * (1 + (1 # 9007199254740992))) by ring.
    rewrite E. lra.
Qed.

Lemma ilog2_nonneg (n d : Z) :
  (0 < d <= n)%Z -> (0 <= ilog2 n d)%Z.
Proof.
  intros H.
  pose proof (ilog2_spec n d ltac:(lia) ltac:(lia)) as [_ HU]. cbv zeta in HU.
  set (k := ilog2 n d) in *.
  destruct (Z.le_gt_cases 0 k) as [Hk | Hk]; [exact Hk | exfalso].
  replace (Z.max 0 (k + 1)) with 0%Z in HU by lia.
  rewrite Z.pow_0_r in HU.
  pose proof (pow2_pos (Z.max 0 (- (k + 1))) ltac:(lia)). nia.
Qed.

Lemma ilog2_below (n d b : Z) :
  (0 < n)%Z -> (0 < d)%Z -> (0 <= b)%Z -> (n < 2 ^ b * d)%Z ->
  (ilog2 n d < b)%Z.
Proof.
  intros Hn Hd Hb H.
  pose proof (ilog2_spec n d Hn Hd) as [HL _]. cbv zeta in HL.
  set (k := ilog2 n d) in *.
  destruct (Z.lt_ge_cases k b) as [Hk | Hk]; [exact Hk | exfalso].
  replace (Z.max 0 (- k)) with 0%Z in HL by lia.
  replace (Z.max 0 k) with k in HL by lia.
  rewrite Z.pow_0_r in HL.
  pose proof (pow2_le b k ltac:(lia)). nia.
Qed.

Lemma tiny_le_1 : tiny <= 1.
Proof. vm_compute. discriminate. Qed.

(** Rounding does not cross [1]. *)
Lemma rnd_ge_1 (x v : Q) : 1 <= x -> rnd x = Some v -> 1 <= v.
Proof.
  intros Hx Hr.
  assert (Hx0 : 0 < x) by lra.
  assert (Ht : tiny <= x) by (pose proof tiny_le_1; lra).
  destruct (rnd_pos_spec x v Hx0 Hr)
    as (m & e & c & r & Hc & Hr0 & _ & _ & Hv & _ & _ & HAB & _ & Hnorm).
  destruct (Hnorm (ilog2_normal x Hx0 Ht)) as (He & Hm & _).
  assert (Hk : (0 <= ilog2 (Qnum x) (Zpos (Qden x)))%Z).
  { apply ilog2_nonneg. destruct x as [n d]. unfold Qle in Hx.
    cbn [Qnum Qden] in *. lia. }
  assert (HA : (2 ^ Z.max 0 (- e) <= 2 ^ 52)%Z) by (apply pow2_le; lia).
  assert (HB : (1 <= 2 ^ Z.max 0 e)%Z)
    by (pose proof (pow2_pos (Z.max 0 e) ltac:(lia)); lia).
  rewrite Zle_Qle in HA, HB, Hm.
  set (A := inject_Z (2 ^ Z.max 0 (- e))) in *.
  set (B := inject_Z (2 ^ Z.max 0 e)) in *.
  set (M := inject_Z m) in *.
  change (inject_Z (2 ^ 52)) with (4503599627370496 # 1) in *.
  change (inject_Z 1) with 1 in HB.
  apply (Qmult_le_r _ _ c Hc). rewrite Hv.
  assert (H1 : c <= B * c) by nra.
  assert (H2 : r * A <= r * (4503599627370496 # 1)) by nra.
  assert (H3 : r * (4503599627370496 # 1) <= M * r) by nra.
  lra.
Qed.

Lemma rnd_pos_inv (x v : Q) :
  0 < x -> rnd x = Some v ->
  exists m e, nearest (Qnum x) (Zpos (Qden x)) = (m, e) /\ v = scaleb m e.
Proof.
  intros Hx Hr. destruct x as [n d].
  assert (Hn : (0 < n)%Z) by (unfold Qlt in Hx; simpl in Hx; lia).
  destruct n as [| n | n]; try lia.
  unfold rnd in Hr. cbn [Qnum Qden] in *.
  destruct (nearest (Zpos n) (Zpos d)) as [m e].
  destruct (overflows m e); [discriminate |]. injection Hr as <-.
  eauto.
Qed.

(** Below [2^1023] nothing overflows. *)
Lemma rnd_finite (x : Q) :
  0 < x -> x < inject_Z (2 ^ 1023) -> exists v, rnd x = Some v.
Proof.
  intros Hx Hb. destruct x as [n d].
  assert (Hn : (0 < n)%Z) by (unfold Qlt in Hx; simpl in Hx; lia).
  destruct n as [| n | n]; try lia.
  unfold rnd. cbn [Qnum Qden].
  pose proof (nearest_spec (Zpos n) (Zpos d) ltac:(lia) ltac:(lia)) as Hs.
  assert (Hk : (ilog2 (Zpos n) (Zpos d) < 1023)%Z).
  { apply ilog2_below; try lia. unfold Qlt, inject_Z in Hb.
    cbn [Qnum Qden] in Hb. lia. }
  unfold nearest in *. set (k := ilog2 (Zpos n) (Zpos d)) in *.
  set (e := Z.max (k - (prec - 1)) emin) in *.
  set (m := round_half_even _ _) in *.
  cbv zeta in Hs. destruct Hs as (_ & _ & He & Hm & _).
  assert (Hov : overflows m e = false).
  { unfold overflows. apply Z.leb_gt. unfold prec, emin, emax in *.
    assert (H1 : (2 ^ (e - -1074) <= 2 ^ 2044)%Z) by (apply pow2_le; lia).
    pose proof (pow2_pos (e - -1074) ltac:(lia)).
    change (1024 - -1074)%Z with (2098)%Z.
    assert (H2 : (m * 2 ^ (e - -1074) <= 2 ^ 53 * 2 ^ 2044)%Z) by nia.
    assert (H3 : (2 ^ 53 * 2 ^ 2044 < 2 ^ 2098)%Z) by (vm_compute; reflexivity).
    lia. }
  rewrite Hov. eauto.
Qed.

(** An integer below [2^53] is a binary64 number. *)
Lemma rnd_int (x : Q) (z : Z) (v : Q) :
  (0 < z < 2 ^ 53)%Z -> x == inject_Z z -> rnd x = Some v -> v == inject_Z z.
Proof.
  intros Hz Hxz Hr.
  assert (Hx : 0 < x) by (rewrite Hxz; apply inject_Z_pos; lia).
  destruct (rnd_pos_inv _ _ Hx Hr) as (m & e & Hn & ->).
  destruct x as [n d]. cbn [Qnum Qden] in Hn.
  assert (En : n = (z * Zpos d)%Z).
  { unfold Qeq, inject_Z in Hxz. cbn [Qnum Qden] in Hxz. lia. }
  pose proof (nearest_spec n (Zpos d) ltac:(lia) ltac:(lia)) as Hs.
  rewrite Hn in Hs. cbv zeta in Hs.
  destruct Hs as (HA & HB & _ & _ & Hnear & _ & Hnorm).
  assert (Hk : (ilog2 n (Zpos d) < 53)%Z) by (apply ilog2_below; nia).
  assert (Hk0 : (0 <= ilog2 n (Zpos d))%Z) by (apply ilog2_nonneg; nia).
  destruct Hnorm as (He & _ & _); [unfold emin; lia |].
  replace (Z.max 0 e) with 0%Z in * by lia.
  rewrite Z.pow_0_r in *.
  pose proof (scaleb_frac m e) as Hv.
  replace (Z.max 0 e) with 0%Z in Hv by lia. rewrite Z.pow_0_r in Hv.
  set (A := (2 ^ Z.max 0 (- e))%Z) in *.
  assert (Hm : m = (z * A)%Z) by nia.
  rewrite Hm, Z.mul_1_r, inject_Z_mult in Hv.
  pose proof (inject_Z_pos A HA) as HA'.
  apply (Qmult_inj_r _ _ (inject_Z A)); [lra | rewrite Hm; exact Hv].
Qed.

(** [rnd] is the rounding of the Standard Library's binary64: the two
    agree on every quotient [a / b] and product [c * (a / b)] of small
    integers, on dimensions at the limit of a C [int], and on a quotient
    that overflows. *)
Example rnd_agrees_with_SFdiv :
  forallb (fun a => forallb (agrees_div a) (upto 40)) (upto 40) = true.
Proof. vm_compute. reflexivity. Qed.

Example rnd_agrees_with_SFmul :
  forallb (fun c => forallb (fun a => forallb (agrees_mul c a) (upto 12)) (upto 12))
    [1; 2; 3; 7; 49; 147; 700; 1400; 2147483647]%Z = true.
Proof. vm_compute. reflexivity. Qed.

Example rnd_agrees_at_the_limits :
  (agrees_div 2147483647 3 = true /\ agrees_div 1 2147483647 = true /\
   agrees_div 2147483646 2147483647 = true /\
   agrees_mul 2147483647 2147483646 2147483647 = true /\
   agrees_div (2 ^ 1101 + 6) 4 = true /\ rnd ((2 ^ 1101 + 6) # 4) = None)%Z.
Proof. vm_compute. repeat split; reflexivity. Qed.
End FloatFacts.

(** ** The size computation *)

Module FitFacts.
Import Binary64 RoundFacts FloatFacts.
Local Open Scope Q_scope.

Lemma round_le (q : Q) (z : Z) :
  q < inject_Z z + (1 # 2) ->
  (round_half_even (Qnum q) (Zpos (Qden q)) <= z)%Z.
Proof.
  intros H. apply round_half_even_below; [lia |].
  destruct q as [n d]. unfold Qlt, Qplus, inject_Z in H.
  cbn [Qnum Qden] in *. lia.
Qed.

Lemma round_ge (q : Q) (z : Z) :
  inject_Z z - (1 # 2) < q ->
  (z <= round_half_even (Qnum q) (Zpos (Qden q)))%Z.
Proof.
  intros H. apply round_half_even_above; [lia |].
  destruct q as [n d]. unfold Qlt, Qminus, Qplus, Qopp, inject_Z in H.
  cbn [Qnum Qden] in *. lia.
Qed.

Lemma round_near (q : Q) :
  let n := round_half_even (Qnum q) (Zpos (Qden q)) in
  q - (1 # 2) <= inject_Z n <= q + (1 # 2).
Proof.
  cbv zeta. pose proof (round_half_even_near (Qnum q) (Zpos (Qden q)) ltac:(lia)) as H.
  set (n := round_half_even _ _) in *.
  destruct q as [a d]. unfold Qle, Qminus, Qplus, Qopp, inject_Z.
  cbn [Qnum Qden] in *. lia.
Qed.

Lemma tiny_le (n : Z) (d : positive) :
  (Zpos d <= n * 2 ^ 1022)%Z -> tiny <= n # d.
Proof.
  intros H. unfold tiny. rewrite scaleb_neg by lia.
  unfold Qle. cbn [Qnum Qden].
  rewrite Z2Pos.id by (apply pow2_pos; lia).
  change (- -1022)%Z with 1022%Z. lia.
Qed.

Lemma truediv_inv (a b : Z) (s : Q) :
  (0 < b)%Z -> Py.truediv a b = Ok s -> rnd (a # Z.to_pos b) = Some s.
Proof.
  intros Hb H. unfold Py.truediv in H.
  destruct (Z.eqb_spec b 0); [lia |].
  rewrite Z.sgn_pos, Z.abs_eq, Z.mul_1_r in H by lia.
  destruct (rnd (a # Z.to_pos b)); congruence.
Qed.

(** The quotient of two positive integers, the divisor being a
    dimension of an image. *)
Lemma truediv_bounds (a b : Z) (s : Q) :
  (1 <= a)%Z -> (1 <= b <= INT_MAX)%Z -> Py.truediv a b = Ok s ->
  inject_Z a * (1 - eps) <= s * inject_Z b <= inject_Z a * (1 + eps) /\
  (1 # 4294967296) <= s.
Proof.
  intros Ha Hb H. apply truediv_inv in H; [| lia].
  assert (Hx : 0 < a # Z.to_pos b) by (unfold Qlt; cbn [Qnum Qden]; lia).
  assert (Ht : tiny <= a # Z.to_pos b).
  { apply tiny_le. rewrite Z2Pos.id by lia. unfold INT_MAX in Hb.
    assert (2147483647 <= 2 ^ 1022)%Z by (vm_compute; discriminate). nia. }
  pose proof (rnd_rel_err _ _ Hx Ht H) as [H1 H2].
  pose proof (Qmake_frac a (Z.to_pos b)) as E. rewrite Z2Pos.id in E by lia.
  pose proof (inject_Z_pos b ltac:(lia)) as Hb0.
  pose proof (inject_Z_pos a ltac:(lia)) as Ha0.
  assert (Hb1 : inject_Z b <= 2147483647 # 1)
    by (change (2147483647 # 1) with (inject_Z 2147483647);
        rewrite <- Zle_Qle; unfold INT_MAX in Hb; lia).
  assert (Ha1 : 1 <= inject_Z a)
    by (change 1 with (inject_Z 1); rewrite <- Zle_Qle; lia).
  unfold eps in *.
  set (x := a # Z.to_pos b) in *. set (B := inject_Z b) in *.
  set (A := inject_Z a) in *.
  assert (G1 : A * (1 - (1 # 9007199254740992)) <= s * B).
  { rewrite <- E. assert (x * (1 - (1 # 9007199254740992)) * B <= s * B) by nra.
    lra. }
  assert (G2 : s * B <= A * (1 + (1 # 9007199254740992))).
  { rewrite <- E. assert (s * B <= x * (1 + (1 # 9007199254740992)) * B) by nra.
    lra. }
  split; [split; assumption |].
  assert (0 < s) by nra.
  assert (s * B <= s * (2147483647 # 1)) by nra.
  lra.
Qed.

Lemma truediv_ge_1 (a b : Z) (s : Q) :
  (1 <= b <= a)%Z -> Py.truediv a b = Ok s -> 1 <= s.
Proof.
  intros Hb H. apply truediv_inv in H; [| lia].
  assert (Hx : 1 <= a # Z.to_pos b).
  { pose proof (Z2Pos.id b ltac:(lia)) as E.
    unfold Qle. cbn [Qnum Qden]. lia. }
  exact (rnd_ge_1 _ _ Hx H).
Qed.

Lemma truediv_lt_1 (a b : Z) (s : Q) :
  (1 <= a < b)%Z -> (b <= INT_MAX)%Z -> Py.truediv a b = Ok s -> s < 1.
Proof.
  intros Ha Hb H.
  destruct (truediv_bounds a b s ltac:(lia) ltac:(lia) H) as [[_ H2] _].
  pose proof (inject_Z_pos b ltac:(lia)) as Hb0.
  assert (Hab : inject_Z a + 1 <= inject_Z b)
    by (change 1 with (inject_Z 1); rewrite <- inject_Z_plus, <- Zle_Qle; lia).
  assert (Hb1 : inject_Z b <= 2147483647 # 1)
    by (change (2147483647 # 1) with (inject_Z 2147483647);
        rewrite <- Zle_Qle; unfold INT_MAX in Hb; lia).
  unfold eps in *.
  apply (Qmult_lt_r _ _ (inject_Z b) Hb0). lra.
Qed.

(** What [placed] computes: the product rounded twice, to binary64 and
    then to an integer. *)
Lemma placed_inv (c : Z) (s : Q) (p : Z) :
  (1 <= c <= INT_MAX)%Z -> placed c s = Ok p ->
  exists cf v,
    cf == inject_Z c /\ rnd (cf * s) = Some v /\
    p = Z.max 1 (round_half_even (Qnum v) (Zpos (Qden v))).
Proof.
  intros Hc H. unfold placed, Py.mul_int_float, Py.float_of_int in H.
  destruct (rnd (inject_Z c)) as [cf |] eqn:Ecf; cbn in H; [| discriminate].
  destruct (rnd (cf * s)) as [v |] eqn:Ev; cbn in H; [| discriminate].
  injection H as <-. exists cf, v. split; [| split; [exact Ev | reflexivity]].
  apply (rnd_int (inject_Z c) c cf); [| reflexivity | exact Ecf].
  unfold INT_MAX in Hc.
  assert (2147483647 < 2 ^ 53)%Z by (vm_compute; reflexivity). lia.
Qed.

Lemma placed_bounds (c : Z) (s : Q) (p : Z) :
  (1 <= c <= INT_MAX)%Z -> tiny <= s -> 0 < s -> placed c s = Ok p ->
  exists v,
    inject_Z c * s * (1 - eps) <= v <= inject_Z c * s * (1 + eps) /\
    p = Z.max 1 (round_half_even (Qnum v) (Zpos (Qden v))).
Proof.
  intros Hc Ht Hs H.
  destruct (placed_inv c s p Hc H) as (cf & v & Ecf & Ev & ->).
  exists v. split; [| reflexivity].
  assert (Hc1 : 1 <= inject_Z c)
    by (change 1 with (inject_Z 1); rewrite <- Zle_Qle; lia).
  rewrite <- Ecf in *.
  apply rnd_rel_err; [nra | nra | exact Ev].
Qed.

(** Scaling by exactly 1 keeps a dimension. *)
Lemma placed_one (c p : Z) :
  (1 <= c <= INT_MAX)%Z -> placed c 1 = Ok p -> p = c.
Proof.
  intros Hc H.
  destruct (placed_inv c 1 p Hc H) as (cf & v & Ecf & Ev & ->).
  assert (Hv : v == inject_Z c).
  { apply (rnd_int (cf * 1) c v); [| rewrite Ecf; ring | exact Ev].
    unfold INT_MAX in Hc.
    assert (2147483647 < 2 ^ 53)%Z by (vm_compute; reflexivity). lia. }
  assert (round_half_even (Qnum v) (Zpos (Qden v)) = c).
  { apply Z.le_antisymm; [apply round_le | apply round_ge]; rewrite Hv; lra. }
  lia.
Qed.

Lemma tiny_le_small : tiny <= 1 # 4294967296.
Proof. vm_compute. discriminate. Qed.

Lemma inject_Z_INT_MAX (c : Z) :
  (c <= INT_MAX)%Z -> inject_Z c <= 2147483647 # 1.
Proof.
  intros H. change (2147483647 # 1) with (inject_Z 2147483647).
  rewrite <- Zle_Qle. exact H.
Qed.

Lemma inject_Z_ge_1 (c : Z) : (1 <= c)%Z -> 1 <= inject_Z c.
Proof. intros H. change 1 with (inject_Z 1). rewrite <- Zle_Qle. exact H. Qed.

(** Scaling a dimension by the quotient that was computed from it gives
    the numerator back, as long as the result is a size Pillow takes. *)
Lemma placed_quotient (r c : Z) (s : Q) (p : Z) :
  (1 <= r)%Z -> (1 <= c <= INT_MAX)%Z ->
  Py.truediv r c = Ok s -> placed c s = Ok p -> (p <= INT_MAX)%Z ->
  p = r.
Proof.
  intros Hr Hc Hs Hp Hmax.
  destruct (truediv_bounds r c s Hr Hc Hs) as [[H1 H2] H3].
  pose proof tiny_le_small as Ht.
  destruct (placed_bounds c s p Hc ltac:(lra) ltac:(lra) Hp)
    as (v & [Hv1 Hv2] & ->).
  pose proof (inject_Z_ge_1 r Hr) as HR.
  unfold eps in *.
  set (R := inject_Z r) in *. set (C := inject_Z c) in *.
  destruct (Z.lt_ge_cases r (2 ^ 51)) as [Hsmall | Hbig].
  - assert (HR' : R <= 2251799813685247 # 1).
    { change (2251799813685247 # 1) with (inject_Z 2251799813685247).
      unfold R. rewrite <- Zle_Qle.
      change (2 ^ 51)%Z with 2251799813685248%Z in Hsmall. lia. }
    assert (round_half_even (Qnum v) (Zpos (Qden v)) = r).
    { apply Z.le_antisymm; [apply round_le | apply round_ge]; fold R; lra. }
    lia.
  - exfalso.
    assert (HR' : 2251799813685248 # 1 <= R).
    { change (2251799813685248 # 1) with (inject_Z 2251799813685248).
      unfold R. rewrite <- Zle_Qle.
      change (2 ^ 51)%Z with 2251799813685248%Z in Hbig. lia. }
    assert (INT_MAX + 1 <= round_half_even (Qnum v) (Zpos (Qden v)))%Z.
    { apply round_ge. change (inject_Z (INT_MAX + 1)) with (2147483648 # 1).
      lra. }
    lia.
Qed.

(** Scaling by no more than the quotient stays within the numerator. *)
Lemma placed_le (r c : Z) (s s' : Q) (p : Z) :
  (1 <= r)%Z -> (1 <= c <= INT_MAX)%Z ->
  Py.truediv r c = Ok s -> (1 # 4294967296) <= s' -> s' <= s ->
  placed c s' = Ok p -> (p <= INT_MAX)%Z ->
  (p <= r)%Z.
Proof.
  intros Hr Hc Hs Hs' Hle Hp Hmax.
  destruct (Z.le_gt_cases INT_MAX r) as [Hbig | Hsmall]; [lia |].
  destruct (truediv_bounds r c s Hr Hc Hs) as [[H1 H2] H3].
  pose proof tiny_le_small as Ht.
  destruct (placed_bounds c s' p Hc ltac:(lra) ltac:(lra) Hp)
    as (v & [Hv1 Hv2] & ->).
  pose proof (inject_Z_ge_1 r Hr) as HR.
  pose proof (inject_Z_INT_MAX r ltac:(lia)) as HR'.
  pose proof (inject_Z_ge_1 c ltac:(lia)) as HC.
  unfold eps in *.
  set (R := inject_Z r) in *. set (C := inject_Z c) in *.
  assert (Hcs : C * s' <= s * C) by nra.
  assert (round_half_even (Qnum v) (Zpos (Qden v)) <= r)%Z.
  { apply round_le. fold R. lra. }
  lia.
Qed.

Lemma fit_inv (rw rh cw ch : Z) (up : bool) (scale : Q) (nw nh : Z) :
  fit rw rh cw ch up = Ok (scale, (nw, nh)) ->
  exists sw sh,
    Py.truediv rw cw = Ok sw /\ Py.truediv rh ch = Ok sh /\
    scale = (if negb up then Py.min 1 (Py.min sw sh) else Py.min sw sh) /\
    placed cw scale = Ok nw /\ placed ch scale = Ok nh.
Proof.
  unfold fit. intros H.
  destruct (Py.truediv rw cw) as [sw |]; cbn in H; [| discriminate].
  destruct (Py.truediv rh ch) as [sh |]; cbn in H; [| discriminate].
  destruct (placed cw _) as [a |] eqn:Ea; cbn in H; [| discriminate].
  destruct (placed ch _) as [b |] eqn:Eb; cbn in H; [| discriminate].
  injection H as <- <- <-. exists sw, sh. auto.
Qed.

Lemma min_cases (a b : Q) :
  (Py.min a b = a /\ a <= b) \/ (Py.min a b = b /\ b < a).
Proof.
  unfold Py.min. destruct (Qle_bool a b) eqn:E.
  - left. split; [reflexivity | apply Qle_bool_iff; exact E].
  - right. split; [reflexivity |].
    apply Qnot_le_lt. intros H. apply Qle_bool_iff in H. congruence.
Qed.

(** The placed size when the scale is the contain scale itself. *)
Lemma contain_unclamped (rw rh cw ch : Z) (sw sh : Q) (nw nh : Z) :
  (1 <= rw)%Z -> (1 <= rh)%Z ->
  (1 <= cw <= INT_MAX)%Z -> (1 <= ch <= INT_MAX)%Z ->
  Py.truediv rw cw = Ok sw -> Py.truediv rh ch = Ok sh ->
  placed cw (Py.min sw sh) = Ok nw -> placed ch (Py.min sw sh) = Ok nh ->
  (nw <= INT_MAX)%Z -> (nh <= INT_MAX)%Z ->
  (nw <= rw)%Z /\ (nh <= rh)%Z /\ (nw = rw \/ nh = rh).
Proof.
  intros Hrw Hrh Hcw Hch Hsw Hsh Hnw Hnh Mw Mh.
  destruct (truediv_bounds rw cw sw Hrw Hcw Hsw) as [_ Lw].
  destruct (truediv_bounds rh ch sh Hrh Hch Hsh) as [_ Lh].
  destruct (min_cases sw sh) as [[E Hle] | [E Hlt]]; rewrite E in *.
  - pose proof (placed_quotient rw cw sw nw Hrw Hcw Hsw Hnw Mw).
    pose proof (placed_le rh ch sh sw nh Hrh Hch Hsh Lw Hle Hnh Mh).
    lia.
  - pose proof (placed_quotient rh ch sh nh Hrh Hch Hsh Hnh Mh).
    pose proof (placed_le rw cw sw sh nw Hrw Hcw Hsw Lh
                  (Qlt_le_weak _ _ Hlt) Hnw Mw).
    lia.
Qed.

(** The contain property of the size computation. *)
Lemma fit_contain (rw rh cw ch : Z) (up : bool) (scale : Q) (nw nh : Z) :
  (1 <= rw)%Z -> (1 <= rh)%Z ->
  (1 <= cw <= INT_MAX)%Z -> (1 <= ch <= INT_MAX)%Z ->
  fit rw rh cw ch up = Ok (scale, (nw, nh)) ->
  (nw <= INT_MAX)%Z -> (nh <= INT_MAX)%Z ->
  (nw <= rw)%Z /\ (nh <= rh)%Z /\
  (nw = rw \/ nh = rh \/
   (up = false /\ scale = 1 /\ nw = cw /\ nh = ch /\
    (cw < rw)%Z /\ (ch < rh)%Z)).
Proof.
  intros Hrw Hrh Hcw Hch Hfit Mw Mh.
  destruct (fit_inv _ _ _ _ _ _ _ _ Hfit) as (sw & sh & Hsw & Hsh & -> & Hnw & Hnh).
  destruct up; cbn [negb] in *.
  - destruct (contain_unclamped rw rh cw ch sw sh nw nh) as (? & ? & [? | ?]);
      auto.
  - destruct (min_cases 1 (Py.min sw sh)) as [[E Hle] | [E Hlt]];
      rewrite E in *.
    + assert (H1w : 1 <= sw /\ 1 <= sh).
      { destruct (min_cases sw sh) as [[E' ?] | [E' ?]]; rewrite E' in Hle;
          split; lra. }
      destruct H1w as [H1w H1h].
      assert (cw <= rw)%Z.
      { destruct (Z.le_gt_cases cw rw) as [? | Hgt]; [assumption |].
        pose proof (truediv_lt_1 rw cw sw ltac:(lia) ltac:(lia) Hsw). lra. }
      assert (ch <= rh)%Z.
      { destruct (Z.le_gt_cases ch rh) as [? | Hgt]; [assumption |].
        pose proof (truediv_lt_1 rh ch sh ltac:(lia) ltac:(lia) Hsh). lra. }
      apply placed_one in Hnw; [| assumption].
      apply placed_one in Hnh; [| assumption].
      subst nw nh.
      destruct (Z.eq_dec cw rw); [lia |].
      destruct (Z.eq_dec ch rh); [lia |].
      repeat split; try lia. right. right. repeat split; lia.
    + destruct (contain_unclamped rw rh cw ch sw sh nw nh) as (? & ? & [? | ?]);
        auto.
Qed.

Lemma round_half_even_tie (n d : Z) :
  (0 < d)%Z ->
  (2 * (round_half_even n d * d - n) = d \/
   2 * (round_half_even n d * d - n) = - d)%Z ->
  Z.even (round_half_even n d) = true.
Proof.
  intros Hd. unfold round_half_even.
  pose proof (Z.div_mod n d ltac:(lia)) as Hdm.
  pose proof (Z.mod_pos_bound n d Hd) as Hr.
  destruct (Z.compare_spec (2 * (n mod d)) d) as [E | E | E].
  - destruct (Z.even (n / d)) eqn:Ev; [auto |].
    intros _. rewrite Z.even_add, Ev. reflexivity.
  - intros [H | H]; nia.
  - intros [H | H]; nia.
Qed.

Lemma round_tie (q : Q) :
  let n := round_half_even (Qnum q) (Zpos (Qden q)) in
  (inject_Z n - q == 1 # 2 \/ q - inject_Z n == 1 # 2) -> Z.even n = true.
Proof.
  cbv zeta. intros H. apply round_half_even_tie; [lia |].
  set (n := round_half_even _ _) in *. destruct q as [a d].
  unfold Qeq, Qminus, Qplus, Qopp, inject_Z in H. cbn [Qnum Qden] in *.
  lia.
Qed.

Lemma placed_product (c : Z) (s : Q) (p : Z) :
  placed c s = Ok p ->
  exists v, Py.mul_int_float c s = Ok (Some v) /\
            p = Z.max 1 (round_half_even (Qnum v) (Zpos (Qden v))).
Proof.
  unfold placed. intros H.
  destruct (Py.mul_int_float c s) as [[v |] |]; cbn in H; try discriminate.
  injection H as <-. eauto.
Qed.

Lemma product_bounds (c : Z) (s v : Q) :
  (1 <= c <= INT_MAX)%Z -> tiny <= s -> 0 < s ->
  Py.mul_int_float c s = Ok (Some v) ->
  inject_Z c * s * (1 - eps) <= v <= inject_Z c * s * (1 + eps).
Proof.
  intros Hc Ht Hs H.
  unfold Py.mul_int_float, Py.float_of_int in H.
  destruct (rnd (inject_Z c)) as [cf0 |] eqn:E0; [| discriminate].
  injection H as H.
  assert (Hcf : cf0 == inject_Z c).
  { apply (rnd_int (inject_Z c) c cf0); [| reflexivity | exact E0].
    unfold INT_MAX in Hc.
    assert (2147483647 < 2 ^ 53)%Z by (vm_compute; reflexivity). lia. }
  pose proof (inject_Z_ge_1 c ltac:(lia)) as Hc1.
  rewrite <- Hcf in *.
  apply rnd_rel_err; [nra | nra | exact H].
Qed.

Lemma min_value (a b : Q) : Py.min a b == Qmin a b.
Proof.
  destruct (min_cases a b) as [[-> H] | [-> H]].
  - symmetry. apply Q.min_l. exact H.
  - symmetry. apply Q.min_r. apply Qlt_le_weak. exact H.
Qed.

(** The scale is never below [2^-32]. *)
Lemma scale_lower (rw rh cw ch : Z) (up : bool) (sw sh : Q) :
  (1 <= rw)%Z -> (1 <= rh)%Z ->
  (1 <= cw <= INT_MAX)%Z -> (1 <= ch <= INT_MAX)%Z ->
  Py.truediv rw cw = Ok sw -> Py.truediv rh ch = Ok sh ->
  (1 # 4294967296) <=
    (if negb up then Py.min 1 (Py.min sw sh) else Py.min sw sh).
Proof.
  intros Hrw Hrh Hcw Hch Hsw Hsh.
  destruct (truediv_bounds rw cw sw Hrw Hcw Hsw) as [_ Lw].
  destruct (truediv_bounds rh ch sh Hrh Hch Hsh) as [_ Lh].
  assert (L : (1 # 4294967296) <= Py.min sw sh)
    by (destruct (min_cases sw sh) as [[-> _] | [-> _]]; assumption).
  destruct up; cbn [negb]; [exact L |].
  destruct (min_cases 1 (Py.min sw sh)) as [[-> _] | [-> _]]; [lra | exact L].
Qed.

(** With upscaling off and a content that fits, the scale is 1.0 and
    the size is kept. *)
Lemma fit_clamped (rw rh cw ch : Z) (scale : Q) (nw nh : Z) :
  (1 <= cw <= INT_MAX)%Z -> (1 <= ch <= INT_MAX)%Z ->
  (cw <= rw)%Z -> (ch <= rh)%Z ->
  fit rw rh cw ch false = Ok (scale, (nw, nh)) ->
  scale = 1 /\ nw = cw /\ nh = ch.
Proof.
  intros Hcw Hch Hw Hh Hfit.
  destruct (fit_inv _ _ _ _ _ _ _ _ Hfit) as (sw & sh & Hsw & Hsh & -> & Hnw & Hnh).
  cbn [negb] in *.
  pose proof (truediv_ge_1 rw cw sw ltac:(lia) Hsw) as H1.
  pose proof (truediv_ge_1 rh ch sh ltac:(lia) Hsh) as H2.
  assert (E : Py.min 1 (Py.min sw sh) = 1).
  { destruct (min_cases 1 (Py.min sw sh)) as [[E _] | [_ Hlt]]; [exact E |].
    destruct (min_cases sw sh) as [[E' _] | [E' _]]; rewrite E' in Hlt; lra. }
  rewrite E in *.
  split; [reflexivity |]. split; eapply placed_one; eauto.
Qed.


(** The size computation goes through while the inner dimensions are
    below [2^1000]. *)
Lemma truediv_total (a b : Z) :
  (1 <= a < 2 ^ 1000)%Z -> (1 <= b <= INT_MAX)%Z ->
  exists s, Py.truediv a b = Ok s.
Proof.
  intros Ha Hb. unfold Py.truediv.
  destruct (Z.eqb_spec b 0); [lia |].
  rewrite Z.sgn_pos, Z.abs_eq, Z.mul_1_r by lia.
  destruct (rnd_finite (a # Z.to_pos b)) as [s Hs].
  - unfold Qlt. cbn [Qnum Qden]. lia.
  - unfold Qlt, inject_Z. cbn [Qnum Qden]. rewrite Z2Pos.id by lia.
    assert (2 ^ 1000 < 2 ^ 1023)%Z by (apply Z.pow_lt_mono_r; lia).
    nia.
  - rewrite Hs. eauto.
Qed.

Lemma placed_total (c r : Z) (s : Q) :
  (1 <= c <= INT_MAX)%Z -> (1 <= r < 2 ^ 1000)%Z ->
  0 < s -> inject_Z c * s <= inject_Z r * (1 + eps) ->
  exists p, placed c s = Ok p.
Proof.
  intros Hc Hr Hs Hb. unfold placed, Py.mul_int_float, Py.float_of_int.
  destruct (rnd_finite (inject_Z c)) as [cf Hcf].
  - apply inject_Z_pos. lia.
  - rewrite <- Zlt_Qlt. unfold INT_MAX in Hc.
    assert (2147483647 < 2 ^ 1023)%Z by (vm_compute; reflexivity). lia.
  - rewrite Hcf. cbn [rbind].
    assert (Ecf : cf == inject_Z c).
    { apply (rnd_int (inject_Z c) c cf); [| reflexivity | exact Hcf].
      unfold INT_MAX in Hc.
      assert (2147483647 < 2 ^ 53)%Z by (vm_compute; reflexivity). lia. }
    pose proof (inject_Z_ge_1 c ltac:(lia)) as Hc1.
    destruct (rnd_finite (cf * s)) as [v Hv].
    + rewrite Ecf. nra.
    + rewrite Ecf.
      assert (H2 : inject_Z r * 2 < inject_Z (2 ^ 1023)).
      { change 2 with (inject_Z 2). rewrite <- inject_Z_mult, <- Zlt_Qlt.
        assert (2 ^ 1000 * 2 < 2 ^ 1023)%Z by (vm_compute; reflexivity). lia. }
      pose proof (inject_Z_ge_1 r ltac:(lia)) as Hr1.
      unfold eps in Hb. lra.
    + rewrite Hv. cbn. eauto.
Qed.

Lemma fit_total (rw rh cw ch : Z) (up : bool) :
  (1 <= rw < 2 ^ 1000)%Z -> (1 <= rh < 2 ^ 1000)%Z ->
  (1 <= cw <= INT_MAX)%Z -> (1 <= ch <= INT_MAX)%Z ->
  exists f, fit rw rh cw ch up = Ok f.
Proof.
  intros Hrw Hrh Hcw Hch. unfold fit.
  destruct (truediv_total rw cw Hrw Hcw) as [sw Hsw].
  destruct (truediv_total rh ch Hrh Hch) as [sh Hsh].
  rewrite Hsw, Hsh. cbn [rbind].
  assert (Hrw1 : (1 <= rw)%Z) by lia. assert (Hrh1 : (1 <= rh)%Z) by lia.
  destruct (truediv_bounds rw cw sw Hrw1 Hcw Hsw) as [[_ Uw] Lw].
  destruct (truediv_bounds rh ch sh Hrh1 Hch Hsh) as [[_ Uh] Lh].
  pose proof (scale_lower rw rh cw ch up sw sh Hrw1 Hrh1 Hcw Hch Hsw Hsh) as Hlo.
  set (scale := if negb up then Py.min 1 (Py.min sw sh) else Py.min sw sh) in *.
  assert (Hle : scale <= sw /\ scale <= sh).
  { assert (Hm : Py.min sw sh <= sw /\ Py.min sw sh <= sh).
    { destruct (min_cases sw sh) as [[-> ?] | [-> ?]]; split; lra. }
    unfold scale. destruct up; cbn [negb]; [exact Hm |].
    destruct (min_cases 1 (Py.min sw sh)) as [[-> ?] | [-> ?]]; split; lra. }
  destruct Hle as [Hlw Hlh].
  change ((1 # 4294967296) <= scale) in Hlo. clearbody scale.
  assert (Hc1 : 1 <= inject_Z cw) by (apply inject_Z_ge_1; lia).
  assert (Hc2 : 1 <= inject_Z ch) by (apply inject_Z_ge_1; lia).
  assert (Hpos : 0 < scale) by lra.
  assert (Bw : inject_Z cw * scale <= inject_Z rw * (1 + eps)) by nra.
  assert (Bh : inject_Z ch * scale <= inject_Z rh * (1 + eps)) by nra.
  destruct (placed_total cw rw scale Hcw Hrw Hpos Bw) as [nw Hnw].
  destruct (placed_total ch rh scale Hch Hrh Hpos Bh) as [nh Hnh].
  rewrite Hnw. cbn [rbind]. rewrite Hnh. cbn [rbind]. eauto.
Qed.
Lemma placed_ge_1 (c : Z) (s : Q) (p : Z) : placed c s = Ok p -> (1 <= p)%Z.
Proof.
  intros H. destruct (placed_product c s p H) as (v & _ & ->). lia.
Qed.

(** Scaling by no more than the quotient stays within a numerator that
    is itself a size Pillow takes. *)
Lemma placed_within (r c : Z) (s s' : Q) (p : Z) :
  (1 <= r <= INT_MAX)%Z -> (1 <= c <= INT_MAX)%Z ->
  Py.truediv r c = Ok s -> (1 # 4294967296) <= s' -> s' <= s ->
  placed c s' = Ok p -> (1 <= p <= r)%Z.
Proof.
  intros Hr Hc Hs Hs' Hle Hp.
  split; [exact (placed_ge_1 _ _ _ Hp) |].
  destruct (truediv_bounds r c s ltac:(lia) Hc Hs) as [[H1 H2] H3].
  pose proof tiny_le_small as Ht.
  destruct (placed_bounds c s' p Hc ltac:(lra) ltac:(lra) Hp)
    as (v & [Hv1 Hv2] & ->).
  pose proof (inject_Z_ge_1 r ltac:(lia)) as HR.
  pose proof (inject_Z_INT_MAX r ltac:(lia)) as HR'.
  pose proof (inject_Z_ge_1 c ltac:(lia)) as HC.
  unfold eps in *.
  set (R := inject_Z r) in *. set (C := inject_Z c) in *.
  assert (Hcs : C * s' <= s * C) by nra.
  assert (round_half_even (Qnum v) (Zpos (Qden v)) <= r)%Z.
  { apply round_le. fold R. lra. }
  lia.
Qed.

(** Scaling by no more than 1 does not enlarge. *)
Lemma placed_shrinks (c : Z) (s : Q) (p : Z) :
  (1 <= c <= INT_MAX)%Z -> (1 # 4294967296) <= s -> s <= 1 ->
  placed c s = Ok p -> (1 <= p <= c)%Z.
Proof.
  intros Hc Hs Hle Hp.
  split; [exact (placed_ge_1 _ _ _ Hp) |].
  pose proof tiny_le_small as Ht.
  destruct (placed_bounds c s p Hc ltac:(lra) ltac:(lra) Hp)
    as (v & [Hv1 Hv2] & ->).
  pose proof (inject_Z_INT_MAX c ltac:(lia)) as HC'.
  pose proof (inject_Z_ge_1 c ltac:(lia)) as HC.
  unfold eps in *.
  set (C := inject_Z c) in *.
  assert (Hcs : C * s <= C) by nra.
  assert (round_half_even (Qnum v) (Zpos (Qden v)) <= c)%Z.
  { apply round_le. fold C. lra. }
  lia.
Qed.

Lemma scale_upper (up : bool) (sw sh scale : Q) :
  scale = (if negb up then Py.min 1 (Py.min sw sh) else Py.min sw sh) ->
  scale <= sw /\ scale <= sh /\ (up = false -> scale <= 1).
Proof.
  intros ->.
  assert (Hm : Py.min sw sh <= sw /\ Py.min sw sh <= sh).
  { destruct (min_cases sw sh) as [[-> ?] | [-> ?]]; split; lra. }
  destruct up; cbn [negb].
  - split; [apply Hm |]. split; [apply Hm | discriminate].
  - destruct (min_cases 1 (Py.min sw sh)) as [[-> ?] | [-> ?]];
      (split; [lra |]); (split; [lra |]); intros _; lra.
Qed.

(** The placed size lies within a region that Pillow could hold. *)
Lemma fit_within (rw rh cw ch : Z) (up : bool) (scale : Q) (nw nh : Z) :
  (1 <= rw <= INT_MAX)%Z -> (1 <= rh <= INT_MAX)%Z ->
  (1 <= cw <= INT_MAX)%Z -> (1 <= ch <= INT_MAX)%Z ->
  fit rw rh cw ch up = Ok (scale, (nw, nh)) ->
  (1 <= nw <= rw)%Z /\ (1 <= nh <= rh)%Z.
Proof.
  intros Hrw Hrh Hcw Hch Hfit.
  destruct (fit_inv _ _ _ _ _ _ _ _ Hfit) as (sw & sh & Hsw & Hsh & Hs & Hnw & Hnh).
  pose proof (scale_lower rw rh cw ch up sw sh ltac:(lia) ltac:(lia) Hcw Hch Hsw Hsh)
    as Hlo.
  destruct (scale_upper up sw sh scale Hs) as (Uw & Uh & _).
  rewrite <- Hs in Hlo.
  split.
  - exact (placed_within rw cw sw scale nw Hrw Hcw Hsw Hlo Uw Hnw).
  - exact (placed_within rh ch sh scale nh Hrh Hch Hsh Hlo Uh Hnh).
Qed.

(** With upscaling off, the placed size is at most the content size. *)
Lemma fit_shrinks (rw rh cw ch : Z) (scale : Q) (nw nh : Z) :
  (1 <= rw)%Z -> (1 <= rh)%Z ->
  (1 <= cw <= INT_MAX)%Z -> (1 <= ch <= INT_MAX)%Z ->
  fit rw rh cw ch false = Ok (scale, (nw, nh)) ->
  scale <= 1 /\ (1 <= nw <= cw)%Z /\ (1 <= nh <= ch)%Z.
Proof.
  intros Hrw Hrh Hcw Hch Hfit.
  destruct (fit_inv _ _ _ _ _ _ _ _ Hfit) as (sw & sh & Hsw & Hsh & Hs & Hnw & Hnh).
  pose proof (scale_lower rw rh cw ch false sw sh Hrw Hrh Hcw Hch Hsw Hsh) as Hlo.
  destruct (scale_upper false sw sh scale Hs) as (_ & _ & U).
  specialize (U eq_refl).
  rewrite <- Hs in Hlo.
  split; [exact U |]. split.
  - exact (placed_shrinks cw scale nw Hcw Hlo U Hnw).
  - exact (placed_shrinks ch scale nh Hch Hlo U Hnh).
Qed.

(** When the content exceeds the region in a direction, the limit of the
    scale to 1.0 changes nothing. *)
Lemma fit_upscale_irrelevant (rw rh cw ch : Z) :
  (1 <= rw)%Z -> (1 <= rh)%Z ->
  (1 <= cw <= INT_MAX)%Z -> (1 <= ch <= INT_MAX)%Z ->
  (rw < cw \/ rh < ch)%Z ->
  fit rw rh cw ch true = fit rw rh cw ch false.
Proof.
  intros Hrw Hrh Hcw Hch Hlt. unfold fit.
  destruct (Py.truediv rw cw) as [sw |] eqn:Hsw; [| reflexivity].
  destruct (Py.truediv rh ch) as [sh |] eqn:Hsh; [| reflexivity].
  cbn [rbind negb].
  assert (E : Py.min 1 (Py.min sw sh) = Py.min sw sh).
  { destruct (min_cases 1 (Py.min sw sh)) as [[_ Hle] | [E _]]; [| exact E].
    exfalso. destruct (scale_upper true sw sh _ eq_refl) as (Uw & Uh & _).
    cbn [negb] in *.
    destruct Hlt as [Hlt | Hlt].
    - pose proof (truediv_lt_1 rw cw sw ltac:(lia) ltac:(lia) Hsw). lra.
    - pose proof (truediv_lt_1 rh ch sh ltac:(lia) ltac:(lia) Hsh). lra. }
  rewrite E. reflexivity.
Qed.

(** Scaling a dimension by a quotient of the same ratio gives the
    numerator of that ratio, as long as the result is a size Pillow
    takes. *)
Lemma placed_ratio (r' c' r c : Z) (s : Q) (p : Z) :
  (1 <= r')%Z -> (1 <= c' <= INT_MAX)%Z ->
  (1 <= r)%Z -> (1 <= c <= INT_MAX)%Z ->
  (r' * c = r * c')%Z ->
  Py.truediv r' c' = Ok s -> placed c s = Ok p -> (p <= INT_MAX)%Z ->
  p = r.
Proof.
  intros Hr' Hc' Hr Hc Hx Hs Hp Hmax.
  destruct (truediv_bounds r' c' s Hr' Hc' Hs) as [[H1 H2] H3].
  pose proof tiny_le_small as Ht.
  destruct (placed_bounds c s p Hc ltac:(lra) ltac:(lra) Hp)
    as (v & [Hv1 Hv2] & ->).
  pose proof (inject_Z_ge_1 r Hr) as HR.
  pose proof (inject_Z_ge_1 c ltac:(lia)) as HC.
  pose proof (inject_Z_ge_1 c' ltac:(lia)) as HC'.
  assert (HX : inject_Z r' * inject_Z c == inject_Z r * inject_Z c').
  { rewrite <- !inject_Z_mult. rewrite Hx. reflexivity. }
  unfold eps in *.
  set (R := inject_Z r) in *. set (C := inject_Z c) in *.
  set (R' := inject_Z r') in *. set (C' := inject_Z c') in *.
  assert (L : R * (1 - (1 # 9007199254740992)) <= C * s).
  { apply (Qmult_le_r _ _ C'); [lra |].
    assert (E1 : R * (1 - (1 # 9007199254740992)) * C'
                 == R' * C * (1 - (1 # 9007199254740992))) by (rewrite HX; ring).
    rewrite E1. nra. }
  assert (U : C * s <= R * (1 + (1 # 9007199254740992))).
  { apply (Qmult_le_r _ _ C'); [lra |].
    assert (E1 : R * (1 + (1 # 9007199254740992)) * C'
                 == R' * C * (1 + (1 # 9007199254740992))) by (rewrite HX; ring).
    rewrite E1. nra. }
  destruct (Z.lt_ge_cases r (2 ^ 51)) as [Hsmall | Hbig].
  - assert (HR' : R <= 2251799813685247 # 1).
    { change (2251799813685247 # 1) with (inject_Z 2251799813685247).
      unfold R. rewrite <- Zle_Qle.
      change (2 ^ 51)%Z with 2251799813685248%Z in Hsmall. lia. }
    assert (round_half_even (Qnum v) (Zpos (Qden v)) = r).
    { apply Z.le_antisymm; [apply round_le | apply round_ge]; fold R; nra. }
    lia.
  - exfalso.
    assert (HR' : 2251799813685248 # 1 <= R).
    { change (2251799813685248 # 1) with (inject_Z 2251799813685248).
      unfold R. rewrite <- Zle_Qle.
      change (2 ^ 51)%Z with 2251799813685248%Z in Hbig. lia. }
    assert (INT_MAX + 1 <= round_half_even (Qnum v) (Zpos (Qden v)))%Z.
    { apply round_ge. change (inject_Z (INT_MAX + 1)) with (2147483648 # 1).
      nra. }
    lia.
Qed.

(** A content with the proportions of the region fills it, unless the
    limit of the scale to 1.0 applies. *)
Lemma fit_fills (rw rh cw ch : Z) (up : bool) (scale : Q) (nw nh : Z) :
  (1 <= rw)%Z -> (1 <= rh)%Z ->
  (1 <= cw <= INT_MAX)%Z -> (1 <= ch <= INT_MAX)%Z ->
  (rw * ch = rh * cw)%Z ->
  up = true \/ (rw <= cw)%Z ->
  fit rw rh cw ch up = Ok (scale, (nw, nh)) ->
  (nw <= INT_MAX)%Z -> (nh <= INT_MAX)%Z ->
  nw = rw /\ nh = rh.
Proof.
  intros Hrw Hrh Hcw Hch Hx Hup Hfit Mw Mh.
  assert (Hunclamped : forall s, fit rw rh cw ch true = Ok (s, (nw, nh)) ->
                                 nw = rw /\ nh = rh).
  { intros s Hf.
    destruct (fit_inv _ _ _ _ _ _ _ _ Hf) as (sw & sh & Hsw & Hsh & -> & Hnw & Hnh).
    cbn [negb] in *.
    destruct (min_cases sw sh) as [[E _] | [E _]]; rewrite E in *; split.
    - exact (placed_ratio rw cw rw cw sw nw Hrw Hcw Hrw Hcw eq_refl Hsw Hnw Mw).
    - exact (placed_ratio rw cw rh ch sw nh Hrw Hcw Hrh Hch Hx Hsw Hnh Mh).
    - exact (placed_ratio rh ch rw cw sh nw Hrh Hch Hrw Hcw (eq_sym Hx) Hsh Hnw Mw).
    - exact (placed_ratio rh ch rh ch sh nh Hrh Hch Hrh Hch eq_refl Hsh Hnh Mh). }
  destruct up; [exact (Hunclamped _ Hfit) |].
  destruct Hup as [? | Hle]; [discriminate |].
  destruct (Z.eq_dec rw cw) as [-> | Hne].
  - assert (rh = ch) by nia. subst rh.
    destruct (fit_clamped _ _ _ _ _ _ _ Hcw Hch (Z.le_refl _) (Z.le_refl _) Hfit)
      as (_ & -> & ->). auto.
  - rewrite <- fit_upscale_irrelevant in Hfit by (auto; lia).
    exact (Hunclamped _ Hfit).
Qed.
(** Scaling by at least 1 does not shrink. *)
Lemma placed_grows (c : Z) (s : Q) (p : Z) :
  (1 <= c <= INT_MAX)%Z -> 1 <= s -> placed c s = Ok p -> (c <= p)%Z.
Proof.
  intros Hc Hs Hp.
  pose proof tiny_le_1 as Ht.
  destruct (placed_bounds c s p Hc ltac:(lra) ltac:(lra) Hp)
    as (v & [Hv1 Hv2] & ->).
  pose proof (inject_Z_INT_MAX c ltac:(lia)) as HC'.
  pose proof (inject_Z_ge_1 c ltac:(lia)) as HC.
  unfold eps in *.
  set (C := inject_Z c) in *.
  assert (Hcs : C <= C * s) by nra.
  assert (c <= round_half_even (Qnum v) (Zpos (Qden v)))%Z.
  { apply round_ge. fold C. nra. }
  lia.
Qed.

(** With upscaling on, a content that fits is not made smaller. *)
Lemma fit_grows (rw rh cw ch : Z) (scale : Q) (nw nh : Z) :
  (1 <= cw <= INT_MAX)%Z -> (1 <= ch <= INT_MAX)%Z ->
  (cw <= rw)%Z -> (ch <= rh)%Z ->
  fit rw rh cw ch true = Ok (scale, (nw, nh)) ->
  1 <= scale /\ (cw <= nw)%Z /\ (ch <= nh)%Z.
Proof.
  intros Hcw Hch Hw Hh Hfit.
  destruct (fit_inv _ _ _ _ _ _ _ _ Hfit) as (sw & sh & Hsw & Hsh & -> & Hnw & Hnh).
  cbn [negb] in *.
  pose proof (truediv_ge_1 rw cw sw ltac:(lia) Hsw) as H1.
  pose proof (truediv_ge_1 rh ch sh ltac:(lia) Hsh) as H2.
  assert (Hs : 1 <= Py.min sw sh)
    by (destruct (min_cases sw sh) as [[-> _] | [-> _]]; assumption).
  split; [exact Hs |]. split; eapply placed_grows; eauto.
Qed.
End FitFacts.

(** ** Runs of the routine *)

Section RunFacts.
Context {Pixel : Type} {R : Raster Pixel}.
Local Abbreviation World := (@World Pixel).
Local Abbreviation M := (@M Pixel).
Implicit Types (w : World) (t : list Event).

(** *** Running a sequence *)

Lemma bind_ok {A B} (m : M A) (k : A -> M B) w b w' t :
  bind m k w = (Ok b, w', t) ->
  exists a w1 t1 t2,
    m w = (Ok a, w1, t1) /\ k a w1 = (Ok b, w', t2) /\ t = t1 ++ t2.
Proof.
  unfold bind. destruct (m w) as [[[a | e] w1] t1]; [| discriminate].
  destruct (k a w1) as [[r w2] t2] eqn:Ek. intros [= -> -> <-].
  exists a, w1, t1, t2. auto.
Qed.

Lemma bind_raise {A B} (m : M A) (k : A -> M B) w e w' t :
  bind m k w = (Raise e, w', t) ->
  m w = (Raise e, w', t) \/
  exists a w1 t1 t2,
    m w = (Ok a, w1, t1) /\ k a w1 = (Raise e, w', t2) /\ t = t1 ++ t2.
Proof.
  unfold bind. destruct (m w) as [[[a | e'] w1] t1].
  - destruct (k a w1) as [[r w2] t2] eqn:Ek. intros [= -> -> <-].
    right. exists a, w1, t1, t2. auto.
  - intros [= -> -> ->]. left. reflexivity.
Qed.

(** *** The calls into Pillow, one by one *)

Lemma copy_run (r : nat) w :
  copy r w =
  match heap w !! r with
  | Some im => (Ok (length (heap w)), mkWorld (heap w ++ [im]) (files w), [EvCopy r])
  | None => (Raise BadReference, w, [EvCopy r])
  end.
Proof. unfold copy, bind, emit, deref, alloc. destruct (heap w !! r); reflexivity. Qed.

Lemma open_run (p : string) w :
  open p w =
  match files w !! p with
  | Some (Some im) =>
      (Ok (length (heap w)), mkWorld (heap w ++ [im]) (files w), [EvOpen p])
  | _ => (Raise DecodeFailure, w, [EvOpen p])
  end.
Proof.
  unfold open, bind, emit, alloc. destruct (files w !! p) as [[im |] |]; reflexivity.
Qed.

Lemma convert_rgba_run (r : nat) w :
  convert_rgba r w =
  match heap w !! r with
  | Some im =>
      (Ok (length (heap w)),
       mkWorld (heap w ++ [mkImage ["R"; "G"; "B"; "A"]%string (im_size im) (to_rgba im)])
               (files w),
       [EvConvert r])
  | None => (Raise BadReference, w, [EvConvert r])
  end.
Proof.
  unfold convert_rgba, bind, emit, deref, alloc. destruct (heap w !! r); reflexivity.
Qed.

Lemma resize_run (r : nat) (size : Z * Z) w :
  resize r size w =
  match heap w !! r with
  | Some im =>
      if size_ok size
      then (Ok (length (heap w)),
            mkWorld (heap w ++ [mkImage (im_bands im) size (lanczos im size)]) (files w),
            [EvResize r size])
      else (Raise ResizeFailure, w, [EvResize r size])
  | None => (Raise BadReference, w, [EvResize r size])
  end.
Proof.
  unfold resize, bind, emit, deref, alloc, raise.
  destruct (heap w !! r); [| reflexivity].
  destruct (size_ok size); reflexivity.
Qed.

Lemma paste_run (dst src : nat) (box : Z * Z) (mask : option nat) w :
  paste dst src box mask w =
  match heap w !! dst, heap w !! src with
  | Some d, Some s =>
      match mask with
      | None =>
          (Ok tt, mkWorld (<[dst := pasted d s box None]> (heap w)) (files w),
           [EvPaste dst src box mask])
      | Some r =>
          match heap w !! r with
          | Some mi =>
              (Ok tt,
               mkWorld (<[dst := pasted d s box (Some mi)]> (heap w)) (files w),
               [EvPaste dst src box mask])
          | None => (Raise BadReference, w, [EvPaste dst src box mask])
          end
      end
  | _, _ => (Raise BadReference, w, [EvPaste dst src box mask])
  end.
Proof.
  unfold paste, bind, emit, deref, store, ret.
  destruct (heap w !! dst); [| reflexivity].
  destruct (heap w !! src); [| reflexivity].
  destruct mask as [r |]; [| reflexivity].
  destruct (heap w !! r); reflexivity.
Qed.

Lemma save_png_run (r : nat) w :
  save_png r w =
  match heap w !! r with
  | Some im =>
      match png_encode im with
      | Some b => (Ok b, w, [EvSave r])
      | None => (Raise EncodeFailure, w, [EvSave r])
      end
  | None => (Raise BadReference, w, [EvSave r])
  end.
Proof.
  unfold save_png, bind, emit, deref, ret, raise.
  destruct (heap w !! r); [| reflexivity].
  destruct (png_encode _); reflexivity.
Qed.

(** *** The steps of the routine *)

Lemma open_canvas_run (image_source : ImageArg) w :
  open_canvas image_source w =
  match image_source with
  | Decoded r => copy r w
  | Path p =>
      match files w !! p with
      | Some (Some im) =>
          (Ok (S (length (heap w))),
           mkWorld (heap w ++ [im;
                      mkImage ["R"; "G"; "B"; "A"]%string (im_size im) (to_rgba im)])
                   (files w),
           [EvOpen p; EvConvert (length (heap w))])
      | _ => (Raise DecodeFailure, w, [EvOpen p])
      end
  end.
Proof.
  destruct image_source as [p | r]; [| reflexivity].
  unfold open_canvas, bind. rewrite open_run.
  destruct (files w !! p) as [[im |] |]; try reflexivity.
  rewrite convert_rgba_run. cbn [heap files].
  rewrite lookup_app_r by lia. rewrite Nat.sub_diag. cbn.
  rewrite length_app, <- app_assoc. cbn. do 3 f_equal. lia.
Qed.

Lemma open_overlay_run (image_overlay : option ImageArg) w :
  open_overlay image_overlay w =
  match image_overlay with
  | None => (Ok None, w, [])
  | Some (Decoded r) =>
      match heap w !! r with
      | Some im =>
          (Ok (Some (length (heap w))), mkWorld (heap w ++ [im]) (files w),
           [EvCopy r])
      | None => (Raise BadReference, w, [EvCopy r])
      end
  | Some (Path p) =>
      match files w !! p with
      | Some (Some im) =>
          (Ok (Some (S (length (heap w)))),
           mkWorld (heap w ++ [im;
                      mkImage ["R"; "G"; "B"; "A"]%string (im_size im) (to_rgba im)])
                   (files w),
           [EvOpen p; EvConvert (length (heap w))])
      | Some None => (Raise DecodeFailure, w, [EvOpen p])
      | None => (Ok None, w, [])
      end
  end.
Proof.
  destruct image_overlay as [[p | r] |]; [| | reflexivity].
  - unfold open_overlay, bind, isfile.
    destruct (files w !! p) as [[im |] |] eqn:E.
    + rewrite bool_decide_eq_true_2 by eauto.
      rewrite open_run, E. rewrite convert_rgba_run. cbn [heap files].
      rewrite lookup_app_r by lia. rewrite Nat.sub_diag. cbn.
      rewrite length_app, <- app_assoc. cbn. do 4 f_equal. lia.
    + rewrite bool_decide_eq_true_2 by eauto.
      rewrite open_run, E. reflexivity.
    + rewrite bool_decide_eq_false_2 by (intros [? ?]; discriminate).
      reflexivity.
  - unfold open_overlay, bind. rewrite copy_run.
    destruct (heap w !! r); reflexivity.
Qed.

Lemma open_canvas_loads image_source w r w1 t :
  open_canvas image_source w = (r, w1, t) -> loads w w1 t.
Proof.
  rewrite open_canvas_run. unfold loads.
  destruct image_source as [p | c].
  - destruct (files w !! p) as [[im |] |]; intros [= <- <- <-]; cbn;
      (split; [| auto]); first [by eexists | by (exists []; rewrite app_nil_r)].
  - rewrite copy_run. destruct (heap w !! c); intros [= <- <- <-]; cbn;
      (split; [| auto]); first [by eexists | by (exists []; rewrite app_nil_r)].
Qed.

Lemma open_overlay_loads image_overlay w r w1 t :
  open_overlay image_overlay w = (r, w1, t) -> loads w w1 t.
Proof.
  rewrite open_overlay_run. unfold loads.
  destruct image_overlay as [[p | c] |].
  - destruct (files w !! p) as [[im |] |]; intros [= <- <- <-]; cbn;
      (split; [| auto]); first [by eexists | by (exists []; rewrite app_nil_r)].
  - destruct (heap w !! c); intros [= <- <- <-]; cbn;
      (split; [| auto]); first [by eexists | by (exists []; rewrite app_nil_r)].
  - intros [= <- <- <-]; cbn.
    (split; [| auto]); by (exists []; rewrite app_nil_r).
Qed.

Lemma loads_draws_nothing t :
  forallb is_load t = true ->
  resized_to t = [] /\ pastes t = [] /\ printed t = [].
Proof.
  induction t as [| ev t IH]; [auto |].
  cbn [forallb]. intros [Hev Ht]%andb_prop.
  destruct (IH Ht) as (H1 & H2 & H3).
  unfold resized_to, pastes, printed in *. cbn [flat_map].
  rewrite H1, H2, H3. destruct ev; try discriminate; auto.
Qed.

Lemma draw_overlay_run (img : nat) (image_overlay : option ImageArg)
    (img_overlay : option nat) w :
  draw_overlay img image_overlay img_overlay w =
  match image_overlay, img_overlay with
  | Some _, Some ov => paste img ov (0, 0) (Some ov) w
  | Some _, None => (Ok tt, w, [EvPrint warning])
  | None, _ => (Ok tt, w, [])
  end.
Proof. destruct image_overlay, img_overlay; reflexivity. Qed.

Lemma open_canvas_fresh (image_source : ImageArg) w img w1 t :
  open_canvas image_source w = (Ok img, w1, t) ->
  (length (heap w) <= img < length (heap w1))%nat.
Proof.
  rewrite open_canvas_run. destruct image_source as [p | c].
  - destruct (files w !! p) as [[im |] |]; intros [= <- <- <-].
    cbn. rewrite length_app. cbn. lia.
  - rewrite copy_run. destruct (heap w !! c); intros [= <- <- <-].
    cbn. rewrite length_app. cbn. lia.
Qed.

(** *** A run that returns *)

(** Everything a returning call has done, step by step: the canvas
    [img] and the overlay were loaded, the region and the content size
    passed their checks, the size [(nw, nh)] was computed and accepted
    by [resize], the content was pasted onto the canvas [base] at the
    computed origin, the overlay step ran and the result was encoded. *)
Lemma run_ok (image_source : ImageArg) (x1 y1 x2 y2 : Z) (content : nat)
    (align valign : string) (padding : Z) (allow_upscale keep_alpha : bool)
    (image_overlay : option ImageArg) w b w' t :
  paste_image_auto image_source (x1, y1) (x2, y2) (Decoded content)
    align valign padding allow_upscale keep_alpha image_overlay w
  = (Ok b, w', t) ->
  exists img w1 t1 o w2 t2 cim scale nw nh base t4 final,
    open_canvas image_source w = (Ok img, w1, t1) /\
    open_overlay image_overlay w1 = (Ok o, w2, t2) /\
    x1 < x2 /\ y1 < y2 /\
    heap w2 !! content = Some cim /\
    0 < (im_size cim).1 /\ 0 < (im_size cim).2 /\
    fit (region x1 x2 padding) (region y1 y2 padding)
        (im_size cim).1 (im_size cim).2 allow_upscale
      = Ok (scale, (nw, nh)) /\
    1 <= nw <= INT_MAX /\ 1 <= nh <= INT_MAX /\
    heap w2 !! img = Some base /\
    let resized := length (heap w2) in
    let rim := mkImage (im_bands cim) (nw, nh) (lanczos cim (nw, nh)) in
    let box := (paste_x align x1 x2 padding (region x1 x2 padding) nw,
                paste_y valign y1 y2 padding (region y1 y2 padding) nh) in
    let alpha := keep_alpha && bool_decide ("A"%string ∈ im_bands rim) in
    let mid := pasted base rim box (if alpha then Some rim else None) in
    draw_overlay img image_overlay o
      (mkWorld (<[img := mid]> (heap w2 ++ [rim])) (files w2))
      = (Ok tt, w', t4) /\
    heap w' !! img = Some final /\ png_encode final = Some b /\
    t = t1 ++ t2 ++
        [EvResize content (nw, nh);
         EvPaste img resized box (if alpha then Some resized else None)] ++
        t4 ++ [EvSave img].
Proof.
  intros H. unfold paste_image_auto in H.
  apply bind_ok in H as (img & w1 & t1 & ta & Hc & H & ->).
  apply bind_ok in H as (o & w2 & t2 & tb & Ho & H & ->).
  destruct (x2 >? x1) eqn:Ex; [| discriminate].
  destruct (y2 >? y1) eqn:Ey; [| discriminate]. cbn [andb negb] in H.
  apply bind_ok in H as (cim & w3 & t3 & tc & Hd & H & ->).
  unfold deref in Hd. destruct (heap w2 !! content) as [cim' |] eqn:Ec;
    [| discriminate]. injection Hd as -> <- <-.
  destruct (im_size cim) as [cw ch] eqn:Esz.
  destruct (cw <=? 0) eqn:Ecw; [discriminate |].
  destruct (ch <=? 0) eqn:Ech; [discriminate |]. cbn [orb] in H.
  unfold fit_and_paste in H.
  apply bind_ok in H as (f & w4 & t4 & td & Hf & H & ->).
  unfold lift in Hf. injection Hf as Hf <- <-.
  destruct f as [scale [nw nh]]. cbn [snd] in H.
  apply bind_ok in H as (resized & w5 & t5 & te & Hr & H & ->).
  rewrite resize_run, Ec in Hr.
  destruct (size_ok (nw, nh)) eqn:Eok; [| discriminate].
  injection Hr as <- <- <-.
  apply bind_ok in H as (rim & w6 & t6 & tf & Hd & H & ->).
  unfold deref in Hd. cbn [heap files] in Hd.
  rewrite lookup_app_r in Hd by lia. rewrite Nat.sub_diag in Hd. cbn in Hd.
  injection Hd as <- <- <-.
  apply bind_ok in H as ([] & w7 & t7 & tg & Hp & H & ->).
  apply bind_ok in H as ([] & w8 & t8 & th & Hov & H & ->).
  rewrite save_png_run in H.
  destruct (heap w8 !! img) as [final |] eqn:Ef; [| discriminate].
  destruct (png_encode final) as [b' |] eqn:Eb; [| discriminate].
  injection H as <- <- <-.
  cbn [im_bands] in Hp.
  set (alpha := keep_alpha && bool_decide ("A"%string ∈ im_bands cim)) in *.
  set (rim := mkImage (im_bands cim) (nw, nh) (lanczos cim (nw, nh))) in *.
  set (box := (paste_x align x1 x2 padding (region x1 x2 padding) nw,
               paste_y valign y1 y2 padding (region y1 y2 padding) nh)) in *.
  pose proof (open_canvas_fresh _ _ _ _ _ Hc) as Himg.
  destruct (open_overlay_loads _ _ _ _ _ Ho) as ([l Hl] & _ & _).
  assert (Hlt : (img < length (heap w2))%nat)
    by (rewrite Hl, length_app; lia).
  destruct (lookup_lt_is_Some_2 (heap w2) img Hlt) as [base Hb].
  assert (Hsrc : (heap w2 ++ [rim]) !! length (heap w2) = Some rim).
  { rewrite lookup_app_r by lia. rewrite Nat.sub_diag. reflexivity. }
  assert (Hdst : (heap w2 ++ [rim]) !! img = Some base)
    by (rewrite lookup_app_l by lia; exact Hb).
  assert (Hp' : w7 = mkWorld (<[img := pasted base rim box
                                 (if alpha then Some rim else None)]>
                                (heap w2 ++ [rim])) (files w2) /\
                t7 = [EvPaste img (length (heap w2)) box
                        (if alpha then Some (length (heap w2)) else None)]).
  { destruct alpha; rewrite paste_run in Hp; cbn [heap files] in Hp;
      rewrite Hdst, ?Hsrc in Hp; injection Hp as <- <-; auto. }
  destruct Hp' as [-> ->].
  unfold size_ok in Eok. cbn [fst snd] in Eok.
  exists img, w1, t1, o, w2, t2, cim, scale, nw, nh, base, t8, final.
  rewrite Esz. cbn [fst snd]. cbv zeta. cbn [im_bands]. fold rim box alpha.
  repeat split; try assumption; try lia.
  all: try (rewrite <- !app_assoc; reflexivity).
Qed.
End RunFacts.
(** ** The claims about the geometry *)

Section GeometryClaims.
Context {Pixel : Type} {R : Raster Pixel}.
Local Abbreviation World := (@World Pixel).
Implicit Types (w : World) (t : list Event).
Import Binary64 FitFacts.

Lemma run_eta {A} (o : Result A * World * list Event) :
  o = (result_of o, world_of o, events_of o).
Proof. destruct o as [[r w] t]. reflexivity. Qed.

Lemma loads_lookup w w1 t (r : nat) (im : Image Pixel) :
  loads w w1 t -> heap w !! r = Some im -> heap w1 !! r = Some im.
Proof.
  intros ([l Hl] & _ & _) H. rewrite Hl.
  apply lookup_app_l_Some. exact H.
Qed.

Lemma resized_to_app t1 t2 : resized_to (t1 ++ t2) = resized_to t1 ++ resized_to t2.
Proof. apply flat_map_app. Qed.

Lemma pastes_app t1 t2 : pastes (t1 ++ t2) = pastes t1 ++ pastes t2.
Proof. apply flat_map_app. Qed.

Lemma printed_app t1 t2 : printed (t1 ++ t2) = printed t1 ++ printed t2.
Proof. apply flat_map_app. Qed.

Lemma draw_overlay_events (img : nat) (image_overlay : option ImageArg)
    (o : option nat) w w' t :
  draw_overlay img image_overlay o w = (Ok tt, w', t) ->
  resized_to t = [] /\
  ((pastes t = [] /\ w' = w) \/
   exists ov, o = Some ov /\ pastes t = [(img, ov, (0, 0), Some ov)]).
Proof.
  rewrite draw_overlay_run. destruct image_overlay as [a |].
  - destruct o as [ov |].
    + rewrite paste_run.
      destruct (heap w !! img); [| discriminate].
      destruct (heap w !! ov); [| discriminate].
      intros [= <- <-]. split; [reflexivity |]. right. eauto.
    + intros [= <- <-]. auto.
  - intros [= <- <-]. auto.
Qed.

(** The geometry of a returning call, read off its calls to [resize]
    and [paste]. *)
Lemma run_geometry (image_source : ImageArg) (x1 y1 x2 y2 : Z) (content : nat)
    (align valign : string) (padding : Z) (allow_upscale keep_alpha : bool)
    (image_overlay : option ImageArg) w b :
  let run := paste_image_auto image_source (x1, y1) (x2, y2) (Decoded content)
               align valign padding allow_upscale keep_alpha image_overlay w in
  result_of run = Ok b ->
  exists cim scale nw nh img resized mask rest,
    (forall cim0, heap w !! content = Some cim0 -> cim0 = cim) /\
    x1 < x2 /\ y1 < y2 /\
    0 < (im_size cim).1 /\ 0 < (im_size cim).2 /\
    fit (region x1 x2 padding) (region y1 y2 padding)
        (im_size cim).1 (im_size cim).2 allow_upscale
      = Ok (scale, (nw, nh)) /\
    1 <= nw <= INT_MAX /\ 1 <= nh <= INT_MAX /\
    resized_to (events_of run) = [(nw, nh)] /\
    pastes (events_of run) =
      (img, resized,
       (paste_x align x1 x2 padding (region x1 x2 padding) nw,
        paste_y valign y1 y2 padding (region y1 y2 padding) nh), mask) :: rest.
Proof.
  intros run H. pose proof (run_eta run) as E. rewrite H in E.
  unfold run in E at 1.
  destruct (run_ok _ _ _ _ _ _ _ _ _ _ _ _ _ _ _ _ E)
    as (img & w1 & t1 & o & w2 & t2 & cim & scale & nw & nh & base & t4 & final
        & Hcan & Hov & Hx & Hy & Hc' & Hcw & Hch & Hfit & Hnw & Hnh & Hb
        & Hdraw & Hfin & Henc & ->).
  pose proof (open_canvas_loads _ _ _ _ _ Hcan) as L1.
  pose proof (open_overlay_loads _ _ _ _ _ Hov) as L2.
  assert (Hcim : forall cim0, heap w !! content = Some cim0 -> cim0 = cim).
  { intros cim0 Hc.
    pose proof (loads_lookup _ _ _ _ _ L2 (loads_lookup _ _ _ _ _ L1 Hc)).
    congruence. }
  destruct L1 as (_ & _ & L1). destruct L2 as (_ & _ & L2).
  destruct (loads_draws_nothing _ L1) as (R1 & P1 & _).
  destruct (loads_draws_nothing _ L2) as (R2 & P2 & _).
  destruct (draw_overlay_events _ _ _ _ _ _ Hdraw) as (R4 & P4).
  eexists cim, scale, nw, nh, img, _, _, _.
  repeat (split; [first [assumption | lia] |]).
  rewrite !resized_to_app, !pastes_app, R1, R2, R4, P1, P2. cbn.
  split; reflexivity.
Qed.

(** C1 (contain invariant).  In every call that returns, the size the
    content was resized to is at most the inner width and the inner
    height, and it reaches one of the two, unless upscaling is off, the
    scale was clamped to 1.0 and the content, kept at its own size, is
    smaller than the inner region in both directions. *)
Theorem contain_invariant (image_source : ImageArg) (x1 y1 x2 y2 : Z)
    (content : nat) (align valign : string) (padding : Z)
    (allow_upscale keep_alpha : bool) (image_overlay : option ImageArg)
    w (cim : Image Pixel) b :
  heap w !! content = Some cim ->
  wf_size (im_size cim) ->
  let run := paste_image_auto image_source (x1, y1) (x2, y2) (Decoded content)
               align valign padding allow_upscale keep_alpha image_overlay w in
  result_of run = Ok b ->
  let inner_width := Z.max 1 ((x2 - x1) - 2 * padding) in
  let inner_height := Z.max 1 ((y2 - y1) - 2 * padding) in
  let cw := (im_size cim).1 in
  let ch := (im_size cim).2 in
  exists scale placed_width placed_height,
    fit inner_width inner_height cw ch allow_upscale
      = Ok (scale, (placed_width, placed_height)) /\
    resized_to (events_of run) = [(placed_width, placed_height)] /\
    placed_width <= inner_width /\ placed_height <= inner_height /\
    (placed_width = inner_width \/ placed_height = inner_height \/
     (allow_upscale = false /\ scale = 1%Q /\
      placed_width = cw /\ placed_height = ch /\
      cw < inner_width /\ ch < inner_height)).
Proof.
  intros Hc [Hw Hh] run H. cbv zeta.
  destruct (run_geometry image_source x1 y1 x2 y2 content align valign padding
              allow_upscale keep_alpha image_overlay w b H)
    as (cim' & scale & nw & nh & img & resized & mask & rest
        & Hcim & Hx & Hy & Hcw & Hch & Hfit & Hnw & Hnh & Hr & _).
  rewrite <- (Hcim _ Hc) in *. clear Hcim.
  unfold region in Hfit.
  exists scale, nw, nh. split; [exact Hfit |]. split; [exact Hr |].
  eapply fit_contain in Hfit as (H1 & H2 & H3); [auto | lia ..].
Qed.


(** C2 (scale and size computation).  In every call that returns, the
    two candidate ratios are the quotients of the inner width and height
    by the content width and height, each rounded once to binary64; the
    applied scale is their minimum, further limited to 1.0 when
    upscaling is off; and each placed dimension is [max(1, n)] where [n]
    is the integer nearest to the binary64 product of the content
    dimension and the scale (at most one half away, a tie going to the
    even integer), which is rounding and not truncation.  The product
    is the product: it lies within the relative error [2^-53] of the
    content dimension times the scale, and the scale is positive. *)
Theorem scale_and_size (image_source : ImageArg) (x1 y1 x2 y2 : Z)
    (content : nat) (align valign : string) (padding : Z)
    (allow_upscale keep_alpha : bool) (image_overlay : option ImageArg)
    w (cim : Image Pixel) b :
  heap w !! content = Some cim ->
  wf_size (im_size cim) ->
  let run := paste_image_auto image_source (x1, y1) (x2, y2) (Decoded content)
               align valign padding allow_upscale keep_alpha image_overlay w in
  result_of run = Ok b ->
  let inner_width := Z.max 1 ((x2 - x1) - 2 * padding) in
  let inner_height := Z.max 1 ((y2 - y1) - 2 * padding) in
  let cw := (im_size cim).1 in
  let ch := (im_size cim).2 in
  exists scale_w scale_h scale pw ph nw nh,
    Py.truediv inner_width cw = Ok scale_w /\
    Py.truediv inner_height ch = Ok scale_h /\
    (inject_Z inner_width * (1 - eps) <= scale_w * inject_Z cw
       <= inject_Z inner_width * (1 + eps))%Q /\
    (inject_Z inner_height * (1 - eps) <= scale_h * inject_Z ch
       <= inject_Z inner_height * (1 + eps))%Q /\
    (scale == if allow_upscale then Qmin scale_w scale_h
              else Qmin 1 (Qmin scale_w scale_h))%Q /\
    (allow_upscale = false -> scale <= 1)%Q /\
    (0 < scale)%Q /\
    Py.mul_int_float cw scale = Ok (Some pw) /\
    Py.mul_int_float ch scale = Ok (Some ph) /\
    (inject_Z cw * scale * (1 - eps) <= pw
       <= inject_Z cw * scale * (1 + eps))%Q /\
    (inject_Z ch * scale * (1 - eps) <= ph
       <= inject_Z ch * scale * (1 + eps))%Q /\
    Py.round (Some pw) = Ok nw /\ Py.round (Some ph) = Ok nh /\
    (pw - (1 # 2) <= inject_Z nw <= pw + (1 # 2))%Q /\
    (ph - (1 # 2) <= inject_Z nh <= ph + (1 # 2))%Q /\
    ((inject_Z nw - pw == 1 # 2 \/ pw - inject_Z nw == 1 # 2)%Q ->
       Z.even nw = true) /\
    ((inject_Z nh - ph == 1 # 2 \/ ph - inject_Z nh == 1 # 2)%Q ->
       Z.even nh = true) /\
    resized_to (events_of run) = [(Z.max 1 nw, Z.max 1 nh)].
Proof.
  intros Hc [Hw Hh] run H. cbv zeta.
  destruct (run_geometry image_source x1 y1 x2 y2 content align valign padding
              allow_upscale keep_alpha image_overlay w b H)
    as (cim' & scale & nw & nh & img & resized & mask & rest
        & Hcim & Hx & Hy & Hcw & Hch & Hfit & Hnw & Hnh & Hr & _).
  rewrite <- (Hcim _ Hc) in *. clear Hcim.
  unfold region in Hfit.
  assert (Iw : 1 <= Z.max 1 (x2 - x1 - 2 * padding)) by lia.
  assert (Ih : 1 <= Z.max 1 (y2 - y1 - 2 * padding)) by lia.
  assert (Cw : 1 <= (im_size cim).1 <= INT_MAX) by lia.
  assert (Ch : 1 <= (im_size cim).2 <= INT_MAX) by lia.
  destruct (fit_inv _ _ _ _ _ _ _ _ Hfit)
    as (sw & sh & Hsw & Hsh & Hs & Hpw & Hph).
  destruct (truediv_bounds _ _ _ Iw Cw Hsw) as [Bw _].
  destruct (truediv_bounds _ _ _ Ih Ch Hsh) as [Bh _].
  pose proof (scale_lower _ _ _ _ allow_upscale sw sh Iw Ih Cw Ch Hsw Hsh)
    as Hlo.
  rewrite <- Hs in Hlo. pose proof tiny_le_small as Ht.
  assert (Ts : (tiny <= scale)%Q) by lra.
  assert (Ps : (0 < scale)%Q) by lra.
  destruct (placed_product _ _ _ Hpw) as (pw & Hmw & ->).
  destruct (placed_product _ _ _ Hph) as (ph & Hmh & ->).
  pose proof (product_bounds _ _ _ Cw Ts Ps Hmw) as Pw.
  pose proof (product_bounds _ _ _ Ch Ts Ps Hmh) as Ph.
  exists sw, sh, scale, pw, ph,
    (round_half_even (Qnum pw) (Zpos (Qden pw))),
    (round_half_even (Qnum ph) (Zpos (Qden ph))).
  repeat (split; [first [assumption | reflexivity] |]).
  split.
  { rewrite Hs. destruct allow_upscale; cbn [negb].
    - apply min_value.
    - rewrite min_value. apply Q.min_compat; [reflexivity | apply min_value]. }
  split.
  { intros ->. rewrite Hs. cbn [negb].
    destruct (min_cases 1 (Py.min sw sh)) as [[-> _] | [-> Hlt]];
      [apply Qle_refl | apply Qlt_le_weak; exact Hlt]. }
  split; [exact Ps |].
  split; [exact Hmw |]. split; [exact Hmh |].
  split; [exact Pw |]. split; [exact Ph |].
  split; [reflexivity |]. split; [reflexivity |].
  split; [apply round_near |]. split; [apply round_near |].
  split; [apply round_tie |]. split; [apply round_tie |].
  exact Hr.
Qed.

(** C3, as amended (aspect preservation up to rounding).  In every call
    that returns, each placed dimension is within one half of the
    binary64 product of the content dimension and the applied scale,
    that is within [1/2 + 2^-53 * c * scale] of [c * scale], except that
    a dimension floored at 1 may lie above that range. *)
Theorem aspect_up_to_rounding (image_source : ImageArg) (x1 y1 x2 y2 : Z)
    (content : nat) (align valign : string) (padding : Z)
    (allow_upscale keep_alpha : bool) (image_overlay : option ImageArg)
    w (cim : Image Pixel) b :
  heap w !! content = Some cim ->
  wf_size (im_size cim) ->
  let run := paste_image_auto image_source (x1, y1) (x2, y2) (Decoded content)
               align valign padding allow_upscale keep_alpha image_overlay w in
  result_of run = Ok b ->
  let inner_width := Z.max 1 ((x2 - x1) - 2 * padding) in
  let inner_height := Z.max 1 ((y2 - y1) - 2 * padding) in
  let cw := (im_size cim).1 in
  let ch := (im_size cim).2 in
  exists scale placed_width placed_height,
    fit inner_width inner_height cw ch allow_upscale
      = Ok (scale, (placed_width, placed_height)) /\
    resized_to (events_of run) = [(placed_width, placed_height)] /\
    (inject_Z cw * scale * (1 - eps) - (1 # 2) <= inject_Z placed_width)%Q /\
    (inject_Z ch * scale * (1 - eps) - (1 # 2) <= inject_Z placed_height)%Q /\
    (placed_width = 1 \/
     (inject_Z placed_width <= inject_Z cw * scale * (1 + eps) + (1 # 2))%Q) /\
    (placed_height = 1 \/
     (inject_Z placed_height <= inject_Z ch * scale * (1 + eps) + (1 # 2))%Q).
Proof.
  intros Hc [Hw Hh] run H. cbv zeta.
  destruct (run_geometry image_source x1 y1 x2 y2 content align valign padding
              allow_upscale keep_alpha image_overlay w b H)
    as (cim' & scale & nw & nh & img & resized & mask & rest
        & Hcim & Hx & Hy & Hcw & Hch & Hfit & Hnw & Hnh & Hr & _).
  rewrite <- (Hcim _ Hc) in *. clear Hcim.
  unfold region in Hfit.
  assert (Iw : 1 <= Z.max 1 (x2 - x1 - 2 * padding)) by lia.
  assert (Ih : 1 <= Z.max 1 (y2 - y1 - 2 * padding)) by lia.
  assert (Cw : 1 <= (im_size cim).1 <= INT_MAX) by lia.
  assert (Ch : 1 <= (im_size cim).2 <= INT_MAX) by lia.
  exists scale, nw, nh. split; [exact Hfit |]. split; [exact Hr |].
  destruct (fit_inv _ _ _ _ _ _ _ _ Hfit)
    as (sw & sh & Hsw & Hsh & Hs & Hpw & Hph).
  pose proof (scale_lower _ _ _ _ allow_upscale sw sh Iw Ih Cw Ch Hsw Hsh)
    as Hlo.
  rewrite <- Hs in Hlo. pose proof tiny_le_small as Ht.
  assert (Ts : (tiny <= scale)%Q) by lra.
  assert (Ps : (0 < scale)%Q) by lra.
  destruct (placed_bounds _ _ _ Cw Ts Ps Hpw) as (vw & [Lw Uw] & Ew).
  destruct (placed_bounds _ _ _ Ch Ts Ps Hph) as (vh & [Lh Uh] & Eh).
  pose proof (round_near vw) as [Nw1 Nw2].
  pose proof (round_near vh) as [Nh1 Nh2]. cbv zeta in *.
  set (rw := round_half_even (Qnum vw) (Zpos (Qden vw))) in *.
  set (rh := round_half_even (Qnum vh) (Zpos (Qden vh))) in *.
  assert (Mw : (rw <= nw)%Z) by lia. assert (Mh : (rh <= nh)%Z) by lia.
  rewrite Zle_Qle in Mw, Mh.
  split; [lra |]. split; [lra |].
  split.
  - destruct (Z.le_gt_cases rw 1); [left; lia | right].
    replace nw with rw by lia. lra.
  - destruct (Z.le_gt_cases rh 1); [left; lia | right].
    replace nh with rh by lia. lra.
Qed.

(** C6 (upscale clamp identity).  In every call that returns with
    upscaling off and a content no larger than the inner region, the
    scale is exactly 1.0 and the content is resized to its own size. *)
Theorem upscale_clamp_identity (image_source : ImageArg) (x1 y1 x2 y2 : Z)
    (content : nat) (align valign : string) (padding : Z)
    (keep_alpha : bool) (image_overlay : option ImageArg)
    w (cim : Image Pixel) b :
  heap w !! content = Some cim ->
  wf_size (im_size cim) ->
  let run := paste_image_auto image_source (x1, y1) (x2, y2) (Decoded content)
               align valign padding false keep_alpha image_overlay w in
  result_of run = Ok b ->
  let inner_width := Z.max 1 ((x2 - x1) - 2 * padding) in
  let inner_height := Z.max 1 ((y2 - y1) - 2 * padding) in
  let cw := (im_size cim).1 in
  let ch := (im_size cim).2 in
  inner_width >= cw -> inner_height >= ch ->
  fit inner_width inner_height cw ch false = Ok (1%Q, (cw, ch)) /\
  resized_to (events_of run) = [(cw, ch)].
Proof.
  intros Hc [Hw Hh] run H. cbv zeta. intros Gw Gh.
  destruct (run_geometry image_source x1 y1 x2 y2 content align valign padding
              false keep_alpha image_overlay w b H)
    as (cim' & scale & nw & nh & img & resized & mask & rest
        & Hcim & Hx & Hy & Hcw & Hch & Hfit & Hnw & Hnh & Hr & _).
  rewrite <- (Hcim _ Hc) in *. clear Hcim.
  unfold region in Hfit.
  assert (Iw : 1 <= Z.max 1 (x2 - x1 - 2 * padding)) by lia.
  assert (Ih : 1 <= Z.max 1 (y2 - y1 - 2 * padding)) by lia.
  assert (Cw : 1 <= (im_size cim).1 <= INT_MAX) by lia.
  assert (Ch : 1 <= (im_size cim).2 <= INT_MAX) by lia.
  assert (Lw : (im_size cim).1 <= Z.max 1 (x2 - x1 - 2 * padding)) by lia.
  assert (Lh : (im_size cim).2 <= Z.max 1 (y2 - y1 - 2 * padding)) by lia.
  destruct (fit_clamped _ _ _ _ _ _ _ Cw Ch Lw Lh Hfit) as (-> & -> & ->).
  auto.
Qed.

(** C4 (placement arithmetic).  In every call that returns, the content
    is pasted at [(px, py)] with [px] equal to [x1 + padding] (left),
    [x1 + padding + floor((inner_width - placed_width) / 2)] (center) or
    [x2 - padding - placed_width] (right), and [py] alike from [y1],
    [y2], the inner and the placed height; the centring quotient is the
    floor, also of a negative leftover; the paste receives these
    coordinates as they are; with no padding, left/top puts the origin
    on [top_left] and right/bottom puts the far corner on
    [bottom_right]. *)
Theorem placement_arithmetic (image_source : ImageArg) (x1 y1 x2 y2 : Z)
    (content : nat) (align valign : string) (padding : Z)
    (allow_upscale keep_alpha : bool) (image_overlay : option ImageArg)
    w b :
  let run := paste_image_auto image_source (x1, y1) (x2, y2) (Decoded content)
               align valign padding allow_upscale keep_alpha image_overlay w in
  result_of run = Ok b ->
  let inner_width := Z.max 1 ((x2 - x1) - 2 * padding) in
  let inner_height := Z.max 1 ((y2 - y1) - 2 * padding) in
  exists placed_width placed_height img resized mask rest px py,
    resized_to (events_of run) = [(placed_width, placed_height)] /\
    pastes (events_of run) = (img, resized, (px, py), mask) :: rest /\
    (align = "left"%string -> px = x1 + padding) /\
    (align = "center"%string ->
       px = x1 + padding + (inner_width - placed_width) / 2 /\
       2 * (px - (x1 + padding)) <= inner_width - placed_width
         <= 2 * (px - (x1 + padding)) + 1) /\
    (align = "right"%string -> px = x2 - padding - placed_width) /\
    (valign = "top"%string -> py = y1 + padding) /\
    (valign = "middle"%string ->
       py = y1 + padding + (inner_height - placed_height) / 2 /\
       2 * (py - (y1 + padding)) <= inner_height - placed_height
         <= 2 * (py - (y1 + padding)) + 1) /\
    (valign = "bottom"%string -> py = y2 - padding - placed_height) /\
    (padding = 0 -> align = "left"%string -> valign = "top"%string ->
       (px, py) = (x1, y1)) /\
    (padding = 0 -> align = "right"%string -> valign = "bottom"%string ->
       (px + placed_width, py + placed_height) = (x2, y2)).
Proof.
  intros run H. cbv zeta.
  destruct (run_geometry image_source x1 y1 x2 y2 content align valign padding
              allow_upscale keep_alpha image_overlay w b H)
    as (cim' & scale & nw & nh & img & resized & mask & rest
        & _ & _ & _ & _ & _ & _ & _ & _ & Hr & Hp).
  exists nw, nh, img, resized, mask, rest.
  eexists _, _. split; [exact Hr |]. split; [exact Hp |].
  unfold paste_x, paste_y, Py.floordiv, region.
  set (iw := Z.max 1 (x2 - x1 - 2 * padding)).
  set (ih := Z.max 1 (y2 - y1 - 2 * padding)).
  split; [intros ->; reflexivity |].
  split.
  { intros ->. change (String.eqb "center" "left") with false.
    change (String.eqb "center" "center") with true. cbv iota.
    pose proof (Z.div_mod (iw - nw) 2 ltac:(lia)).
    pose proof (Z.mod_pos_bound (iw - nw) 2 ltac:(lia)). lia. }
  split; [intros ->; reflexivity |].
  split; [intros ->; reflexivity |].
  split.
  { intros ->. change (String.eqb "middle" "top") with false.
    change (String.eqb "middle" "middle") with true. cbv iota.
    pose proof (Z.div_mod (ih - nh) 2 ltac:(lia)).
    pose proof (Z.mod_pos_bound (ih - nh) 2 ltac:(lia)). lia. }
  split; [intros ->; reflexivity |].
  split; intros -> -> ->.
  - change (String.eqb "left" "left") with true.
    change (String.eqb "top" "top") with true. cbv iota. f_equal; lia.
  - change (String.eqb "right" "left") with false.
    change (String.eqb "right" "center") with false.
    change (String.eqb "bottom" "top") with false.
    change (String.eqb "bottom" "middle") with false. cbv iota.
    f_equal; lia.
Qed.
End GeometryClaims.

(** *** The geometry claims on concrete calls *)

Lemma contain_invariant_witness :
  exists scale placed_width placed_height,
    fit 6 6 4 2 true = Ok (scale, (placed_width, placed_height)) /\
    resized_to (events_of (small_run true)) = [(placed_width, placed_height)] /\
    placed_width <= 6 /\ placed_height <= 6 /\
    (placed_width = 6 \/ placed_height = 6 \/
     (true = false /\ scale = 1%Q /\ placed_width = 4 /\ placed_height = 2 /\
      4 < 6 /\ 2 < 6)).
Proof.
  refine (contain_invariant (Decoded 0%nat) 1 1 7 7 1%nat "center" "middle" 0
            true true None small_world small_content _ eq_refl _ _).
  - unfold wf_size, INT_MAX; cbn; lia.
  - vm_compute. reflexivity.
Defined.


Lemma scale_and_size_witness :
  exists scale_w scale_h scale pw ph nw nh,
    Py.truediv 6 4 = Ok scale_w /\
    Py.truediv 6 2 = Ok scale_h /\
    (inject_Z 6 * (1 - Binary64.eps) <= scale_w * inject_Z 4
       <= inject_Z 6 * (1 + Binary64.eps))%Q /\
    (inject_Z 6 * (1 - Binary64.eps) <= scale_h * inject_Z 2
       <= inject_Z 6 * (1 + Binary64.eps))%Q /\
    (scale == Qmin scale_w scale_h)%Q /\
    (true = false -> scale <= 1)%Q /\
    (0 < scale)%Q /\
    Py.mul_int_float 4 scale = Ok (Some pw) /\
    Py.mul_int_float 2 scale = Ok (Some ph) /\
    (inject_Z 4 * scale * (1 - Binary64.eps) <= pw
       <= inject_Z 4 * scale * (1 + Binary64.eps))%Q /\
    (inject_Z 2 * scale * (1 - Binary64.eps) <= ph
       <= inject_Z 2 * scale * (1 + Binary64.eps))%Q /\
    Py.round (Some pw) = Ok nw /\ Py.round (Some ph) = Ok nh /\
    (pw - (1 # 2) <= inject_Z nw <= pw + (1 # 2))%Q /\
    (ph - (1 # 2) <= inject_Z nh <= ph + (1 # 2))%Q /\
    ((inject_Z nw - pw == 1 # 2 \/ pw - inject_Z nw == 1 # 2)%Q ->
       Z.even nw = true) /\
    ((inject_Z nh - ph == 1 # 2 \/ ph - inject_Z nh == 1 # 2)%Q ->
       Z.even nh = true) /\
    resized_to (events_of (small_run true)) = [(Z.max 1 nw, Z.max 1 nh)].
Proof.
  refine (scale_and_size (Decoded 0%nat) 1 1 7 7 1%nat "center" "middle" 0
            true true None small_world small_content _ eq_refl _ _).
  - unfold wf_size, INT_MAX; cbn; lia.
  - vm_compute. reflexivity.
Defined.

(** Rounding, not truncation: a 2 by 3 content in a region 1 wide has the
    scale 0.5 and the product 1.5, which is placed as 2. *)
Example rounds_to_nearest :
  exists scale, fit 1 100 2 3 false = Ok (scale, (1, 2)) /\ (scale == 1 # 2)%Q.
Proof. eexists. split; [vm_compute; reflexivity | reflexivity]. Qed.

(** The products are binary64 values: [147 * (1/98)] is just below 1.5
    in binary64 and is placed as 1, although [147/98] is 1.5. *)
Example product_is_binary64 :
  exists scale, fit 1 1000 98 147 false = Ok (scale, (1, 1)).
Proof. eexists. vm_compute. reflexivity. Qed.

(** C3 is false as stated: the 3 by 2 content is resized to 2 by 1, the
    ratios [2/3] and [1/2] differ, and [1/2] is not the applied scale. *)
Lemma aspect_not_preserved :
  exists b scale,
    result_of thin_run = Ok b /\
    fit 2 2 3 2 false = Ok (scale, (2, 1)) /\
    resized_to (events_of thin_run) = [(2, 1)] /\
    ~ (2 # 3 == 1 # 2)%Q /\ ~ (1 # 2 == scale)%Q.
Proof.
  eexists _, _. split; [vm_compute; reflexivity |].
  split; [vm_compute; reflexivity |].
  split; [vm_compute; reflexivity |].
  split; intros H; vm_compute in H; discriminate.
Qed.

Lemma aspect_up_to_rounding_witness :
  exists scale placed_width placed_height,
    fit 2 2 3 2 false = Ok (scale, (placed_width, placed_height)) /\
    resized_to (events_of thin_run) = [(placed_width, placed_height)] /\
    (inject_Z 3 * scale * (1 - Binary64.eps) - (1 # 2) <= inject_Z placed_width)%Q /\
    (inject_Z 2 * scale * (1 - Binary64.eps) - (1 # 2) <= inject_Z placed_height)%Q /\
    (placed_width = 1 \/
     (inject_Z placed_width <= inject_Z 3 * scale * (1 + Binary64.eps) + (1 # 2))%Q) /\
    (placed_height = 1 \/
     (inject_Z placed_height <= inject_Z 2 * scale * (1 + Binary64.eps) + (1 # 2))%Q).
Proof.
  refine (aspect_up_to_rounding (Decoded 0%nat) 0 0 2 2 1%nat "center" "middle" 0
            false true None thin_world thin_content _ eq_refl _ _).
  - unfold wf_size, INT_MAX; cbn; lia.
  - vm_compute. reflexivity.
Defined.

Lemma placement_arithmetic_witness :
  exists placed_width placed_height img resized mask rest px py,
    resized_to (events_of (small_run false)) = [(placed_width, placed_height)] /\
    pastes (events_of (small_run false)) = (img, resized, (px, py), mask) :: rest /\
    ("center" = "left" -> px = 1 + 0)%string /\
    ("center"%string = "center"%string ->
       px = 1 + 0 + (6 - placed_width) / 2 /\
       2 * (px - (1 + 0)) <= 6 - placed_width <= 2 * (px - (1 + 0)) + 1) /\
    ("center"%string = "right"%string -> px = 7 - 0 - placed_width) /\
    ("middle"%string = "top"%string -> py = 1 + 0) /\
    ("middle"%string = "middle"%string ->
       py = 1 + 0 + (6 - placed_height) / 2 /\
       2 * (py - (1 + 0)) <= 6 - placed_height <= 2 * (py - (1 + 0)) + 1) /\
    ("middle"%string = "bottom"%string -> py = 7 - 0 - placed_height) /\
    (0 = 0 -> "center"%string = "left"%string -> "middle"%string = "top"%string ->
       (px, py) = (1, 1)) /\
    (0 = 0 -> "center"%string = "right"%string -> "middle"%string = "bottom"%string ->
       (px + placed_width, py + placed_height) = (7, 7)).
Proof.
  refine (placement_arithmetic (Decoded 0%nat) 1 1 7 7 1%nat "center" "middle" 0
            false true None small_world _ _).
  vm_compute. reflexivity.
Defined.

Lemma upscale_clamp_identity_witness :
  fit 6 6 4 2 false = Ok (1%Q, (4, 2)) /\
  resized_to (events_of (small_run false)) = [(4, 2)].
Proof.
  refine (upscale_clamp_identity (Decoded 0%nat) 1 1 7 7 1%nat "center" "middle" 0
            true None small_world small_content _ eq_refl _ _ _ _).
  - unfold wf_size, INT_MAX; cbn; lia.
  - vm_compute. reflexivity.
  - cbn. lia.
  - cbn. lia.
Defined.

(** ** The claims about errors and effects *)

Section EffectClaims.
Context {Pixel : Type} {R : Raster Pixel}.
Local Abbreviation World := (@World Pixel).
Local Abbreviation M := (@M Pixel).
Local Abbreviation raises_only := (@raises_only Pixel).
Local Abbreviation frames := (@frames Pixel).
Local Abbreviation framed := (@framed Pixel).
Implicit Types (w : World) (t : list Event).
Import FitFacts.


(** *** Which errors a step can raise *)

Lemma raises_only_bind {A B} (P : error -> Prop) (m : M A) (k : A -> M B) :
  raises_only P m -> (forall a, raises_only P (k a)) ->
  raises_only P (bind m k).
Proof.
  intros Hm Hk w e w' t H.
  apply bind_raise in H as [H | (a & w1 & t1 & t2 & _ & H & _)].
  - exact (Hm _ _ _ _ H).
  - exact (Hk a _ _ _ _ H).
Qed.

Lemma fit_raises (rw rh cw ch : Z) (up : bool) (e : error) :
  fit rw rh cw ch up = Raise e -> not_validation e.
Proof.
  unfold fit, placed, Py.truediv, Py.mul_int_float, Py.float_of_int, Py.round.
  intros H.
  repeat match type of H with
         | context [if ?c then _ else _] => destruct c
         | context [match ?x with Some _ => _ | None => _ end] => destruct x
         | context [match ?x with Ok _ => _ | Raise _ => _ end] => destruct x
         | _ => progress cbn in H
         end; try discriminate; injection H as <-; reflexivity.
Qed.

Lemma copy_raises (r : nat) : raises_only not_validation (copy r).
Proof.
  intros w e w' t. rewrite copy_run. destruct (heap w !! r); intros [= <- _ _].
  reflexivity.
Qed.

Lemma open_canvas_raises (image_source : ImageArg) :
  raises_only not_validation (open_canvas image_source).
Proof.
  intros w e w' t. rewrite open_canvas_run. destruct image_source as [p | r].
  - destruct (files w !! p) as [[im |] |]; intros [= <- _ _]; reflexivity.
  - apply copy_raises.
Qed.

Lemma open_overlay_raises (image_overlay : option ImageArg) :
  raises_only not_validation (open_overlay image_overlay).
Proof.
  intros w e w' t. rewrite open_overlay_run.
  destruct image_overlay as [[p | r] |].
  - destruct (files w !! p) as [[im |] |]; intros [= <- _ _]; reflexivity.
  - destruct (heap w !! r); intros [= <- _ _]; reflexivity.
  - discriminate.
Qed.

Lemma paste_raises (dst src : nat) (box : Z * Z) (mask : option nat) :
  raises_only not_validation (paste dst src box mask).
Proof.
  intros w e w' t. rewrite paste_run.
  destruct (heap w !! dst); [| intros [= <- _ _]; reflexivity].
  destruct (heap w !! src); [| intros [= <- _ _]; reflexivity].
  destruct mask as [r |]; [| discriminate].
  destruct (heap w !! r); [discriminate | intros [= <- _ _]; reflexivity].
Qed.

Lemma fit_and_paste_raises (img : nat) (o : option nat) (content : nat)
    (cw ch x1 y1 x2 y2 : Z) (align valign : string) (padding : Z)
    (allow_upscale keep_alpha : bool) (image_overlay : option ImageArg) :
  raises_only not_validation
    (fit_and_paste img o content cw ch x1 y1 x2 y2 align valign padding
       allow_upscale keep_alpha image_overlay).
Proof.
  unfold fit_and_paste.
  apply raises_only_bind.
  { intros w e w' t [= H _ _]. exact (fit_raises _ _ _ _ _ _ H). }
  intros [scale [nw nh]]. cbn [snd].
  apply raises_only_bind.
  { intros w e w' t. rewrite resize_run.
    destruct (heap w !! content); [| intros [= <- _ _]; reflexivity].
    destruct (size_ok _); [discriminate | intros [= <- _ _]; reflexivity]. }
  intros resized. apply raises_only_bind.
  { intros w e w' t. unfold deref.
    destruct (heap w !! resized); [discriminate | intros [= <- _ _]; reflexivity]. }
  intros rim. apply raises_only_bind.
  { destruct (_ && _); apply paste_raises. }
  intros _. apply raises_only_bind.
  { intros w e w' t. rewrite draw_overlay_run.
    destruct image_overlay; [| discriminate].
    destruct o; [apply paste_raises | discriminate]. }
  intros _ w e w' t. rewrite save_png_run.
  destruct (heap w !! img); [| intros [= <- _ _]; reflexivity].
  destruct (png_encode _); [discriminate | intros [= <- _ _]; reflexivity].
Qed.

(** *** The routine, by the outcome of its first steps *)

Lemma run_decoded (image_source : ImageArg) (x1 y1 x2 y2 : Z) (content : nat)
    (align valign : string) (padding : Z) (allow_upscale keep_alpha : bool)
    (image_overlay : option ImageArg) w :
  paste_image_auto image_source (x1, y1) (x2, y2) (Decoded content)
    align valign padding allow_upscale keep_alpha image_overlay w =
  match open_canvas image_source w with
  | (Raise e, w1, t1) => (Raise e, w1, t1)
  | (Ok img, w1, t1) =>
      match open_overlay image_overlay w1 with
      | (Raise e, w2, t2) => (Raise e, w2, t1 ++ t2)
      | (Ok o, w2, t2) =>
          if negb ((x2 >? x1) && (y2 >? y1))
          then (Raise InvalidGeometry, w2, t1 ++ t2)
          else
            match heap w2 !! content with
            | None => (Raise BadReference, w2, t1 ++ t2)
            | Some cim =>
                if ((im_size cim).1 <=? 0) || ((im_size cim).2 <=? 0)
                then (Raise InvalidContentSize, w2, t1 ++ t2)
                else
                  let '(r, w', t') :=
                    fit_and_paste img o content (im_size cim).1 (im_size cim).2
                      x1 y1 x2 y2 align valign padding allow_upscale keep_alpha
                      image_overlay w2 in
                  (r, w', t1 ++ t2 ++ t')
            end
      end
  end.
Proof.
  unfold paste_image_auto, bind.
  destruct (open_canvas image_source w) as [[[img | e] w1] t1]; [| reflexivity].
  destruct (open_overlay image_overlay w1) as [[[o | e] w2] t2]; [| reflexivity].
  destruct (negb _); [unfold raise; rewrite app_nil_r; reflexivity |].
  unfold deref. destruct (heap w2 !! content) as [cim |];
    [| rewrite app_nil_r; reflexivity].
  destruct (im_size cim) as [cw ch]. cbn [fst snd].
  destruct (_ || _); [unfold raise; rewrite !app_nil_r; reflexivity |].
  destruct (fit_and_paste _ _ _ _ _ _ _ _ _ _ _ _ _ _ _ w2) as [[r w'] t'].
  reflexivity.
Qed.

Lemma run_progress (image_source : ImageArg) (x1 y1 x2 y2 : Z) (content : nat)
    (align valign : string) (padding : Z) (allow_upscale keep_alpha : bool)
    (image_overlay : option ImageArg) w :
  progress image_source x1 y1 x2 y2 content image_overlay w
    (paste_image_auto image_source (x1, y1) (x2, y2) (Decoded content)
       align valign padding allow_upscale keep_alpha image_overlay w).
Proof.
  rewrite run_decoded.
  destruct (open_canvas image_source w) as [[[img | e] w1] t1] eqn:Hc.
  2: { eapply canvas_fails; eauto. exact (open_canvas_raises _ _ _ _ _ Hc). }
  destruct (open_overlay image_overlay w1) as [[[o | e] w2] t2] eqn:Ho.
  2: { eapply overlay_fails; eauto. exact (open_overlay_raises _ _ _ _ _ Ho). }
  destruct (x2 >? x1) eqn:Ex; cbn [andb negb].
  2: { eapply region_fails; eauto. lia. }
  destruct (y2 >? y1) eqn:Ey; cbn [andb negb].
  2: { eapply region_fails; eauto. lia. }
  destruct (heap w2 !! content) as [cim |] eqn:Hd.
  2: { eapply content_missing; eauto; lia. }
  destruct ((im_size cim).1 <=? 0) eqn:Ew; cbn [orb].
  { eapply size_fails; eauto; lia. }
  destruct ((im_size cim).2 <=? 0) eqn:Eh; cbn [orb].
  { eapply size_fails; eauto; lia. }
  destruct (fit_and_paste _ _ _ _ _ _ _ _ _ _ _ _ _ _ _ w2) as [[r w'] t'] eqn:Hf.
  eapply checks_pass; eauto; try lia.
  unfold result_of. cbn [fst]. intros e ->. exact (fit_and_paste_raises _ _ _ _ _ _ _ _ _ _ _ _ _ _ _ _ _ _ _ Hf).
Qed.

Lemma loads_app w w1 w2 t1 t2 :
  loads w w1 t1 -> loads w1 w2 t2 -> loads w w2 (t1 ++ t2).
Proof.
  intros ([l1 H1] & F1 & L1) ([l2 H2] & F2 & L2). repeat split.
  - exists (l1 ++ l2). rewrite H2, H1, app_assoc. reflexivity.
  - congruence.
  - rewrite forallb_app, L1, L2. reflexivity.
Qed.

(** C7 (validation order and error surface).  A content that is not a
    decoded image fails with the type mismatch at once: nothing was
    opened, copied or changed.  The geometry error is raised exactly when
    the canvas and the overlay were loaded and [x2 <= x1] or [y2 <= y1];
    the content-size error exactly when, after that, the region is valid
    and the content width or height is not positive.  A call that fails
    with one of these three, the only validation errors there are, has
    only loaded images: nothing was resized, pasted or printed, and no
    object that existed before was changed. *)
Theorem validation_order (image_source : ImageArg) (x1 y1 x2 y2 : Z)
    (content_image : ImageArg) (align valign : string) (padding : Z)
    (allow_upscale keep_alpha : bool) (image_overlay : option ImageArg) w :
  let run := paste_image_auto image_source (x1, y1) (x2, y2) content_image
               align valign padding allow_upscale keep_alpha image_overlay w in
  let loaded (c : nat) (w2 : World) :=
    content_image = Decoded c /\
    exists img w1 t1 o t2,
      open_canvas image_source w = (Ok img, w1, t1) /\
      open_overlay image_overlay w1 = (Ok o, w2, t2) in
  ((exists p, content_image = Path p) <-> result_of run = Raise TypeMismatch) /\
  (result_of run = Raise TypeMismatch -> run = (Raise TypeMismatch, w, [])) /\
  ((exists c w2, loaded c w2 /\ (x2 <= x1 \/ y2 <= y1))
     <-> result_of run = Raise InvalidGeometry) /\
  ((exists c w2 cim, loaded c w2 /\ x1 < x2 /\ y1 < y2 /\
                     heap w2 !! c = Some cim /\
                     ((im_size cim).1 <= 0 \/ (im_size cim).2 <= 0))
     <-> result_of run = Raise InvalidContentSize) /\
  (forall e, result_of run = Raise e -> is_validation_error e = true ->
     (e = TypeMismatch \/ e = InvalidGeometry \/ e = InvalidContentSize) /\
     loads w (world_of run) (events_of run) /\
     resized_to (events_of run) = [] /\ pastes (events_of run) = [] /\
     printed (events_of run) = [] /\
     forall (r : nat) (im : Image Pixel),
       heap w !! r = Some im -> heap (world_of run) !! r = Some im).
Proof.
  intros run loaded.
  assert (Hfin : forall e w' t, run = (Raise e, w', t) -> loads w w' t ->
            is_validation_error e = true ->
            (e = TypeMismatch \/ e = InvalidGeometry \/ e = InvalidContentSize) /\
            loads w (world_of run) (events_of run) /\
            resized_to (events_of run) = [] /\ pastes (events_of run) = [] /\
            printed (events_of run) = [] /\
            forall (r : nat) (im : Image Pixel),
              heap w !! r = Some im -> heap (world_of run) !! r = Some im).
  { intros e w' t -> L He. cbn.
    destruct (loads_draws_nothing t (proj2 (proj2 L))) as (? & ? & ?).
    repeat split; try assumption; try apply L.
    - destruct e; try discriminate; auto.
    - intros r im. apply (loads_lookup _ _ _ _ _ L). }
  destruct content_image as [p | c].
  - (* not a decoded image *)
    subst run loaded. cbn.
    split; [split; [reflexivity | eauto] |].
    split; [reflexivity |].
    split; [split; [intros (c & w2 & [[=] _] & _) | discriminate] |].
    split; [split; [intros (c & w2 & cim & [[=] _] & _) | discriminate] |].
    intros e [= <-] _. repeat split; auto. exists []. symmetry; apply app_nil_r.
  - pose proof (run_progress image_source x1 y1 x2 y2 c align valign padding
                  allow_upscale keep_alpha image_overlay w) as P.
    fold run in P.
    assert (Hnv : forall e, not_validation e ->
              e <> TypeMismatch /\ e <> InvalidGeometry /\ e <> InvalidContentSize)
      by (intros e He; repeat split; intros ->; discriminate).
    assert (Hload : forall c' w2', loaded c' w2' -> forall img w1 t1 o w2 t2,
              open_canvas image_source w = (Ok img, w1, t1) ->
              open_overlay image_overlay w1 = (Ok o, w2, t2) ->
              c' = c /\ w2' = w2).
    { intros c' w2' [[= ->] (? & ? & ? & ? & ? & H1 & H2)] img w1 t1 o w2 t2 H3 H4.
      rewrite H3 in H1. injection H1 as -> -> ->.
      rewrite H4 in H2. injection H2 as -> -> ->. auto. }
    assert (Hnoload1 : forall e w1 t1, open_canvas image_source w = (Raise e, w1, t1) ->
              forall c' w2', ~ loaded c' w2').
    { intros e w1 t1 H c' w2' [_ (? & ? & ? & ? & ? & H1 & _)]. congruence. }
    assert (Hnoload2 : forall img w1 t1 e w2 t2,
              open_canvas image_source w = (Ok img, w1, t1) ->
              open_overlay image_overlay w1 = (Raise e, w2, t2) ->
              forall c' w2', ~ loaded c' w2').
    { intros img w1 t1 e w2 t2 H3 H4 c' w2' [_ (? & ? & ? & ? & ? & H1 & H2)].
      rewrite H3 in H1. injection H1 as -> -> ->. congruence. }
    destruct P as [e w1 t1 Hc He Hrun
                  | img w1 t1 e w2 t2 Hc Ho He Hrun
                  | img w1 t1 o w2 t2 Hc Ho Hbad Hrun
                  | img w1 t1 o w2 t2 Hc Ho Hx Hy Hd Hrun
                  | img w1 t1 o w2 t2 cim Hc Ho Hx Hy Hd Hbad Hrun
                  | img w1 t1 o w2 t2 cim Hc Ho Hx Hy Hd Hcw Hch Hrun].
    + destruct (Hnv e He) as (N1 & N2 & N3). rewrite Hrun. cbn.
      split; [split; [intros [? [=]] | congruence] |].
      split; [congruence |].
      split; [split; [intros (c' & w2' & L & _); destruct (Hnoload1 _ _ _ Hc _ _ L)
                     | congruence] |].
      split; [split; [intros (c' & w2' & ? & L & _); destruct (Hnoload1 _ _ _ Hc _ _ L)
                     | congruence] |].
      intros e' [= <-] Hv. unfold not_validation in He. congruence.
    + destruct (Hnv e He) as (N1 & N2 & N3). rewrite Hrun. cbn.
      split; [split; [intros [? [=]] | congruence] |].
      split; [congruence |].
      split; [split; [intros (c' & w2' & L & _);
                      destruct (Hnoload2 _ _ _ _ _ _ Hc Ho _ _ L)
                     | congruence] |].
      split; [split; [intros (c' & w2' & ? & L & _);
                      destruct (Hnoload2 _ _ _ _ _ _ Hc Ho _ _ L)
                     | congruence] |].
      intros e' [= <-] Hv. unfold not_validation in He. congruence.
    + pose proof (loads_app _ _ _ _ _ (open_canvas_loads _ _ _ _ _ Hc)
                    (open_overlay_loads _ _ _ _ _ Ho)) as L.
      split; [rewrite Hrun; cbn; split; [intros [? [=]] | discriminate] |].
      split; [rewrite Hrun; cbn; discriminate |].
      split.
      { rewrite Hrun; cbn. split; [reflexivity | intros _].
        exists c, w2. split; [| exact Hbad]. split; [reflexivity | eauto 10]. }
      split.
      { rewrite Hrun; cbn. split; [| discriminate].
        intros (c' & w2' & cim & L' & ? & ? & _). lia. }
      intros e He. apply (Hfin e w2 (t1 ++ t2)); [| exact L].
      rewrite Hrun in He |- *. cbn in He. congruence.
    + split; [rewrite Hrun; cbn; split; [intros [? [=]] | discriminate] |].
      split; [rewrite Hrun; cbn; discriminate |].
      split.
      { rewrite Hrun; cbn. split; [| discriminate].
        intros (c' & w2' & L' & ?). lia. }
      split.
      { rewrite Hrun; cbn. split; [| discriminate].
        intros (c' & w2' & cim & L' & _ & _ & Hd' & _).
        destruct (Hload _ _ L' _ _ _ _ _ _ Hc Ho) as [-> ->]. congruence. }
      rewrite Hrun; cbn. intros e [= <-]. discriminate.
    + pose proof (loads_app _ _ _ _ _ (open_canvas_loads _ _ _ _ _ Hc)
                    (open_overlay_loads _ _ _ _ _ Ho)) as L.
      split; [rewrite Hrun; cbn; split; [intros [? [=]] | discriminate] |].
      split; [rewrite Hrun; cbn; discriminate |].
      split.
      { rewrite Hrun; cbn. split; [| discriminate].
        intros (c' & w2' & L' & ?). lia. }
      split.
      { rewrite Hrun; cbn. split; [reflexivity | intros _].
        exists c, w2, cim. repeat split; try assumption. eauto 10. }
      intros e He. apply (Hfin e w2 (t1 ++ t2)); [| exact L].
      rewrite Hrun in He |- *. cbn in He. congruence.
    + assert (Hno : forall e, is_validation_error e = true ->
                result_of run <> Raise e).
      { intros e Hv He. specialize (Hrun e He). unfold not_validation in Hrun.
        congruence. }
      split; [split; [intros [? [=]]
                     | intros He; destruct (Hno TypeMismatch eq_refl He)] |].
      split; [intros He; destruct (Hno TypeMismatch eq_refl He) |].
      split.
      { split; [| intros He; destruct (Hno InvalidGeometry eq_refl He)].
        intros (c' & w2' & L' & ?). lia. }
      split.
      { split; [| intros He; destruct (Hno InvalidContentSize eq_refl He)].
        intros (c' & w2' & cim' & L' & _ & _ & Hd' & Hbad).
        destruct (Hload _ _ L' _ _ _ _ _ _ Hc Ho) as [-> ->].
        rewrite Hd in Hd'. injection Hd' as <-. lia. }
      intros e He Hv. destruct (Hno e Hv He).
Qed.


(** *** Which objects a step can change *)

Lemma framed_fail (n : nat) {A} (Q : A -> Prop) w (e : error) t :
  pastes t = [] -> framed n Q w (Raise e, w, t).
Proof.
  intros Ht. unfold framed. cbn [fst snd heap files]. rewrite Ht.
  repeat split; auto; [intros ? ? ? ? [] | discriminate].
Qed.

Lemma framed_same (n : nat) {A} (Q : A -> Prop) w (a : A) t :
  pastes t = [] -> Q a -> framed n Q w (Ok a, w, t).
Proof.
  intros Ht HQ. unfold framed. cbn [fst snd heap files]. rewrite Ht.
  repeat split; auto; [intros ? ? ? ? [] | intros ? [= <-]; exact HQ].
Qed.

Lemma framed_alloc (n : nat) {A} (Q : A -> Prop) w (a : A)
    (l : list (Image Pixel)) t :
  (n <= length (heap w))%nat -> pastes t = [] -> Q a ->
  framed n Q w (Ok a, mkWorld (heap w ++ l) (files w), t).
Proof.
  intros Hn Ht HQ. unfold framed. cbn [fst snd heap files]. rewrite Ht, length_app.
  split; [lia |]. split; [intros j Hj; apply lookup_app_l; lia |].
  split; [reflexivity |]. split; [intros ? ? ? ? [] |].
  intros ? [= <-]. exact HQ.
Qed.

Lemma frames_bind (n : nat) {A B} (Q : A -> Prop) (Q' : B -> Prop)
    (m : M A) (k : A -> M B) :
  frames n Q m -> (forall a, Q a -> frames n Q' (k a)) ->
  frames n Q' (bind m k).
Proof.
  intros Hm Hk w Hn. specialize (Hm w Hn). unfold bind, framed in *.
  destruct (m w) as [[[a | e] w1] t1]; cbn [fst snd] in *.
  - destruct Hm as (L1 & O1 & F1 & P1 & Q1).
    specialize (Hk a (Q1 a eq_refl) w1 ltac:(lia)). unfold framed in Hk.
    destruct (k a w1) as [[r w2] t2]; cbn [fst snd] in *.
    destruct Hk as (L2 & O2 & F2 & P2 & Q2).
    split; [lia |].
    split; [intros j Hj; rewrite O2, O1 by lia; reflexivity |].
    split; [congruence |].
    split; [| exact Q2].
    intros d s b0 k0. rewrite pastes_app, in_app_iff. intros [H | H]; eauto.
  - destruct Hm as (L1 & O1 & F1 & P1 & _).
    repeat split; try assumption. discriminate.
Qed.

Lemma frames_copy (n r : nat) : frames n (fun r' => (n <= r')%nat) (copy r).
Proof.
  intros w Hn. rewrite copy_run. destruct (heap w !! r) as [im |].
  - apply framed_alloc; [exact Hn | reflexivity | lia].
  - apply framed_fail. reflexivity.
Qed.

Lemma frames_open_canvas (n : nat) (image_source : ImageArg) :
  frames n (fun r' => (n <= r')%nat) (open_canvas image_source).
Proof.
  destruct image_source as [p | r]; [| apply frames_copy].
  intros w Hn. rewrite open_canvas_run.
  destruct (files w !! p) as [[im |] |].
  - apply framed_alloc; [exact Hn | reflexivity | lia].
  - apply framed_fail. reflexivity.
  - apply framed_fail. reflexivity.
Qed.

Lemma frames_open_overlay (n : nat) (image_overlay : option ImageArg) :
  frames n (fun o => forall ov, o = Some ov -> (n <= ov)%nat)
    (open_overlay image_overlay).
Proof.
  intros w Hn. rewrite open_overlay_run.
  destruct image_overlay as [[p | r] |].
  - destruct (files w !! p) as [[im |] |].
    + apply framed_alloc; [exact Hn | reflexivity |]. intros ov [= <-]. lia.
    + apply framed_fail. reflexivity.
    + apply framed_same; [reflexivity | discriminate].
  - destruct (heap w !! r) as [im |].
    + apply framed_alloc; [exact Hn | reflexivity |]. intros ov [= <-]. lia.
    + apply framed_fail. reflexivity.
  - apply framed_same; [reflexivity | discriminate].
Qed.

Lemma frames_resize (n r : nat) (size : Z * Z) :
  frames n (fun r' => (n <= r')%nat) (resize r size).
Proof.
  intros w Hn. rewrite resize_run. destruct (heap w !! r) as [im |].
  - destruct (size_ok size).
    + apply framed_alloc; [exact Hn | reflexivity | lia].
    + apply framed_fail. reflexivity.
  - apply framed_fail. reflexivity.
Qed.

Lemma frames_paste (n dst src : nat) (box : Z * Z) (mask : option nat) :
  (n <= dst)%nat -> frames n (fun _ => True) (paste dst src box mask).
Proof.
  intros Hd w Hn. rewrite paste_run.
  assert (Hfail : forall e,
            framed n (fun _ : unit => True) w
              (Raise e, w, [EvPaste dst src box mask])).
  { intros e. unfold framed. cbn. repeat split; auto.
    intros d s b k [[= <- _ _ _] | []]. exact Hd. }
  destruct (heap w !! dst) as [d |]; [| apply Hfail].
  destruct (heap w !! src) as [s |]; [| apply Hfail].
  assert (Hok : forall m,
            framed n (fun _ : unit => True) w
              (Ok tt, mkWorld (<[dst := pasted d s box m]> (heap w)) (files w),
               [EvPaste dst src box mask])).
  { intros m. unfold framed. cbn. rewrite length_insert. repeat split; auto.
    - intros j Hj. apply list_lookup_insert_ne. lia.
    - intros d0 s0 b k [[= <- _ _ _] | []]. exact Hd. }
  destruct mask as [r |]; [| apply Hok].
  destruct (heap w !! r); [apply Hok | apply Hfail].
Qed.

Lemma frames_fit_and_paste (n img : nat) (o : option nat) (content : nat)
    (cw ch x1 y1 x2 y2 : Z) (align valign : string) (padding : Z)
    (allow_upscale keep_alpha : bool) (image_overlay : option ImageArg) :
  (n <= img)%nat ->
  frames n (fun _ => True)
    (fit_and_paste img o content cw ch x1 y1 x2 y2 align valign padding
       allow_upscale keep_alpha image_overlay).
Proof.
  intros Himg. unfold fit_and_paste.
  eapply frames_bind with (Q := fun _ => True).
  { intros w _. unfold lift. destruct (fit _ _ _ _ _);
      [apply framed_same | apply framed_fail]; auto. }
  intros [scale [nw nh]] _. cbn [snd].
  eapply frames_bind; [apply frames_resize |].
  intros resized Hres. cbv beta in Hres.
  eapply frames_bind with (Q := fun _ => True).
  { intros w _. unfold deref. destruct (heap w !! resized);
      [apply framed_same | apply framed_fail]; auto. }
  intros rim _.
  eapply frames_bind with (Q := fun _ => True).
  { destruct (_ && _); apply frames_paste; exact Himg. }
  intros _ _.
  eapply frames_bind with (Q := fun _ => True).
  { unfold draw_overlay. destruct image_overlay; [destruct o |].
    - apply frames_paste; exact Himg.
    - intros w _. apply framed_same; auto.
    - intros w _. apply framed_same; auto. }
  intros _ _ w _. rewrite save_png_run.
  destruct (heap w !! img); [destruct (png_encode _) |];
    [apply framed_same | apply framed_fail | apply framed_fail]; auto.
Qed.

Lemma frames_routine (n : nat) (image_source : ImageArg)
    (top_left bottom_right : Z * Z) (content_image : ImageArg)
    (align valign : string) (padding : Z)
    (allow_upscale keep_alpha : bool) (image_overlay : option ImageArg) :
  frames n (fun _ => True)
    (paste_image_auto image_source top_left bottom_right content_image
       align valign padding allow_upscale keep_alpha image_overlay).
Proof.
  unfold paste_image_auto. destruct content_image as [p | content].
  { intros w _. apply framed_fail. reflexivity. }
  eapply frames_bind; [apply frames_open_canvas |].
  intros img Himg. cbv beta in Himg.
  eapply frames_bind; [apply frames_open_overlay |].
  intros o _. destruct top_left as [x1 y1], bottom_right as [x2 y2].
  destruct (negb _).
  { intros w _. apply framed_fail. reflexivity. }
  eapply frames_bind with (Q := fun _ => True).
  { intros w _. unfold deref. destruct (heap w !! content);
      [apply framed_same | apply framed_fail]; auto. }
  intros cim _. destruct (im_size cim) as [cw ch].
  destruct (_ || _).
  { intros w _. apply framed_fail. reflexivity. }
  apply frames_fit_and_paste. exact Himg.
Qed.

(** C8 (non-mutation of inputs).  After any call, returning or failing,
    every object that existed before is what it was, in particular a
    decoded canvas, the content image and a decoded overlay; the files
    are untouched; every paste of the call went onto an object created
    during the call; and when the canvas is given decoded, the call
    starts by copying it. *)
Theorem inputs_not_mutated (image_source : ImageArg) (top_left bottom_right : Z * Z)
    (content_image : ImageArg) (align valign : string) (padding : Z)
    (allow_upscale keep_alpha : bool) (image_overlay : option ImageArg) w :
  let run := paste_image_auto image_source top_left bottom_right content_image
               align valign padding allow_upscale keep_alpha image_overlay w in
  (forall (r : nat) (im : Image Pixel),
     heap w !! r = Some im -> heap (world_of run) !! r = Some im) /\
  (forall canvas im, image_source = Decoded canvas ->
     heap w !! canvas = Some im -> heap (world_of run) !! canvas = Some im) /\
  (forall content im, content_image = Decoded content ->
     heap w !! content = Some im -> heap (world_of run) !! content = Some im) /\
  files (world_of run) = files w /\
  (forall dst src box mask, In (dst, src, box, mask) (pastes (events_of run)) ->
     (length (heap w) <= dst)%nat) /\
  (forall canvas content, image_source = Decoded canvas ->
     content_image = Decoded content ->
     exists rest, events_of run = EvCopy canvas :: rest).
Proof.
  intros run.
  destruct (frames_routine (length (heap w)) image_source top_left bottom_right
              content_image align valign padding allow_upscale keep_alpha
              image_overlay w (Nat.le_refl _)) as (_ & Hobj & Hfiles & Hp & _).
  fold run in Hobj, Hfiles, Hp.
  assert (Hall : forall (r : nat) (im : Image Pixel),
            heap w !! r = Some im -> heap (world_of run) !! r = Some im).
  { intros r im H. unfold world_of. rewrite Hobj; [exact H |].
    apply lookup_lt_Some in H. exact H. }
  split; [exact Hall |]. split; [intros; apply Hall; assumption |].
  split; [intros; apply Hall; assumption |].
  split; [exact Hfiles |]. split; [exact Hp |].
  intros canvas content -> ->. subst run.
  destruct top_left as [x1 y1], bottom_right as [x2 y2].
  rewrite run_decoded. cbn [open_canvas]. rewrite copy_run.
  destruct (heap w !! canvas); [| cbn; eauto].
  destruct (open_overlay _ _) as [[[o | e] w2] t2]; [| cbn; eauto].
  destruct (negb _); [cbn; eauto |].
  destruct (heap w2 !! content) as [cim |]; [| cbn; eauto].
  destruct (_ || _); [cbn; eauto |].
  destruct (fit_and_paste _ _ _ _ _ _ _ _ _ _ _ _ _ _ _ w2) as [[r w'] t'].
  cbn. eauto.
Qed.


(** *** A missing overlay file *)

Lemma differ_bind (img : nat) {A B} (m : M A) (k1 k2 : A -> M B) w :
  (forall a w1, differ_by_warning img (k1 a w1) (k2 a w1)) ->
  differ_by_warning img (bind m k1 w) (bind m k2 w).
Proof.
  intros H. unfold bind.
  destruct (m w) as [[[a | e] w1] t1].
  - specialize (H a w1). unfold differ_by_warning, result_of, world_of, events_of in *.
    destruct (k1 a w1) as [[r1 w2] t2], (k2 a w1) as [[r2 w2'] t2'].
    cbn [fst snd] in *. destruct H as (-> & -> & [[-> Hr] | (pre & -> & ->)]).
    + auto.
    + split; [reflexivity |]. split; [reflexivity |]. right.
      exists (t1 ++ pre). rewrite <- !app_assoc. auto.
  - unfold differ_by_warning, result_of, world_of, events_of. cbn [fst snd].
    split; [reflexivity |]. split; [reflexivity |]. left.
    split; [reflexivity | discriminate].
Qed.

Lemma differ_tail (img : nat) (p : string) w :
  differ_by_warning img
    (bind (draw_overlay img (Some (Path p)) None) (fun _ => save_png img) w)
    (bind (draw_overlay img None None) (fun _ => save_png img) w).
Proof.
  unfold bind. rewrite !draw_overlay_run. rewrite save_png_run.
  unfold differ_by_warning, result_of, world_of, events_of.
  destruct (heap w !! img) as [im |]; [destruct (png_encode im) |];
    cbn [fst snd]; (split; [reflexivity |]); (split; [reflexivity |]);
    right; exists []; auto.
Qed.

Lemma differ_fit_and_paste (img content : nat) (cw ch x1 y1 x2 y2 : Z)
    (align valign : string) (padding : Z) (allow_upscale keep_alpha : bool)
    (p : string) w :
  differ_by_warning img
    (fit_and_paste img None content cw ch x1 y1 x2 y2 align valign padding
       allow_upscale keep_alpha (Some (Path p)) w)
    (fit_and_paste img None content cw ch x1 y1 x2 y2 align valign padding
       allow_upscale keep_alpha None w).
Proof.
  unfold fit_and_paste.
  apply differ_bind. intros [scale [nw nh]] w1. cbn [snd].
  apply differ_bind. intros resized w2.
  apply differ_bind. intros rim w3.
  apply differ_bind. intros _ w4.
  apply differ_tail.
Qed.

Lemma open_overlay_missing (p : string) w :
  files w !! p = None -> open_overlay (Some (Path p)) w = (Ok None, w, []).
Proof. intros H. rewrite open_overlay_run, H. reflexivity. Qed.

Lemma differ_routine (image_source : ImageArg) (x1 y1 x2 y2 : Z) (content : nat)
    (align valign : string) (padding : Z) (allow_upscale keep_alpha : bool)
    (p : string) w :
  files w !! p = None ->
  exists img,
    differ_by_warning img
      (paste_image_auto image_source (x1, y1) (x2, y2) (Decoded content)
         align valign padding allow_upscale keep_alpha (Some (Path p)) w)
      (paste_image_auto image_source (x1, y1) (x2, y2) (Decoded content)
         align valign padding allow_upscale keep_alpha None w).
Proof.
  intros Hp. rewrite !run_decoded.
  assert (Hsame : forall (o : Result (list Byte.byte) * World * list Event),
            (forall a, result_of o <> Ok a) -> differ_by_warning 0 o o).
  { intros o Ho. repeat split; auto. }
  destruct (open_canvas image_source w) as [[[img | e] w1] t1] eqn:Hc.
  2: { exists 0%nat. apply Hsame. discriminate. }
  exists img.
  assert (Hsame' : forall (o : Result (list Byte.byte) * World * list Event),
            (forall a, result_of o <> Ok a) -> differ_by_warning img o o).
  { intros o Ho. repeat split; auto. }
  destruct (open_canvas_loads _ _ _ _ _ Hc) as (_ & Hf & _).
  rewrite open_overlay_missing by congruence.
  cbn [open_overlay]. unfold ret.
  destruct (negb _); [apply Hsame'; discriminate |].
  destruct (heap w1 !! content) as [cim |]; [| apply Hsame'; discriminate].
  destruct (_ || _); [apply Hsame'; discriminate |].
  pose proof (differ_fit_and_paste img content (im_size cim).1 (im_size cim).2
                x1 y1 x2 y2 align valign padding allow_upscale keep_alpha p w1) as D.
  unfold differ_by_warning, result_of, world_of, events_of in *.
  destruct (fit_and_paste _ _ _ _ _ _ _ _ _ _ _ _ _ _ (Some (Path p)) w1)
    as [[r1 w2] t2].
  destruct (fit_and_paste _ _ _ _ _ _ _ _ _ _ _ _ _ _ None w1) as [[r2 w2'] t2'].
  cbn [fst snd] in *. destruct D as (-> & -> & [[-> Hr] | (pre & -> & ->)]).
  - auto.
  - split; [reflexivity |]. split; [reflexivity |]. right.
    exists (t1 ++ [] ++ pre). rewrite <- !app_assoc. auto.
Qed.

(** C9 (missing-overlay soft failure).  When [image_overlay] is a path
    that names no file, the call ends as the same call without overlay
    does: the same bytes or the same error, the same objects, the same
    resize and the same pastes, hence no overlay paste.  When the call
    without overlay returns, the call with the missing overlay returns
    the same bytes, has printed the warning once, just before encoding,
    where the other printed nothing, and has pasted once, the content. *)
Theorem missing_overlay_soft_failure (image_source : ImageArg)
    (top_left bottom_right : Z * Z) (content_image : ImageArg)
    (align valign : string) (padding : Z) (allow_upscale keep_alpha : bool)
    (p : string) w :
  files w !! p = None ->
  let run_missing :=
    paste_image_auto image_source top_left bottom_right content_image
      align valign padding allow_upscale keep_alpha (Some (Path p)) w in
  let run_none :=
    paste_image_auto image_source top_left bottom_right content_image
      align valign padding allow_upscale keep_alpha None w in
  result_of run_missing = result_of run_none /\
  world_of run_missing = world_of run_none /\
  resized_to (events_of run_missing) = resized_to (events_of run_none) /\
  pastes (events_of run_missing) = pastes (events_of run_none) /\
  (forall b, result_of run_none = Ok b ->
     result_of run_missing = Ok b /\
     printed (events_of run_none) = [] /\
     printed (events_of run_missing) = [warning] /\
     length (pastes (events_of run_missing)) = 1%nat /\
     exists pre img,
       events_of run_none = pre ++ [EvSave img] /\
       events_of run_missing = pre ++ [EvPrint warning; EvSave img]).
Proof.
  intros Hp run_missing run_none.
  destruct content_image as [q | content].
  { subst run_missing run_none. cbn. repeat split; auto; discriminate. }
  destruct top_left as [x1 y1], bottom_right as [x2 y2].
  destruct (differ_routine image_source x1 y1 x2 y2 content align valign padding
              allow_upscale keep_alpha p w Hp) as (img & Hres & Hw & Hev).
  fold run_missing run_none in Hres, Hw, Hev.
  split; [exact Hres |]. split; [exact Hw |].
  assert (Hsame : resized_to (events_of run_missing) = resized_to (events_of run_none)
                  /\ pastes (events_of run_missing) = pastes (events_of run_none)).
  { destruct Hev as [[-> _] | (pre & -> & ->)]; [auto |].
    rewrite !resized_to_app, !pastes_app. auto. }
  split; [apply Hsame |]. split; [apply Hsame |].
  intros b Hb. split; [congruence |].
  destruct Hev as [[_ Hno] | (pre & Hn & Hm)]; [destruct (Hno b Hb) |].
  pose proof (run_eta run_none) as E. rewrite Hb in E. unfold run_none in E at 1.
  destruct (run_ok _ _ _ _ _ _ _ _ _ _ _ _ _ _ _ _ E)
    as (img' & w1 & t1 & o & w2 & t2 & cim & scale & nw & nh & base & t4 & final
        & Hcan & Hov & _ & _ & _ & _ & _ & _ & _ & _ & _ & Hdraw & _ & _ & Ht).
  cbn [open_overlay] in Hov. injection Hov as <- <- <-.
  rewrite draw_overlay_run in Hdraw. injection Hdraw as _ <-.
  destruct (open_canvas_loads _ _ _ _ _ Hcan) as (_ & _ & L1).
  destruct (loads_draws_nothing _ L1) as (_ & P1 & Pr1).
  assert (Hpre : pre = t1 ++ [EvResize content (nw, nh);
                   EvPaste img' (length (heap w1))
                     (paste_x align x1 x2 padding (region x1 x2 padding) nw,
                      paste_y valign y1 y2 padding (region y1 y2 padding) nh)
                     (if keep_alpha && bool_decide ("A"%string ∈ im_bands cim)
                      then Some (length (heap w1)) else None)] /\ img = img').
  { rewrite Hn in Ht. cbn [app] in Ht.
    change (t1 ++ EvResize content (nw, nh) :: ?x :: [EvSave img'])
      with (t1 ++ [EvResize content (nw, nh); x] ++ [EvSave img']) in Ht.
    rewrite app_assoc in Ht. apply app_inj_tail in Ht as [-> [= ->]]. auto. }
  destruct Hpre as [-> ->].
  rewrite Hn, Hm. rewrite !printed_app, !pastes_app, Pr1, P1. cbn.
  repeat split; eauto.
Qed.


(** *** Pasting with and without a mask *)

Lemma pasted_inside (dst src : Image Pixel) (box : Z * Z)
    (mask : option (Image Pixel)) (x y : Z) :
  0 <= x - box.1 < (im_size src).1 -> 0 <= y - box.2 < (im_size src).2 ->
  im_data (pasted dst src box mask) x y =
  let s := adapt (im_bands dst) (im_bands src)
             (im_data src (x - box.1) (y - box.2)) in
  match mask with
  | None => s
  | Some m =>
      mix (im_data dst x y) s
        (mask_value (im_bands m) (im_data m (x - box.1) (y - box.2)))
  end.
Proof.
  intros Hx Hy. unfold pasted. cbn [im_data].
  destruct (Z.leb_spec 0 (x - box.1)); [| lia].
  destruct (Z.ltb_spec (x - box.1) (im_size src).1); [| lia].
  destruct (Z.leb_spec 0 (y - box.2)); [| lia].
  destruct (Z.ltb_spec (y - box.2) (im_size src).2); [| lia].
  reflexivity.
Qed.

Lemma pasted_outside (dst src : Image Pixel) (box : Z * Z)
    (mask : option (Image Pixel)) (x y : Z) :
  ~ (0 <= x - box.1 < (im_size src).1 /\ 0 <= y - box.2 < (im_size src).2) ->
  im_data (pasted dst src box mask) x y = im_data dst x y.
Proof.
  intros H. unfold pasted. cbn [im_data].
  destruct (Z.leb_spec 0 (x - box.1)); [| reflexivity].
  destruct (Z.ltb_spec (x - box.1) (im_size src).1); [| reflexivity].
  destruct (Z.leb_spec 0 (y - box.2)); [| reflexivity].
  destruct (Z.ltb_spec (y - box.2) (im_size src).2); [| reflexivity].
  lia.
Qed.



(** *** The checks do not read the padding *)

Lemma checks_decide (image_source : ImageArg) (x1 y1 x2 y2 : Z)
    (content_image : ImageArg) (align valign : string) (padding : Z)
    (allow_upscale keep_alpha : bool) (image_overlay : option ImageArg) w
    (e : error) :
  is_validation_error e = true ->
  result_of (paste_image_auto image_source (x1, y1) (x2, y2) content_image
               align valign padding allow_upscale keep_alpha image_overlay w)
    = Raise e
  <-> checks image_source (x1, y1) (x2, y2) content_image image_overlay w = Some e.
Proof.
  intros Hv. unfold checks. destruct content_image as [p | content].
  { cbn. split; intros [= <-]; reflexivity. }
  rewrite run_decoded. cbn [fst snd].
  destruct (open_canvas image_source w) as [[[img | e1] w1] t1] eqn:Hc.
  2: { pose proof (open_canvas_raises _ _ _ _ _ Hc) as N. unfold not_validation in N.
       cbn. split; [intros [= ->]; congruence | discriminate]. }
  destruct (open_overlay image_overlay w1) as [[[o | e2] w2] t2] eqn:Ho.
  2: { pose proof (open_overlay_raises _ _ _ _ _ Ho) as N. unfold not_validation in N.
       cbn. split; [intros [= ->]; congruence | discriminate]. }
  destruct (negb _); [cbn; split; intros [= <-]; reflexivity |].
  destruct (heap w2 !! content) as [cim |];
    [| cbn; split; [intros [= <-]; discriminate | discriminate]].
  destruct (_ || _); [cbn; split; intros [= <-]; reflexivity |].
  destruct (fit_and_paste _ _ _ _ _ _ _ _ _ _ _ _ _ _ _ w2) as [[r w'] t'] eqn:Hf.
  cbn. split; [| discriminate]. intros ->.
  pose proof (fit_and_paste_raises _ _ _ _ _ _ _ _ _ _ _ _ _ _ _ _ _ _ _ Hf) as N.
  unfold not_validation in N. congruence.
Qed.

(** C10, as amended (padding is never validated).  For every negative
    padding: the call raises a validation error exactly when the same call
    with padding 0 raises it, the checks not reading the padding; the
    inner width and height exceed the width and height of the rectangle;
    a call that returns has resized the content to the size computed
    from these inner dimensions and has pasted it, for left and top
    alignment, at [x1 + padding] and [y1 + padding], left of and above
    the rectangle, and for right and bottom alignment with its far
    corner at [x2 - padding] and [y2 - padding], right of and below it;
    and the size computation goes through as long as the inner
    dimensions stay below [2^1000]. *)
Theorem padding_not_validated (image_source : ImageArg) (x1 y1 x2 y2 : Z)
    (content_image : ImageArg) (align valign : string) (padding : Z)
    (allow_upscale keep_alpha : bool) (image_overlay : option ImageArg) w :
  padding < 0 ->
  let run p := paste_image_auto image_source (x1, y1) (x2, y2) content_image
                 align valign p allow_upscale keep_alpha image_overlay w in
  let inner_width := Z.max 1 ((x2 - x1) - 2 * padding) in
  let inner_height := Z.max 1 ((y2 - y1) - 2 * padding) in
  (forall e, is_validation_error e = true ->
     (result_of (run padding) = Raise e <-> result_of (run 0) = Raise e)) /\
  (x1 < x2 -> inner_width > x2 - x1) /\
  (y1 < y2 -> inner_height > y2 - y1) /\
  (forall b, result_of (run padding) = Ok b ->
     exists cim scale placed_width placed_height img resized mask rest px py,
       (forall c cim0, content_image = Decoded c ->
          heap w !! c = Some cim0 -> cim0 = cim) /\
       fit inner_width inner_height (im_size cim).1 (im_size cim).2 allow_upscale
         = Ok (scale, (placed_width, placed_height)) /\
       resized_to (events_of (run padding)) = [(placed_width, placed_height)] /\
       pastes (events_of (run padding)) = (img, resized, (px, py), mask) :: rest /\
       (align = "left"%string -> px = x1 + padding /\ px < x1) /\
       (valign = "top"%string -> py = y1 + padding /\ py < y1) /\
       (align = "right"%string ->
          px + placed_width = x2 - padding /\ x2 < px + placed_width) /\
       (valign = "bottom"%string ->
          py + placed_height = y2 - padding /\ y2 < py + placed_height)) /\
  (forall placed_width,
     paste_x "left" x1 x2 padding inner_width placed_width = x1 + padding /\
     x1 + padding < x1) /\
  (forall placed_height,
     paste_y "top" y1 y2 padding inner_height placed_height = y1 + padding /\
     y1 + padding < y1) /\
  (forall cw ch, 1 <= cw <= INT_MAX -> 1 <= ch <= INT_MAX ->
     inner_width < 2 ^ 1000 -> inner_height < 2 ^ 1000 ->
     exists f, fit inner_width inner_height cw ch allow_upscale = Ok f).
Proof.
  intros Hp run inner_width inner_height.
  split.
  { intros e Hv. unfold run. rewrite !checks_decide by exact Hv. reflexivity. }
  split; [unfold inner_width; lia |]. split; [unfold inner_height; lia |].
  split.
  { intros b Hb. unfold run in *. destruct content_image as [q | content].
    { cbn in Hb. discriminate Hb. }
    destruct (run_geometry image_source x1 y1 x2 y2 content align valign padding
                allow_upscale keep_alpha image_overlay w b Hb)
      as (cim & scale & nw & nh & img & resized & mask & rest
          & Hcim & _ & _ & _ & _ & Hfit & _ & _ & Hr & Hpa).
    exists cim, scale, nw, nh, img, resized, mask, rest. eexists _, _.
    split; [intros c cim0 [= <-]; apply Hcim |].
    split; [exact Hfit |]. split; [exact Hr |]. split; [exact Hpa |].
    unfold paste_x, paste_y.
    split; [intros ->; cbn; lia |]. split; [intros ->; cbn; lia |].
    split; intros ->; cbn; lia. }
  split; [intros; split; [reflexivity | lia] |].
  split; [intros; split; [reflexivity | lia] |].
  intros cw ch Hcw Hch Hw Hh. apply fit_total; unfold inner_width, inner_height in *; lia.
Qed.
End EffectClaims.

(** *** The claims about errors and effects on concrete calls *)


(** C10 is false as stated: with the padding [-2^1100] and inputs that
    pass every check, the division of the inner width by the content
    width leaves the range of a float and raises; with the padding
    [-2^40] and upscaling allowed, the placed size is beyond what
    [resize] takes. *)
Lemma negative_padding_can_raise :
  - 2 ^ 1100 < 0 /\
  result_of (padded_run (- 2 ^ 1100) false) = Raise OverflowError /\
  events_of (padded_run (- 2 ^ 1100) false) = [EvCopy 0%nat] /\
  result_of (padded_run (- 2 ^ 40) true) = Raise ResizeFailure /\
  (exists b, result_of (padded_run 0 false) = Ok b).
Proof.
  split; [reflexivity |].
  split; [vm_compute; reflexivity |].
  split; [vm_compute; reflexivity |].
  split; [vm_compute; reflexivity |].
  eexists. vm_compute. reflexivity.
Qed.

Lemma padding_not_validated_witness :
  (exists b, result_of (padded_run (-3) false) = Ok b) /\
  (forall e, is_validation_error e = true ->
     (result_of (padded_run (-3) false) = Raise e
      <-> result_of (padded_run 0 false) = Raise e)) /\
  (1 < 7 -> Z.max 1 (7 - 1 - 2 * -3) > 7 - 1) /\
  (1 < 7 -> Z.max 1 (7 - 1 - 2 * -3) > 7 - 1) /\
  (forall b, result_of (padded_run (-3) false) = Ok b ->
     exists cim scale placed_width placed_height img resized mask rest px py,
       (forall c cim0, Decoded 1%nat = Decoded c ->
          heap small_world !! c = Some cim0 -> cim0 = cim) /\
       fit (Z.max 1 (7 - 1 - 2 * -3)) (Z.max 1 (7 - 1 - 2 * -3))
           (im_size cim).1 (im_size cim).2 false
         = Ok (scale, (placed_width, placed_height)) /\
       resized_to (events_of (padded_run (-3) false))
         = [(placed_width, placed_height)] /\
       pastes (events_of (padded_run (-3) false))
         = (img, resized, (px, py), mask) :: rest /\
       ("left"%string = "left"%string -> px = 1 + -3 /\ px < 1) /\
       ("top"%string = "top"%string -> py = 1 + -3 /\ py < 1) /\
       ("left"%string = "right"%string ->
          px + placed_width = 7 - -3 /\ 7 < px + placed_width) /\
       ("top"%string = "bottom"%string ->
          py + placed_height = 7 - -3 /\ 7 < py + placed_height)) /\
  (forall placed_width,
     paste_x "left" 1 7 (-3) (Z.max 1 (7 - 1 - 2 * -3)) placed_width = 1 + -3 /\
     1 + -3 < 1) /\
  (forall placed_height,
     paste_y "top" 1 7 (-3) (Z.max 1 (7 - 1 - 2 * -3)) placed_height = 1 + -3 /\
     1 + -3 < 1) /\
  (forall cw ch, 1 <= cw <= INT_MAX -> 1 <= ch <= INT_MAX ->
     Z.max 1 (7 - 1 - 2 * -3) < 2 ^ 1000 -> Z.max 1 (7 - 1 - 2 * -3) < 2 ^ 1000 ->
     exists f, fit (Z.max 1 (7 - 1 - 2 * -3)) (Z.max 1 (7 - 1 - 2 * -3)) cw ch false
               = Ok f).
Proof.
  split; [eexists; vm_compute; reflexivity |].
  unfold padded_run.
  refine (padding_not_validated (Decoded 0%nat) 1 1 7 7 (Decoded 1%nat)
            "left" "top" (-3) false true None small_world _).
  lia.
Defined.

(** With the padding [-3] the content goes to [(-2, -2)], outside the
    rectangle [(1,1)-(7,7)], and the call returns. *)
Example negative_padding_origin :
  pastes (events_of (padded_run (-3) false))
    = [(2%nat, 3%nat, (-2, -2), Some 3%nat)] /\
  resized_to (events_of (padded_run (-3) false)) = [(4, 2)].
Proof. split; vm_compute; reflexivity. Qed.


(** The small raster library keeps the contract of the paste mask. *)
Lemma demo_laws : RasterLaws Demo.raster.
Proof. split; intros d s; reflexivity. Qed.


(** The transparent border leaves the canvas as it was, the opaque centre
    replaces it; with [keep_alpha] off the border is written too. *)
Example transparent_border_kept :
  pixel_at (world_of (framed_run true None)) 2 2 2 = Some (200, 255) /\
  pixel_at (world_of (framed_run true None)) 2 3 3 = Some (9, 255) /\
  pixel_at (world_of (framed_run false None)) 2 2 2 = Some (9, 0).
Proof. split; [| split]; vm_compute; reflexivity. Qed.

(** The three validation failures, on the calls of the specification. *)
Example type_mismatch_first :
  checked_run (0, 0) (0, 5) (Path "c.png") flat_world
    = (Raise TypeMismatch, flat_world, []).
Proof. reflexivity. Qed.

Example degenerate_region :
  result_of (checked_run (0, 0) (0, 5) (Decoded 1%nat) flat_world)
    = Raise InvalidGeometry /\
  events_of (checked_run (0, 0) (0, 5) (Decoded 1%nat) flat_world) = [EvCopy 0%nat].
Proof. split; vm_compute; reflexivity. Qed.

Example empty_content :
  result_of (checked_run (0, 0) (2, 5) (Decoded 1%nat) flat_world)
    = Raise InvalidContentSize /\
  events_of (checked_run (0, 0) (2, 5) (Decoded 1%nat) flat_world) = [EvCopy 0%nat].
Proof. split; vm_compute; reflexivity. Qed.

Lemma missing_overlay_soft_failure_witness :
  result_of (framed_run true (Some (Path "missing.png")))
    = result_of (framed_run true None) /\
  world_of (framed_run true (Some (Path "missing.png")))
    = world_of (framed_run true None) /\
  resized_to (events_of (framed_run true (Some (Path "missing.png"))))
    = resized_to (events_of (framed_run true None)) /\
  pastes (events_of (framed_run true (Some (Path "missing.png"))))
    = pastes (events_of (framed_run true None)) /\
  (forall b, result_of (framed_run true None) = Ok b ->
     result_of (framed_run true (Some (Path "missing.png"))) = Ok b /\
     printed (events_of (framed_run true None)) = [] /\
     printed (events_of (framed_run true (Some (Path "missing.png")))) = [warning] /\
     length (pastes (events_of (framed_run true (Some (Path "missing.png"))))) = 1%nat /\
     exists pre img,
       events_of (framed_run true None) = pre ++ [EvSave img] /\
       events_of (framed_run true (Some (Path "missing.png")))
         = pre ++ [EvPrint warning; EvSave img]).
Proof.
  unfold framed_run.
  refine (missing_overlay_soft_failure (Decoded 0%nat) (1, 1) (7, 7) (Decoded 1%nat)
            "center" "middle" 0 false true "missing.png" framed_world _).
  reflexivity.
Defined.

(** The call with the missing overlay does return, and it has warned. *)
Example missing_overlay_returns :
  exists b, result_of (framed_run true (Some (Path "missing.png"))) = Ok b /\
            result_of (framed_run true None) = Ok b /\
            printed (events_of (framed_run true (Some (Path "missing.png"))))
              = [warning].
Proof.
  eexists. split; [vm_compute; reflexivity |].
  split; vm_compute; reflexivity.
Qed.

(** ** Further properties of the routine *)

(** *** The routine run forward *)

Section ForwardRuns.
Context {Pixel : Type} {R : Raster Pixel}.
Local Abbreviation World := (@World Pixel).
Local Abbreviation M := (@M Pixel).
Implicit Types (w : World) (t : list Event).

Lemma load_mono w w1 t (a : ImageArg) (im : Image Pixel) :
  loads w w1 t -> load w a = Some im -> load w1 a = Some im.
Proof.
  intros L H. destruct a as [p | r]; cbn in *.
  - destruct L as (_ & -> & _). exact H.
  - exact (loads_lookup _ _ _ _ _ L H).
Qed.

Lemma overlay_of_mono w w1 t (image_overlay : option ImageArg) x :
  loads w w1 t -> overlay_of w image_overlay = Some x ->
  overlay_of w1 image_overlay = Some x.
Proof.
  intros L H. destruct image_overlay as [[p | r] |]; cbn in *.
  - destruct L as (_ & -> & _). exact H.
  - destruct (heap w !! r) as [im |] eqn:E; [| discriminate].
    rewrite (loads_lookup _ _ _ _ _ L E). exact H.
  - exact H.
Qed.

Lemma open_canvas_load (a : ImageArg) w img w1 t :
  open_canvas a w = (Ok img, w1, t) ->
  exists cv, load w a = Some cv /\ heap w1 !! img = Some cv.
Proof.
  rewrite open_canvas_run. destruct a as [p | r]; cbn [load].
  - destruct (files w !! p) as [[im |] |]; intros [= <- <- <-].
    eexists. split; [reflexivity |]. cbn [heap].
    rewrite lookup_app_r by lia.
    replace (S (length (heap w)) - length (heap w))%nat with 1%nat by lia.
    reflexivity.
  - rewrite copy_run. destruct (heap w !! r) as [im |]; intros [= <- <- <-].
    exists im. split; [reflexivity |]. cbn [heap].
    rewrite lookup_app_r by lia. rewrite Nat.sub_diag. reflexivity.
Qed.

Lemma load_open_canvas (a : ImageArg) w cv :
  load w a = Some cv ->
  exists img w1 t, open_canvas a w = (Ok img, w1, t) /\ heap w1 !! img = Some cv.
Proof.
  intros H.
  destruct (open_canvas a w) as [[[img | e] w1] t] eqn:E.
  - destruct (open_canvas_load _ _ _ _ _ E) as (cv' & H' & Hl).
    exists img, w1, t. split; [reflexivity |]. congruence.
  - exfalso. rewrite open_canvas_run in E. destruct a as [p | r]; cbn in H.
    + destruct (files w !! p) as [[im |] |]; discriminate.
    + rewrite copy_run, H in E. discriminate.
Qed.

(** What [open_overlay] returns, against [overlay_of]. *)
Lemma open_overlay_ok (image_overlay : option ImageArg) w x :
  overlay_of w image_overlay = Some x ->
  exists o w2 t2,
    open_overlay image_overlay w = (Ok o, w2, t2) /\
    match x with
    | Some oim => exists r, o = Some r /\ heap w2 !! r = Some oim /\
                            (length (heap w) <= r)%nat
    | None => o = None /\
              (image_overlay = None \/
               exists p, image_overlay = Some (Path p) /\ files w !! p = None)
    end.
Proof.
  intros H. rewrite open_overlay_run.
  destruct image_overlay as [[p | r] |]; cbn in H.
  - destruct (files w !! p) as [[im |] |] eqn:E.
    + rewrite bool_decide_eq_true_2 in H by eauto. injection H as <-.
      eexists _, _, _. split; [reflexivity |].
      eexists. split; [reflexivity |]. cbn [heap]. split; [| lia].
      rewrite lookup_app_r by lia.
      replace (S (length (heap w)) - length (heap w))%nat with 1%nat by lia.
      reflexivity.
    + rewrite bool_decide_eq_true_2 in H by eauto. discriminate.
    + rewrite bool_decide_eq_false_2 in H by (intros [? ?]; discriminate).
      injection H as <-. eexists _, _, _. split; [reflexivity |].
      split; [reflexivity |]. right. eauto.
  - destruct (heap w !! r) as [im |]; [| discriminate]. injection H as <-.
    eexists _, _, _. split; [reflexivity |].
    eexists. split; [reflexivity |]. cbn [heap]. split; [| lia].
    rewrite lookup_app_r by lia. rewrite Nat.sub_diag. reflexivity.
  - injection H as <-. eexists _, _, _. split; [reflexivity |]. auto.
Qed.

Lemma bind_step {A B} (m : M A) (k : A -> M B) w a w1 t1 r w2 t2 :
  m w = (Ok a, w1, t1) -> k a w1 = (r, w2, t2) ->
  bind m k w = (r, w2, t1 ++ t2).
Proof. intros H1 H2. unfold bind. rewrite H1, H2. reflexivity. Qed.

Lemma save_png_result (r : nat) w (im : Image Pixel) :
  heap w !! r = Some im ->
  save_png r w = (match png_encode im with
                  | Some b => Ok b
                  | None => Raise EncodeFailure
                  end, w, [EvSave r]).
Proof. intros H. rewrite save_png_run, H. destruct (png_encode im); reflexivity. Qed.

(** The steps after the checks, run forward. *)
Lemma fit_and_paste_run (img : nat) (o : option nat) (content : nat)
    (cw ch x1 y1 x2 y2 : Z) (align valign : string) (padding : Z)
    (allow_upscale keep_alpha : bool) (image_overlay : option ImageArg)
    w (cim base : Image Pixel) (x : option (Image Pixel)) scale nw nh :
  heap w !! content = Some cim ->
  heap w !! img = Some base ->
  match o with
  | Some r => r <> img /\ (r < length (heap w))%nat /\ heap w !! r = x
  | None => x = None
  end ->
  fit (region x1 x2 padding) (region y1 y2 padding) cw ch allow_upscale
    = Ok (scale, (nw, nh)) ->
  size_ok (nw, nh) = true ->
  let rim := mkImage (im_bands cim) (nw, nh) (lanczos cim (nw, nh)) in
  let box := (paste_x align x1 x2 padding (region x1 x2 padding) nw,
              paste_y valign y1 y2 padding (region y1 y2 padding) nh) in
  let alpha := keep_alpha && bool_decide ("A"%string ∈ im_bands cim) in
  let final := composed base rim box alpha
                 (match image_overlay with Some _ => x | None => None end) in
  exists w',
    fit_and_paste img o content cw ch x1 y1 x2 y2 align valign padding
      allow_upscale keep_alpha image_overlay w =
    (match png_encode final with
     | Some b => Ok b
     | None => Raise EncodeFailure
     end, w',
     [EvResize content (nw, nh);
      EvPaste img (length (heap w)) box
        (if alpha then Some (length (heap w)) else None)] ++
     match image_overlay, o with
     | Some _, Some r => [EvPaste img r (0, 0) (Some r)]
     | Some _, None => [EvPrint warning]
     | None, _ => []
     end ++ [EvSave img]) /\
    heap w' !! img = Some final.
Proof.
  intros Hc Hb Ho Hfit Hok rim box alpha final.
  assert (Himg : (img < length (heap w))%nat) by (eapply lookup_lt_Some; eauto).
  set (w3 := mkWorld (heap w ++ [rim]) (files w)).
  assert (Hsrc : heap w3 !! length (heap w) = Some rim).
  { cbn [heap w3]. rewrite lookup_app_r by lia. rewrite Nat.sub_diag. reflexivity. }
  assert (Hdst : heap w3 !! img = Some base)
    by (cbn [heap w3]; rewrite lookup_app_l by lia; exact Hb).
  set (mid := pasted base rim box (if alpha then Some rim else None)).
  set (w4 := mkWorld (<[img := mid]> (heap w3)) (files w3)).
  assert (Hp : (if alpha then paste img (length (heap w)) box (Some (length (heap w)))
                else paste img (length (heap w)) box None) w3 =
               (Ok tt, w4, [EvPaste img (length (heap w)) box
                              (if alpha then Some (length (heap w)) else None)])).
  { unfold w4, mid. destruct alpha; rewrite paste_run, Hdst, ?Hsrc; reflexivity. }
  assert (Hmid : heap w4 !! img = Some mid).
  { cbn [heap w4 w3]. apply list_lookup_insert_eq. rewrite length_app. lia. }
  assert (Hd : exists w',
            draw_overlay img image_overlay o w4 =
              (Ok tt, w',
               match image_overlay, o with
               | Some _, Some r => [EvPaste img r (0, 0) (Some r)]
               | Some _, None => [EvPrint warning]
               | None, _ => []
               end) /\
            heap w' !! img = Some final).
  { rewrite draw_overlay_run.
    destruct image_overlay as [a |]; [destruct o as [r |] |].
    - destruct Ho as (Hne & Hlt & Hx).
      destruct (heap w !! r) as [oim |] eqn:Er;
        [| apply lookup_lt_is_Some_2 in Hlt as [? ?]; congruence].
      subst x.
      assert (Hov : heap w4 !! r = Some oim).
      { cbn [heap w4 w3]. rewrite list_lookup_insert_ne by auto.
        rewrite lookup_app_l by lia. exact Er. }
      rewrite paste_run, Hmid, Hov. eexists. split; [reflexivity |].
      cbn [heap]. apply list_lookup_insert_eq.
      cbn [heap w4 w3]. rewrite length_insert, length_app. lia.
    - subst x. eexists. split; [reflexivity | exact Hmid].
    - eexists. split; [reflexivity | exact Hmid]. }
  destruct Hd as (w' & Hd & Hfin).
  exists w'. split; [| exact Hfin].
  unfold fit_and_paste.
  eapply (bind_step _ _ w (scale, (nw, nh)) w []);
    [unfold lift; rewrite Hfit; reflexivity |].
  cbn [snd].
  eapply (bind_step _ _ w (length (heap w)) w3 [EvResize content (nw, nh)]);
    [rewrite resize_run, Hc, Hok; reflexivity |].
  eapply (bind_step _ _ w3 rim w3 []);
    [unfold deref; rewrite Hsrc; reflexivity |].
  cbn [im_bands rim]. fold alpha. fold box. cbn [app].
  eapply (bind_step _ _ w3 tt w4 [_]); [exact Hp |].
  eapply (bind_step _ _ w4 tt w' _); [exact Hd |].
  apply save_png_result. exact Hfin.
Qed.

(** A call whose arguments stand for images, whose region and content
    size pass the checks and whose placed size [resize] takes, run
    forward: it encodes [composed], and fails only if the encoder does. *)
Lemma routine_run (image_source : ImageArg) (x1 y1 x2 y2 : Z) (content : nat)
    (align valign : string) (padding : Z) (allow_upscale keep_alpha : bool)
    (image_overlay : option ImageArg) w (cv cim : Image Pixel)
    (x : option (Image Pixel)) scale nw nh :
  load w image_source = Some cv ->
  heap w !! content = Some cim ->
  overlay_of w image_overlay = Some x ->
  x1 < x2 -> y1 < y2 -> 0 < (im_size cim).1 -> 0 < (im_size cim).2 ->
  fit (region x1 x2 padding) (region y1 y2 padding)
      (im_size cim).1 (im_size cim).2 allow_upscale = Ok (scale, (nw, nh)) ->
  size_ok (nw, nh) = true ->
  let rim := mkImage (im_bands cim) (nw, nh) (lanczos cim (nw, nh)) in
  let box := (paste_x align x1 x2 padding (region x1 x2 padding) nw,
              paste_y valign y1 y2 padding (region y1 y2 padding) nh) in
  let alpha := keep_alpha && bool_decide ("A"%string ∈ im_bands cim) in
  let final := composed cv rim box alpha x in
  exists img resized ov w' t,
    paste_image_auto image_source (x1, y1) (x2, y2) (Decoded content)
      align valign padding allow_upscale keep_alpha image_overlay w =
    (match png_encode final with
     | Some b => Ok b
     | None => Raise EncodeFailure
     end, w', t) /\
    heap w' !! img = Some final /\
    (length (heap w) <= img)%nat /\
    resized_to t = [(nw, nh)] /\
    pastes t = (img, resized, box, if alpha then Some resized else None) ::
               match x with
               | Some _ => [(img, ov, (0, 0), Some ov)]
               | None => []
               end /\
    printed t = match image_overlay, x with
                | Some _, None => [warning]
                | _, _ => []
                end /\
    exists pre, t = pre ++ [EvSave img].
Proof.
  intros Hload Hc Hov Hx Hy Hcw Hch Hfit Hok rim box alpha final.
  destruct (load_open_canvas _ _ _ Hload) as (img & w1 & t1 & Hcan & Hcv).
  pose proof (open_canvas_loads _ _ _ _ _ Hcan) as L1.
  pose proof (open_canvas_fresh _ _ _ _ _ Hcan) as Himg.
  destruct (open_overlay_ok _ _ _ (overlay_of_mono _ _ _ _ _ L1 Hov))
    as (o & w2 & t2 & Ho & Hrel).
  pose proof (open_overlay_loads _ _ _ _ _ Ho) as L2.
  pose proof (loads_lookup _ _ _ _ _ L2 (loads_lookup _ _ _ _ _ L1 Hc)) as Hc2.
  pose proof (loads_lookup _ _ _ _ _ L2 Hcv) as Hcv2.
  assert (Hlen : (length (heap w1) <= length (heap w2))%nat).
  { destruct L2 as ([l ->] & _ & _). rewrite length_app. lia. }
  assert (Ho' : match o with
                | Some r => r <> img /\ (r < length (heap w2))%nat /\ heap w2 !! r = x
                | None => x = None
                end).
  { destruct x as [oim |].
    - destruct Hrel as (r & -> & Hr & Hge). split; [lia |].
      split; [eapply lookup_lt_Some; eauto | exact Hr].
    - destruct Hrel as [-> _]. reflexivity. }
  destruct (fit_and_paste_run img o content (im_size cim).1 (im_size cim).2
              x1 y1 x2 y2 align valign padding allow_upscale keep_alpha
              image_overlay w2 cim cv x scale nw nh Hc2 Hcv2 Ho' Hfit Hok)
    as (w' & E & Hfin).
  assert (Hx' : match image_overlay with Some _ => x | None => None end = x).
  { destruct image_overlay; [reflexivity |]. cbn in Hov. congruence. }
  rewrite Hx' in E, Hfin. fold rim box alpha final in E, Hfin.
  exists img, (length (heap w2)),
    (match o with Some r => r | None => 0%nat end), w'.
  eexists. split.
  { rewrite run_decoded, Hcan, Ho.
    replace (x2 >? x1) with true by (symmetry; apply Z.gtb_lt; lia).
    replace (y2 >? y1) with true by (symmetry; apply Z.gtb_lt; lia).
    cbn [andb negb]. rewrite Hc2.
    replace ((im_size cim).1 <=? 0) with false by (symmetry; apply Z.leb_gt; lia).
    replace ((im_size cim).2 <=? 0) with false by (symmetry; apply Z.leb_gt; lia).
    cbn [orb]. rewrite E. reflexivity. }
  split; [exact Hfin |]. split; [lia |].
  destruct L1 as (_ & _ & L1). destruct L2 as (_ & _ & L2).
  destruct (loads_draws_nothing _ L1) as (R1 & P1 & Q1).
  destruct (loads_draws_nothing _ L2) as (R2 & P2 & Q2).
  rewrite !resized_to_app, !pastes_app, !printed_app, R1, R2, P1, P2, Q1, Q2.
  split.
  { destruct image_overlay, o; reflexivity. }
  split.
  { destruct x as [oim |].
    - destruct Hrel as (r & -> & _).
      destruct image_overlay; [reflexivity | cbn in Hov; congruence].
    - destruct Hrel as [-> _]. destruct image_overlay; reflexivity. }
  split.
  { destruct x as [oim |].
    - destruct Hrel as (r & -> & _). destruct image_overlay; reflexivity.
    - destruct Hrel as [-> _]. destruct image_overlay; reflexivity. }
  eexists. rewrite !app_assoc. reflexivity.
Qed.
End ForwardRuns.

(** *** What a call returns, and when *)

Section FurtherProperties.
Context {Pixel : Type} {R : Raster Pixel}.
Local Abbreviation World := (@World Pixel).
Local Abbreviation M := (@M Pixel).
Implicit Types (w : World) (t : list Event).
Import Binary64 FitFacts.

(** A returning call, against the images its arguments stand for. *)
Lemma run_returns (image_source : ImageArg) (x1 y1 x2 y2 : Z) (content : nat)
    (align valign : string) (padding : Z) (allow_upscale keep_alpha : bool)
    (image_overlay : option ImageArg) w (cim : Image Pixel)
    (x : option (Image Pixel)) b :
  heap w !! content = Some cim ->
  overlay_of w image_overlay = Some x ->
  let run := paste_image_auto image_source (x1, y1) (x2, y2) (Decoded content)
               align valign padding allow_upscale keep_alpha image_overlay w in
  result_of run = Ok b ->
  exists cv scale nw nh img resized ov,
    load w image_source = Some cv /\
    fit (region x1 x2 padding) (region y1 y2 padding)
        (im_size cim).1 (im_size cim).2 allow_upscale = Ok (scale, (nw, nh)) /\
    (x1 < x2 /\ y1 < y2 /\ 0 < (im_size cim).1 /\ 0 < (im_size cim).2 /\
     size_ok (nw, nh) = true) /\
    let rim := mkImage (im_bands cim) (nw, nh) (lanczos cim (nw, nh)) in
    let box := (paste_x align x1 x2 padding (region x1 x2 padding) nw,
                paste_y valign y1 y2 padding (region y1 y2 padding) nh) in
    let alpha := keep_alpha && bool_decide ("A"%string ∈ im_bands cim) in
    let final := composed cv rim box alpha x in
    png_encode final = Some b /\
    heap (world_of run) !! img = Some final /\
    (length (heap w) <= img)%nat /\
    resized_to (events_of run) = [(nw, nh)] /\
    pastes (events_of run) =
      (img, resized, box, if alpha then Some resized else None) ::
      match x with
      | Some _ => [(img, ov, (0, 0), Some ov)]
      | None => []
      end /\
    printed (events_of run) = match image_overlay, x with
                              | Some _, None => [warning]
                              | _, _ => []
                              end /\
    exists pre, events_of run = pre ++ [EvSave img].
Proof.
  intros Hc Hov run H. pose proof (run_eta run) as E. rewrite H in E.
  unfold run in E at 1.
  destruct (run_ok _ _ _ _ _ _ _ _ _ _ _ _ _ _ _ _ E)
    as (img0 & w1 & t1 & o & w2 & t2 & cim' & scale & nw & nh & base & t4 & final0
        & Hcan & Ho & Hx & Hy & Hc' & Hcw & Hch & Hfit & Hnw & Hnh & _).
  destruct (open_canvas_load _ _ _ _ _ Hcan) as (cv & Hload & _).
  pose proof (open_canvas_loads _ _ _ _ _ Hcan) as L1.
  pose proof (open_overlay_loads _ _ _ _ _ Ho) as L2.
  pose proof (loads_lookup _ _ _ _ _ L2 (loads_lookup _ _ _ _ _ L1 Hc)) as Hc2.
  assert (cim' = cim) by congruence. subst cim'.
  assert (Hok : size_ok (nw, nh) = true).
  { unfold size_ok. cbn [fst snd].
    repeat (apply andb_true_intro; split); apply Z.leb_le; lia. }
  destruct (routine_run image_source x1 y1 x2 y2 content align valign padding
              allow_upscale keep_alpha image_overlay w cv cim x scale nw nh
              Hload Hc Hov Hx Hy Hcw Hch Hfit Hok)
    as (img & resized & ov & w' & t & Hrun & Hfin & Himg & Hr & Hp & Hpr & Hpre).
  fold run in Hrun. rewrite Hrun in H |- *. unfold result_of in H. cbn [fst] in H.
  exists cv, scale, nw, nh, img, resized, ov.
  split; [exact Hload |]. split; [exact Hfit |]. split; [auto |]. cbv zeta.
  unfold world_of, events_of. cbn [fst snd].
  split; [destruct (png_encode _); congruence |].
  repeat (split; [assumption |]). exact Hpre.
Qed.

(** X1 (a valid call gets to the resize).  When the canvas and overlay
    arguments stand for images (the overlay may be absent or a path
    naming no file), the content is an image of a size Pillow holds, the
    region is valid and its inner width and height are at most
    [INT_MAX], then the checks and the arithmetic of the routine raise
    nothing: the scale and the size are computed, the size lies between
    1 and the inner width and height, and [resize] is called with it.
    What can still fail is a call into Pillow, never one of the three
    checks nor a division by zero; and when the call returns, it returns
    the encoding of the canvas image with the resized content pasted at
    the computed origin and the overlay pasted over it. *)
Theorem valid_call_reaches_resize (image_source : ImageArg) (x1 y1 x2 y2 : Z)
    (content : nat) (align valign : string) (padding : Z)
    (allow_upscale keep_alpha : bool) (image_overlay : option ImageArg)
    w (cv cim : Image Pixel) (x : option (Image Pixel)) :
  load w image_source = Some cv ->
  heap w !! content = Some cim ->
  overlay_of w image_overlay = Some x ->
  x1 < x2 -> y1 < y2 ->
  1 <= (im_size cim).1 <= INT_MAX -> 1 <= (im_size cim).2 <= INT_MAX ->
  (x2 - x1) - 2 * padding <= INT_MAX -> (y2 - y1) - 2 * padding <= INT_MAX ->
  let run := paste_image_auto image_source (x1, y1) (x2, y2) (Decoded content)
               align valign padding allow_upscale keep_alpha image_overlay w in
  let inner_width := Z.max 1 ((x2 - x1) - 2 * padding) in
  let inner_height := Z.max 1 ((y2 - y1) - 2 * padding) in
  exists scale nw nh,
    fit inner_width inner_height (im_size cim).1 (im_size cim).2 allow_upscale
      = Ok (scale, (nw, nh)) /\
    1 <= nw <= inner_width /\ 1 <= nh <= inner_height /\
    resized_to (events_of run) = [(nw, nh)] /\
    (forall e, result_of run = Raise e ->
       is_validation_error e = false /\ e <> ZeroDivisionError) /\
    let rim := mkImage (im_bands cim) (nw, nh) (lanczos cim (nw, nh)) in
    let box := (paste_x align x1 x2 padding inner_width nw,
                paste_y valign y1 y2 padding inner_height nh) in
    let alpha := keep_alpha && bool_decide ("A"%string ∈ im_bands cim) in
    let final := composed cv rim box alpha x in
    forall b, result_of run = Ok b -> png_encode final = Some b.
Proof.
  intros Hload Hc Hov Hx Hy Hcw Hch Hrw Hrh run inner_width inner_height.
  assert (Iw : 1 <= inner_width <= INT_MAX) by (unfold inner_width; unfold INT_MAX in *; lia).
  assert (Ih : 1 <= inner_height <= INT_MAX) by (unfold inner_height; unfold INT_MAX in *; lia).
  assert (P : INT_MAX < 2 ^ 1000) by (vm_compute; reflexivity).
  destruct (fit_total inner_width inner_height (im_size cim).1 (im_size cim).2
              allow_upscale ltac:(lia) ltac:(lia) Hcw Hch) as [[scale [nw nh]] Hfit].
  destruct (fit_within _ _ _ _ _ _ _ _ Iw Ih Hcw Hch Hfit) as [Hnw Hnh].
  assert (Hok : size_ok (nw, nh) = true).
  { unfold size_ok. cbn [fst snd].
    repeat (apply andb_true_intro; split); apply Z.leb_le; lia. }
  destruct (routine_run image_source x1 y1 x2 y2 content align valign padding
              allow_upscale keep_alpha image_overlay w cv cim x scale nw nh
              Hload Hc Hov Hx Hy ltac:(lia) ltac:(lia) Hfit Hok)
    as (img & resized & ov & w' & t & Hrun & Hfin & Himg & Hr & Hp & Hpr & Hpre).
  fold run in Hrun.
  exists scale, nw, nh. split; [exact Hfit |].
  split; [exact Hnw |]. split; [exact Hnh |]. rewrite Hrun.
  unfold result_of, events_of. cbn [fst snd]. split; [exact Hr |].
  cbv zeta. fold (region x1 x2 padding) (region y1 y2 padding).
  destruct (png_encode _) as [b0 |].
  - split; [discriminate | intros b [= <-]; reflexivity].
  - split; [intros e [= <-]; split; [reflexivity | discriminate] | discriminate].
Qed.

Lemma draw_overlay_format (img : nat) (image_overlay : option ImageArg)
    (o : option nat) (h : list (Image Pixel)) f (mid final : Image Pixel) w' t :
  (img < length h)%nat ->
  draw_overlay img image_overlay o (mkWorld (<[img := mid]> h) f) = (Ok tt, w', t) ->
  heap w' !! img = Some final ->
  im_size final = im_size mid /\ im_bands final = im_bands mid.
Proof.
  intros Hlt. rewrite draw_overlay_run.
  assert (Hmid : (<[img := mid]> h) !! img = Some mid)
    by (apply list_lookup_insert_eq; lia).
  destruct image_overlay as [a |]; [destruct o as [ov |] |].
  - rewrite paste_run. cbn [heap]. rewrite Hmid.
    destruct (_ !! ov) as [ovim |]; [| discriminate].
    intros [= <- <-]. cbn [heap].
    rewrite list_lookup_insert_eq by (rewrite length_insert; lia).
    intros [= <-]. auto.
  - intros [= <- <-]. cbn [heap]. rewrite Hmid. intros [= <-]. auto.
  - intros [= <- <-]. cbn [heap]. rewrite Hmid. intros [= <-]. auto.
Qed.

(** X2 (the output has the format of the canvas).  In every call that
    returns, the image that is encoded has the size and the bands of the
    canvas the call started from: those of the caller's image when the
    canvas is given decoded, and the size of the file's image with the
    bands R, G, B, A when it is given as a path.  Neither the region nor
    the content nor the overlay changes them. *)
Theorem output_keeps_canvas_format (image_source : ImageArg) (x1 y1 x2 y2 : Z)
    (content : nat) (align valign : string) (padding : Z)
    (allow_upscale keep_alpha : bool) (image_overlay : option ImageArg) w b :
  let run := paste_image_auto image_source (x1, y1) (x2, y2) (Decoded content)
               align valign padding allow_upscale keep_alpha image_overlay w in
  result_of run = Ok b ->
  exists cv img final,
    load w image_source = Some cv /\
    heap (world_of run) !! img = Some final /\ png_encode final = Some b /\
    im_size final = im_size cv /\ im_bands final = im_bands cv /\
    match image_source with
    | Decoded canvas => heap w !! canvas = Some cv
    | Path p =>
        im_bands final = ["R"; "G"; "B"; "A"]%string /\
        exists im, files w !! p = Some (Some im) /\ im_size final = im_size im
    end.
Proof.
  intros run H. pose proof (run_eta run) as E. rewrite H in E.
  remember (world_of run) as w' eqn:Ew. unfold run in E.
  destruct (run_ok _ _ _ _ _ _ _ _ _ _ _ _ _ _ _ _ E)
    as (img & w1 & t1 & o & w2 & t2 & cim & scale & nw & nh & base & t4 & final
        & Hcan & Ho & _ & _ & _ & _ & _ & _ & _ & _ & Hb & Hdraw & Hfin & Henc & _).
  cbv zeta in Hdraw.
  destruct (open_canvas_load _ _ _ _ _ Hcan) as (cv & Hload & Hcv).
  pose proof (open_overlay_loads _ _ _ _ _ Ho) as L2.
  pose proof (loads_lookup _ _ _ _ _ L2 Hcv) as Hcv2.
  assert (base = cv) by congruence. subst base.
  assert (Hlt : (img < length (heap w2 ++ [mkImage (im_bands cim) (nw, nh)
                                             (lanczos cim (nw, nh))]))%nat).
  { rewrite length_app. apply lookup_lt_Some in Hb. lia. }
  destruct (draw_overlay_format _ _ _ _ _ _ _ _ _ Hlt Hdraw Hfin) as [Hs Hbd].
  cbn [pasted im_size im_bands] in Hs, Hbd.
  exists cv, img, final.
  repeat (split; [assumption |]).
  destruct image_source as [p | canvas]; cbn [load] in Hload.
  - destruct (files w !! p) as [[im |] |]; try discriminate.
    injection Hload as <-. cbn [im_bands im_size] in *.
    split; [exact Hbd |]. eauto.
  - exact Hload.
Qed.

(** X3 (the overlay goes on top).  In a returning call whose overlay
    argument stands for an image, exactly two pastes are made onto the
    canvas copy, the content first and the overlay second, the overlay at
    [(0, 0)] with itself as the mask, and nothing is printed.  In the
    encoded image a pixel under an overlay pixel of mask value 255 is the
    overlay pixel, whatever the content put there; under mask value 0,
    and outside the overlay, it is the pixel left by the content
    paste. *)
Theorem overlay_on_top {L : RasterLaws R}
    (image_source : ImageArg) (x1 y1 x2 y2 : Z) (content : nat)
    (align valign : string) (padding : Z) (allow_upscale keep_alpha : bool)
    (image_overlay : option ImageArg) w (cim ovim : Image Pixel) b :
  heap w !! content = Some cim ->
  overlay_of w image_overlay = Some (Some ovim) ->
  let run := paste_image_auto image_source (x1, y1) (x2, y2) (Decoded content)
               align valign padding allow_upscale keep_alpha image_overlay w in
  result_of run = Ok b ->
  exists cv scale nw nh img resized ov final,
    load w image_source = Some cv /\
    fit (region x1 x2 padding) (region y1 y2 padding)
        (im_size cim).1 (im_size cim).2 allow_upscale = Ok (scale, (nw, nh)) /\
    let rim := mkImage (im_bands cim) (nw, nh) (lanczos cim (nw, nh)) in
    let box := (paste_x align x1 x2 padding (region x1 x2 padding) nw,
                paste_y valign y1 y2 padding (region y1 y2 padding) nh) in
    let alpha := keep_alpha && bool_decide ("A"%string ∈ im_bands cim) in
    let mid := pasted cv rim box (if alpha then Some rim else None) in
    pastes (events_of run) =
      [(img, resized, box, if alpha then Some resized else None);
       (img, ov, (0, 0), Some ov)] /\
    printed (events_of run) = [] /\
    heap (world_of run) !! img = Some final /\ png_encode final = Some b /\
    final = pasted mid ovim (0, 0) (Some ovim) /\
    (forall x y,
       0 <= x < (im_size ovim).1 -> 0 <= y < (im_size ovim).2 ->
       let a := mask_value (im_bands ovim) (im_data ovim x y) in
       (a = 255 -> im_data final x y =
                   adapt (im_bands cv) (im_bands ovim) (im_data ovim x y)) /\
       (a = 0 -> im_data final x y = im_data mid x y)) /\
    (forall x y,
       ~ (0 <= x < (im_size ovim).1 /\ 0 <= y < (im_size ovim).2) ->
       im_data final x y = im_data mid x y).
Proof.
  intros Hc Hov run H.
  destruct (run_returns image_source x1 y1 x2 y2 content align valign padding
              allow_upscale keep_alpha image_overlay w cim (Some ovim) b Hc Hov H)
    as (cv & scale & nw & nh & img & resized & ov & Hload & Hfit & _ & Henc & Hfin
        & _ & _ & Hp & Hpr & _).
  fold run in Hfin, Hp, Hpr. cbv zeta in Henc, Hfin, Hp, Hpr.
  exists cv, scale, nw, nh, img, resized, ov. eexists.
  split; [exact Hload |]. split; [exact Hfit |]. cbv zeta.
  split; [exact Hp |].
  split; [destruct image_overlay; exact Hpr |].
  split; [exact Hfin |]. split; [exact Henc |].
  split; [reflexivity |].
  unfold composed.
  set (mid := pasted cv _ _ _).
  split.
  - intros x y Hx Hy.
    rewrite (pasted_inside mid ovim (0, 0) (Some ovim) x y)
      by (cbn [fst snd]; lia).
    cbv zeta. cbn [fst snd]. rewrite !Z.sub_0_r.
    split; intros ->; [apply mix_opaque | apply mix_transparent].
  - intros x y Hout. apply pasted_outside. cbn [fst snd]. rewrite !Z.sub_0_r.
    exact Hout.
Qed.

(** X4 (an alignment that is not recognised).  The alignment is not
    checked: any value of [align] other than left and center is treated
    as right, and any value of [valign] other than top and middle as
    bottom, the call being in every respect the call with that value. *)
Theorem unknown_alignment_defaults (image_source : ImageArg)
    (top_left bottom_right : Z * Z) (content_image : ImageArg)
    (align valign : string) (padding : Z) (allow_upscale keep_alpha : bool)
    (image_overlay : option ImageArg) w (a v : string) :
  a <> "left"%string -> a <> "center"%string ->
  v <> "top"%string -> v <> "middle"%string ->
  paste_image_auto image_source top_left bottom_right content_image
    a valign padding allow_upscale keep_alpha image_overlay w =
  paste_image_auto image_source top_left bottom_right content_image
    "right" valign padding allow_upscale keep_alpha image_overlay w /\
  paste_image_auto image_source top_left bottom_right content_image
    align v padding allow_upscale keep_alpha image_overlay w =
  paste_image_auto image_source top_left bottom_right content_image
    align "bottom" padding allow_upscale keep_alpha image_overlay w.
Proof.
  intros Ha1 Ha2 Hv1 Hv2.
  apply String.eqb_neq in Ha1, Ha2, Hv1, Hv2.
  assert (Ex : paste_x a = paste_x "right").
  { unfold paste_x. rewrite Ha1, Ha2. reflexivity. }
  assert (Ey : paste_y v = paste_y "bottom").
  { unfold paste_y. rewrite Hv1, Hv2. reflexivity. }
  unfold paste_image_auto, fit_and_paste. rewrite Ex, Ey. split; reflexivity.
Qed.

Lemma paste_x_cases (align : string) (x1 x2 padding rw nw : Z) :
  let px := paste_x align x1 x2 padding rw nw in
  px = x1 + padding \/
  (px = x1 + padding + (rw - nw) / 2 /\ align = "center"%string) \/
  px = x2 - padding - nw.
Proof.
  cbv zeta. unfold paste_x, Py.floordiv.
  destruct (String.eqb_spec align "left"); [auto |].
  destruct (String.eqb_spec align "center"); auto.
Qed.

Lemma paste_y_cases (valign : string) (y1 y2 padding rh nh : Z) :
  let py := paste_y valign y1 y2 padding rh nh in
  py = y1 + padding \/
  (py = y1 + padding + (rh - nh) / 2 /\ valign = "middle"%string) \/
  py = y2 - padding - nh.
Proof.
  cbv zeta. unfold paste_y, Py.floordiv.
  destruct (String.eqb_spec valign "top"); [auto |].
  destruct (String.eqb_spec valign "middle"); auto.
Qed.

(** X5 (the content stays inside the inner region).  In a returning call
    whose padding leaves an inner region (twice the padding is less than
    the width and the height of the rectangle), the pasted rectangle lies
    inside the rectangle shrunk by the padding, whatever the alignment,
    hence inside the given rectangle when the padding is not negative;
    and centring leaves margins that differ by at most one pixel, the
    larger one on the right and at the bottom. *)
Theorem content_inside_inner_region (image_source : ImageArg) (x1 y1 x2 y2 : Z)
    (content : nat) (align valign : string) (padding : Z)
    (allow_upscale keep_alpha : bool) (image_overlay : option ImageArg)
    w (cim : Image Pixel) b :
  heap w !! content = Some cim ->
  wf_size (im_size cim) ->
  2 * padding < x2 - x1 -> 2 * padding < y2 - y1 ->
  let run := paste_image_auto image_source (x1, y1) (x2, y2) (Decoded content)
               align valign padding allow_upscale keep_alpha image_overlay w in
  result_of run = Ok b ->
  exists nw nh img resized mask rest px py,
    resized_to (events_of run) = [(nw, nh)] /\
    pastes (events_of run) = (img, resized, (px, py), mask) :: rest /\
    x1 + padding <= px /\ px + nw <= x2 - padding /\
    y1 + padding <= py /\ py + nh <= y2 - padding /\
    (0 <= padding -> x1 <= px /\ px + nw <= x2 /\ y1 <= py /\ py + nh <= y2) /\
    (align = "center"%string ->
       0 <= ((x2 - padding) - (px + nw)) - (px - (x1 + padding)) <= 1) /\
    (valign = "middle"%string ->
       0 <= ((y2 - padding) - (py + nh)) - (py - (y1 + padding)) <= 1).
Proof.
  intros Hc [Hw Hh] Px Py run H.
  destruct (run_geometry image_source x1 y1 x2 y2 content align valign padding
              allow_upscale keep_alpha image_overlay w b H)
    as (cim' & scale & nw & nh & img & resized & mask & rest
        & Hcim & Hx & Hy & Hcw & Hch & Hfit & Hnw & Hnh & Hr & Hp).
  rewrite <- (Hcim _ Hc) in *. clear Hcim.
  fold run in Hr, Hp.
  assert (Rw : region x1 x2 padding = x2 - x1 - 2 * padding) by (unfold region; lia).
  assert (Rh : region y1 y2 padding = y2 - y1 - 2 * padding) by (unfold region; lia).
  eapply fit_contain in Hfit as (Lw & Lh & _); [| unfold region; lia ..].
  exists nw, nh, img, resized, mask, rest. eexists _, _.
  split; [exact Hr |]. split; [exact Hp |].
  set (rw := region x1 x2 padding) in *. set (rh := region y1 y2 padding) in *.
  pose proof (Z.div_mod (rw - nw) 2 ltac:(lia)) as Dw.
  pose proof (Z.mod_pos_bound (rw - nw) 2 ltac:(lia)) as Mw.
  pose proof (Z.div_mod (rh - nh) 2 ltac:(lia)) as Dh.
  pose proof (Z.mod_pos_bound (rh - nh) 2 ltac:(lia)) as Mh.
  assert (Cx : paste_x "center" x1 x2 padding rw nw = x1 + padding + (rw - nw) / 2)
    by reflexivity.
  assert (Cy : paste_y "middle" y1 y2 padding rh nh = y1 + padding + (rh - nh) / 2)
    by reflexivity.
  destruct (paste_x_cases align x1 x2 padding rw nw) as [Ex | [[Ex _] | Ex]];
    destruct (paste_y_cases valign y1 y2 padding rh nh) as [Ey | [[Ey _] | Ey]];
    rewrite Ex, Ey;
    (do 4 (split; [lia |]));
    (split; [intros ?; lia |]);
    (split; [intros ->; rewrite Cx in Ex; lia | intros ->; rewrite Cy in Ey; lia]).
Qed.

(** X6 (a padding that uses up the rectangle).  When twice the padding
    leaves at most one pixel of the width of the rectangle, the inner
    width is 1 and a returning call has resized the content to the width
    1; alike for the height. *)
Theorem excess_padding_collapses (image_source : ImageArg) (x1 y1 x2 y2 : Z)
    (content : nat) (align valign : string) (padding : Z)
    (allow_upscale keep_alpha : bool) (image_overlay : option ImageArg)
    w (cim : Image Pixel) b :
  heap w !! content = Some cim ->
  wf_size (im_size cim) ->
  let run := paste_image_auto image_source (x1, y1) (x2, y2) (Decoded content)
               align valign padding allow_upscale keep_alpha image_overlay w in
  result_of run = Ok b ->
  exists nw nh,
    resized_to (events_of run) = [(nw, nh)] /\
    ((x2 - x1) - 2 * padding <= 1 -> region x1 x2 padding = 1 /\ nw = 1) /\
    ((y2 - y1) - 2 * padding <= 1 -> region y1 y2 padding = 1 /\ nh = 1).
Proof.
  intros Hc [Hw Hh] run H.
  destruct (run_geometry image_source x1 y1 x2 y2 content align valign padding
              allow_upscale keep_alpha image_overlay w b H)
    as (cim' & scale & nw & nh & img & resized & mask & rest
        & Hcim & Hx & Hy & Hcw & Hch & Hfit & Hnw & Hnh & Hr & Hp).
  rewrite <- (Hcim _ Hc) in *. clear Hcim.
  eapply fit_contain in Hfit as (Lw & Lh & _); [| unfold region; lia ..].
  exists nw, nh. split; [exact Hr |].
  unfold region in *. split; intros; lia.
Qed.

(** X7 (no enlargement without upscaling).  In every returning call with
    upscaling off, the scale is at most 1 and the content is resized to
    no more than its own width and height. *)
Theorem never_enlarged_without_upscale (image_source : ImageArg) (x1 y1 x2 y2 : Z)
    (content : nat) (align valign : string) (padding : Z)
    (keep_alpha : bool) (image_overlay : option ImageArg)
    w (cim : Image Pixel) b :
  heap w !! content = Some cim ->
  wf_size (im_size cim) ->
  let run := paste_image_auto image_source (x1, y1) (x2, y2) (Decoded content)
               align valign padding false keep_alpha image_overlay w in
  result_of run = Ok b ->
  exists scale nw nh,
    fit (region x1 x2 padding) (region y1 y2 padding)
        (im_size cim).1 (im_size cim).2 false = Ok (scale, (nw, nh)) /\
    resized_to (events_of run) = [(nw, nh)] /\
    (scale <= 1)%Q /\ 1 <= nw <= (im_size cim).1 /\ 1 <= nh <= (im_size cim).2.
Proof.
  intros Hc [Hw Hh] run H.
  destruct (run_geometry image_source x1 y1 x2 y2 content align valign padding
              false keep_alpha image_overlay w b H)
    as (cim' & scale & nw & nh & img & resized & mask & rest
        & Hcim & Hx & Hy & Hcw & Hch & Hfit & Hnw & Hnh & Hr & Hp).
  rewrite <- (Hcim _ Hc) in *. clear Hcim.
  exists scale, nw, nh. split; [exact Hfit |]. split; [exact Hr |].
  eapply fit_shrinks; [| | | | exact Hfit]; unfold region; lia.
Qed.

(** X8 (a content with the proportions of the inner region fills it).
    When the inner width is to the inner height as the content width is
    to the content height, and upscaling is allowed or the content is at
    least as wide as the inner region, a returning call has resized the
    content to exactly the inner width and height: the two roundings to
    binary64 and the rounding to an integer lose nothing. *)
Theorem proportional_content_fills (image_source : ImageArg) (x1 y1 x2 y2 : Z)
    (content : nat) (align valign : string) (padding : Z)
    (allow_upscale keep_alpha : bool) (image_overlay : option ImageArg)
    w (cim : Image Pixel) b :
  heap w !! content = Some cim ->
  wf_size (im_size cim) ->
  let inner_width := Z.max 1 ((x2 - x1) - 2 * padding) in
  let inner_height := Z.max 1 ((y2 - y1) - 2 * padding) in
  inner_width * (im_size cim).2 = inner_height * (im_size cim).1 ->
  allow_upscale = true \/ inner_width <= (im_size cim).1 ->
  let run := paste_image_auto image_source (x1, y1) (x2, y2) (Decoded content)
               align valign padding allow_upscale keep_alpha image_overlay w in
  result_of run = Ok b ->
  resized_to (events_of run) = [(inner_width, inner_height)].
Proof.
  intros Hc [Hw Hh] inner_width inner_height Hprop Hup run H.
  destruct (run_geometry image_source x1 y1 x2 y2 content align valign padding
              allow_upscale keep_alpha image_overlay w b H)
    as (cim' & scale & nw & nh & img & resized & mask & rest
        & Hcim & Hx & Hy & Hcw & Hch & Hfit & Hnw & Hnh & Hr & Hp).
  rewrite <- (Hcim _ Hc) in *. clear Hcim.
  fold run in Hr. rewrite Hr.
  unfold region in Hfit. fold inner_width inner_height in Hfit.
  destruct (fit_fills inner_width inner_height (im_size cim).1 (im_size cim).2
              allow_upscale scale nw nh) as [-> ->]; auto;
    unfold inner_width, inner_height; lia.
Qed.

Lemma bind_ext_at {A B} (m : M A) (k1 k2 : A -> M B) w :
  (forall a w1 t1, m w = (Ok a, w1, t1) -> k1 a w1 = k2 a w1) ->
  bind m k1 w = bind m k2 w.
Proof.
  intros H. unfold bind. destruct (m w) as [[[a | e] w1] t1]; [| reflexivity].
  rewrite (H a w1 t1 eq_refl). reflexivity.
Qed.

(** X9 ([keep_alpha] without an alpha band).  For a content image that
    has no band A, [keep_alpha] changes nothing: the calls with
    [keep_alpha] on and off end alike, with the same result, objects and
    calls, the paste being made without a mask in both. *)
Theorem keep_alpha_needs_alpha_band (image_source : ImageArg)
    (top_left bottom_right : Z * Z) (content : nat)
    (align valign : string) (padding : Z) (allow_upscale : bool)
    (image_overlay : option ImageArg) w (cim : Image Pixel) :
  heap w !! content = Some cim ->
  "A"%string ∉ im_bands cim ->
  paste_image_auto image_source top_left bottom_right (Decoded content)
    align valign padding allow_upscale true image_overlay w =
  paste_image_auto image_source top_left bottom_right (Decoded content)
    align valign padding allow_upscale false image_overlay w.
Proof.
  intros Hc Hno. destruct top_left as [x1 y1], bottom_right as [x2 y2].
  rewrite !run_decoded.
  destruct (open_canvas image_source w) as [[[img | e] w1] t1] eqn:Hcan;
    [| reflexivity].
  destruct (open_overlay image_overlay w1) as [[[o | e] w2] t2] eqn:Ho;
    [| reflexivity].
  pose proof (loads_lookup _ _ _ _ _ (open_overlay_loads _ _ _ _ _ Ho)
                (loads_lookup _ _ _ _ _ (open_canvas_loads _ _ _ _ _ Hcan) Hc))
    as Hc2.
  destruct (negb _); [reflexivity |]. rewrite Hc2.
  destruct (_ || _); [reflexivity |].
  assert (E : fit_and_paste img o content (im_size cim).1 (im_size cim).2
                x1 y1 x2 y2 align valign padding allow_upscale true
                image_overlay w2 =
              fit_and_paste img o content (im_size cim).1 (im_size cim).2
                x1 y1 x2 y2 align valign padding allow_upscale false
                image_overlay w2).
  { unfold fit_and_paste.
    apply bind_ext_at. intros [scale [nw nh]] w3 t3 Hf. cbn [snd].
    injection Hf as _ <- _.
    apply bind_ext_at. intros resized w4 t4 Hr.
    rewrite resize_run, Hc2 in Hr.
    destruct (size_ok (nw, nh)); [| discriminate]. injection Hr as <- <- <-.
    apply bind_ext_at. intros rim w5 t5 Hd.
    unfold deref in Hd. cbn [heap] in Hd.
    rewrite lookup_app_r in Hd by lia. rewrite Nat.sub_diag in Hd. cbn in Hd.
    injection Hd as <- <- <-. cbn [im_bands].
    rewrite bool_decide_eq_false_2 by exact Hno. reflexivity. }
  rewrite E. reflexivity.
Qed.

(** X10 ([allow_upscale] for a content larger than the region).  When
    the content is wider than the inner width or higher than the inner
    height, the scale is below 1 and [allow_upscale] changes nothing: the
    calls with it on and off end alike. *)
Theorem upscale_flag_needs_small_content (image_source : ImageArg)
    (x1 y1 x2 y2 : Z) (content : nat)
    (align valign : string) (padding : Z) (keep_alpha : bool)
    (image_overlay : option ImageArg) w (cim : Image Pixel) :
  heap w !! content = Some cim ->
  wf_size (im_size cim) ->
  Z.max 1 ((x2 - x1) - 2 * padding) < (im_size cim).1 \/
  Z.max 1 ((y2 - y1) - 2 * padding) < (im_size cim).2 ->
  paste_image_auto image_source (x1, y1) (x2, y2) (Decoded content)
    align valign padding true keep_alpha image_overlay w =
  paste_image_auto image_source (x1, y1) (x2, y2) (Decoded content)
    align valign padding false keep_alpha image_overlay w.
Proof.
  intros Hc [Hw Hh] Hlt.
  rewrite !run_decoded.
  destruct (open_canvas image_source w) as [[[img | e] w1] t1] eqn:Hcan;
    [| reflexivity].
  destruct (open_overlay image_overlay w1) as [[[o | e] w2] t2] eqn:Ho;
    [| reflexivity].
  pose proof (loads_lookup _ _ _ _ _ (open_overlay_loads _ _ _ _ _ Ho)
                (loads_lookup _ _ _ _ _ (open_canvas_loads _ _ _ _ _ Hcan) Hc))
    as Hc2.
  destruct (negb _); [reflexivity |]. rewrite Hc2.
  destruct ((im_size cim).1 <=? 0) eqn:Ecw; [reflexivity |].
  destruct ((im_size cim).2 <=? 0) eqn:Ech; [reflexivity |]. cbn [orb].
  apply Z.leb_gt in Ecw, Ech.
  unfold fit_and_paste.
  rewrite (fit_upscale_irrelevant (region x1 x2 padding) (region y1 y2 padding)
             (im_size cim).1 (im_size cim).2); unfold region; try lia.
  reflexivity.
Qed.

(** X11 (a canvas file that cannot be read).  When the canvas is given
    as a path that names no file, or a file that does not decode, the
    call fails in [Image.open], before anything else is looked at: no
    object is created, and the region and the content are not
    checked. *)
Theorem unreadable_canvas_raises (p : string)
    (top_left bottom_right : Z * Z) (content : nat)
    (align valign : string) (padding : Z) (allow_upscale keep_alpha : bool)
    (image_overlay : option ImageArg) w :
  load w (Path p) = None ->
  paste_image_auto (Path p) top_left bottom_right (Decoded content)
    align valign padding allow_upscale keep_alpha image_overlay w =
  (Raise DecodeFailure, w, [EvOpen p]).
Proof.
  intros H. destruct top_left as [x1 y1], bottom_right as [x2 y2].
  rewrite run_decoded, open_canvas_run. cbn [load] in H.
  destruct (files w !! p) as [[im |] |]; [discriminate | reflexivity ..].
Qed.

(** X12 (an overlay file that does not decode).  Unlike a path that
    names no file, an overlay path that names a file which does not
    decode makes the call fail, once the canvas is loaded: nothing is
    resized, pasted or printed, whatever the region and the content
    are. *)
Theorem undecodable_overlay_raises (image_source : ImageArg)
    (top_left bottom_right : Z * Z) (content : nat)
    (align valign : string) (padding : Z) (allow_upscale keep_alpha : bool)
    (p : string) w (cv : Image Pixel) :
  load w image_source = Some cv ->
  files w !! p = Some None ->
  let run := paste_image_auto image_source top_left bottom_right (Decoded content)
               align valign padding allow_upscale keep_alpha (Some (Path p)) w in
  result_of run = Raise DecodeFailure /\
  resized_to (events_of run) = [] /\ pastes (events_of run) = [] /\
  printed (events_of run) = [] /\
  exists pre, events_of run = pre ++ [EvOpen p].
Proof.
  intros Hload Hp run. subst run.
  destruct top_left as [x1 y1], bottom_right as [x2 y2].
  destruct (load_open_canvas _ _ _ Hload) as (img & w1 & t1 & Hcan & _).
  destruct (open_canvas_loads _ _ _ _ _ Hcan) as (_ & Hf & L1).
  destruct (loads_draws_nothing _ L1) as (R1 & P1 & Q1).
  rewrite run_decoded, Hcan, open_overlay_run, Hf, Hp.
  unfold result_of, events_of. cbn [fst snd].
  rewrite resized_to_app, pastes_app, printed_app, R1, P1, Q1.
  repeat (split; [reflexivity |]). eauto.
Qed.

Lemma draw_overlay_printed (img : nat) (image_overlay : option ImageArg)
    (o : option nat) w w' t :
  draw_overlay img image_overlay o w = (Ok tt, w', t) ->
  printed t = match image_overlay, o with
              | Some _, None => [warning]
              | _, _ => []
              end.
Proof.
  rewrite draw_overlay_run. destruct image_overlay as [a |]; [destruct o as [ov |] |].
  - rewrite paste_run.
    destruct (heap w !! img); [| discriminate].
    destruct (heap w !! ov); [| discriminate].
    intros [= _ <-]. reflexivity.
  - intros [= _ <-]. reflexivity.
  - intros [= _ <-]. destruct o; reflexivity.
Qed.

(** X13 (when the warning is printed).  A returning call has printed the
    warning, once, exactly when the overlay argument is a path that
    names no file; with no overlay argument, a decoded overlay or an
    overlay file that was read, it has printed nothing. *)
Theorem warning_only_for_missing_overlay (image_source : ImageArg)
    (x1 y1 x2 y2 : Z) (content : nat)
    (align valign : string) (padding : Z) (allow_upscale keep_alpha : bool)
    (image_overlay : option ImageArg) w b :
  let run := paste_image_auto image_source (x1, y1) (x2, y2) (Decoded content)
               align valign padding allow_upscale keep_alpha image_overlay w in
  result_of run = Ok b ->
  printed (events_of run) =
    match image_overlay with
    | Some (Path p) => if bool_decide (is_Some (files w !! p)) then [] else [warning]
    | _ => []
    end.
Proof.
  intros run H. pose proof (run_eta run) as E. rewrite H in E.
  remember (events_of run) as t eqn:Et. unfold run in E.
  destruct (run_ok _ _ _ _ _ _ _ _ _ _ _ _ _ _ _ _ E)
    as (img & w1 & t1 & o & w2 & t2 & cim & scale & nw & nh & base & t4 & final
        & Hcan & Ho & _ & _ & _ & _ & _ & _ & _ & _ & Hb & Hdraw & _ & _ & ->).
  cbv zeta in Hdraw.
  destruct (open_canvas_loads _ _ _ _ _ Hcan) as (_ & Hf & L1).
  destruct (open_overlay_loads _ _ _ _ _ Ho) as (_ & _ & L2).
  destruct (loads_draws_nothing _ L1) as (_ & _ & Q1).
  destruct (loads_draws_nothing _ L2) as (_ & _ & Q2).
  rewrite !printed_app, Q1, Q2.
  change (printed [EvSave img]) with (@nil string).
  change (printed [EvResize ?a ?b; EvPaste ?c ?d ?e ?f]) with (@nil string).
  rewrite app_nil_r. cbn [app].
  rewrite (draw_overlay_printed _ _ _ _ _ _ Hdraw).
  rewrite open_overlay_run in Ho.
  destruct image_overlay as [[p | r] |].
  - rewrite Hf in Ho. destruct (files w !! p) as [[im |] |] eqn:Ep.
    + rewrite bool_decide_eq_true_2 by eauto. injection Ho as <- _ _. reflexivity.
    + discriminate.
    + rewrite bool_decide_eq_false_2 by (intros [? ?]; discriminate).
      injection Ho as <- _ _. reflexivity.
  - destruct (heap w1 !! r); [| discriminate]. injection Ho as <- _ _. reflexivity.
  - destruct o; reflexivity.
Qed.





Lemma paste_x_inside (align : string) (x1 x2 padding nw : Z) :
  2 * padding < x2 - x1 -> nw <= region x1 x2 padding ->
  let px := paste_x align x1 x2 padding (region x1 x2 padding) nw in
  x1 + padding <= px /\ px + nw <= x2 - padding.
Proof.
  intros Hp Hn. cbv zeta.
  assert (Rw : region x1 x2 padding = x2 - x1 - 2 * padding) by (unfold region; lia).
  set (rw := region x1 x2 padding) in *.
  pose proof (Z.div_mod (rw - nw) 2 ltac:(lia)) as Dw.
  pose proof (Z.mod_pos_bound (rw - nw) 2 ltac:(lia)) as Mw.
  destruct (paste_x_cases align x1 x2 padding rw nw) as [E | [[E _] | E]];
    rewrite E; lia.
Qed.

Lemma paste_y_inside (valign : string) (y1 y2 padding nh : Z) :
  2 * padding < y2 - y1 -> nh <= region y1 y2 padding ->
  let py := paste_y valign y1 y2 padding (region y1 y2 padding) nh in
  y1 + padding <= py /\ py + nh <= y2 - padding.
Proof.
  intros Hp Hn. cbv zeta.
  assert (Rh : region y1 y2 padding = y2 - y1 - 2 * padding) by (unfold region; lia).
  set (rh := region y1 y2 padding) in *.
  pose proof (Z.div_mod (rh - nh) 2 ltac:(lia)) as Dh.
  pose proof (Z.mod_pos_bound (rh - nh) 2 ltac:(lia)) as Mh.
  destruct (paste_y_cases valign y1 y2 padding rh nh) as [E | [[E _] | E]];
    rewrite E; lia.
Qed.

(** X15 (only the inner region changes).  In a returning call that draws
    no overlay (none given, or a path that names no file) and whose
    padding leaves an inner region, every pixel of the encoded image
    outside the rectangle shrunk by the padding is the pixel of the
    canvas the call started from: the call draws inside the inner region
    only, whatever the alignment, the flags and the content. *)
Theorem only_the_inner_region_changes (image_source : ImageArg)
    (x1 y1 x2 y2 : Z) (content : nat) (align valign : string) (padding : Z)
    (allow_upscale keep_alpha : bool) (image_overlay : option ImageArg)
    w (cim : Image Pixel) b :
  heap w !! content = Some cim ->
  wf_size (im_size cim) ->
  overlay_of w image_overlay = Some None ->
  2 * padding < x2 - x1 -> 2 * padding < y2 - y1 ->
  let run := paste_image_auto image_source (x1, y1) (x2, y2) (Decoded content)
               align valign padding allow_upscale keep_alpha image_overlay w in
  result_of run = Ok b ->
  exists cv img final,
    load w image_source = Some cv /\
    heap (world_of run) !! img = Some final /\ png_encode final = Some b /\
    forall x y,
      ~ (x1 + padding <= x < x2 - padding /\ y1 + padding <= y < y2 - padding) ->
      im_data final x y = im_data cv x y.
Proof.
  intros Hc [Hw Hh] Hov Px Py run H.
  destruct (run_returns image_source x1 y1 x2 y2 content align valign padding
              allow_upscale keep_alpha image_overlay w cim None b Hc Hov H)
    as (cv & scale & nw & nh & img & resized & ov & Hload & Hfit
        & (Hx & Hy & Hcw & Hch & Hok) & Henc & Hfin & _).
  fold run in Hfin. cbv zeta in Henc, Hfin.
  unfold size_ok in Hok. cbn [fst snd] in Hok.
  apply andb_prop in Hok as [Hok Hok4]. apply andb_prop in Hok as [Hok Hok3].
  apply andb_prop in Hok as [Hok1 Hok2].
  apply Z.leb_le in Hok1, Hok2, Hok3, Hok4.
  eapply fit_contain in Hfit as (Lw & Lh & _); [| unfold region; lia ..].
  destruct (paste_x_inside align x1 x2 padding nw Px Lw) as [Bx1 Bx2].
  destruct (paste_y_inside valign y1 y2 padding nh Py Lh) as [By1 By2].
  eexists cv, img, _. split; [exact Hload |]. split; [exact Hfin |].
  split; [exact Henc |].
  intros x y Hout. unfold composed. apply pasted_outside.
  cbn [fst snd im_size]. lia.
Qed.

(** X16 (no shrinking of a content that fits).  In every returning call
    with upscaling on and a content no larger than the inner region, the
    scale is at least 1 and the content is resized to no less than its
    own width and height. *)
Theorem never_shrunk_when_it_fits (image_source : ImageArg) (x1 y1 x2 y2 : Z)
    (content : nat) (align valign : string) (padding : Z)
    (keep_alpha : bool) (image_overlay : option ImageArg)
    w (cim : Image Pixel) b :
  heap w !! content = Some cim ->
  wf_size (im_size cim) ->
  (im_size cim).1 <= Z.max 1 ((x2 - x1) - 2 * padding) ->
  (im_size cim).2 <= Z.max 1 ((y2 - y1) - 2 * padding) ->
  let run := paste_image_auto image_source (x1, y1) (x2, y2) (Decoded content)
               align valign padding true keep_alpha image_overlay w in
  result_of run = Ok b ->
  exists scale nw nh,
    fit (region x1 x2 padding) (region y1 y2 padding)
        (im_size cim).1 (im_size cim).2 true = Ok (scale, (nw, nh)) /\
    resized_to (events_of run) = [(nw, nh)] /\
    (1 <= scale)%Q /\ (im_size cim).1 <= nw /\ (im_size cim).2 <= nh.
Proof.
  intros Hc [Hw Hh] Fw Fh run H.
  destruct (run_geometry image_source x1 y1 x2 y2 content align valign padding
              true keep_alpha image_overlay w b H)
    as (cim' & scale & nw & nh & img & resized & mask & rest
        & Hcim & Hx & Hy & Hcw & Hch & Hfit & Hnw & Hnh & Hr & Hp).
  rewrite <- (Hcim _ Hc) in *. clear Hcim.
  exists scale, nw, nh. split; [exact Hfit |]. split; [exact Hr |].
  eapply fit_grows; [| | | | exact Hfit]; unfold region; lia.
Qed.
End FurtherProperties.

(** *** The further properties on concrete calls *)

Lemma valid_call_reaches_resize_witness :
  exists scale nw nh,
    fit 6 6 4 2 true = Ok (scale, (nw, nh)) /\
    1 <= nw <= 6 /\ 1 <= nh <= 6 /\
    resized_to (events_of (disk_run (Path "canvas.png") true true
                             (Some (Path "overlay.png")))) = [(nw, nh)] /\
    (forall e, result_of (disk_run (Path "canvas.png") true true
                            (Some (Path "overlay.png"))) = Raise e ->
       is_validation_error e = false /\ e <> ZeroDivisionError) /\
    let rim := mkImage (im_bands small_content) (nw, nh)
                 (lanczos small_content (nw, nh)) in
    let box := (paste_x "center" 1 7 0 6 nw, paste_y "middle" 1 7 0 6 nh) in
    let alpha := true && bool_decide ("A"%string ∈ im_bands small_content) in
    let final := composed disk_canvas rim box alpha (Some disk_overlay) in
    forall b, result_of (disk_run (Path "canvas.png") true true
                           (Some (Path "overlay.png"))) = Ok b ->
              png_encode final = Some b.
Proof.
  unfold disk_run.
  refine (valid_call_reaches_resize (Path "canvas.png") 1 1 7 7 1%nat
            "center" "middle" 0 true true (Some (Path "overlay.png")) disk_world
            disk_canvas small_content (Some disk_overlay) _ eq_refl _ _ _ _ _ _ _).
  - vm_compute. reflexivity.
  - vm_compute. reflexivity.
  - lia.
  - lia.
  - unfold INT_MAX. cbn. lia.
  - unfold INT_MAX. cbn. lia.
  - unfold INT_MAX. lia.
  - unfold INT_MAX. lia.
Defined.

(** That call returns, having resized the content to 6 by 3. *)
Example valid_call_example :
  (exists b, result_of (disk_run (Path "canvas.png") true true
                          (Some (Path "overlay.png"))) = Ok b) /\
  resized_to (events_of (disk_run (Path "canvas.png") true true
                           (Some (Path "overlay.png")))) = [(6, 3)].
Proof. split; [eexists |]; vm_compute; reflexivity. Qed.

Lemma output_keeps_canvas_format_witness :
  exists b,
    result_of (disk_run (Path "canvas.png") true true None) = Ok b /\
    exists cv img final,
      load disk_world (Path "canvas.png") = Some cv /\
      heap (world_of (disk_run (Path "canvas.png") true true None)) !! img
        = Some final /\
      png_encode final = Some b /\
      im_size final = im_size cv /\ im_bands final = im_bands cv /\
      (im_bands final = ["R"; "G"; "B"; "A"]%string /\
       exists im, files disk_world !! "canvas.png"%string = Some (Some im) /\
                  im_size final = im_size im).
Proof.
  eexists. split; [vm_compute; reflexivity |].
  unfold disk_run.
  refine (output_keeps_canvas_format (Path "canvas.png") 1 1 7 7 1%nat
            "center" "middle" 0 true true None disk_world _ _).
  vm_compute. reflexivity.
Defined.

Lemma overlay_on_top_witness :
  exists b,
    result_of (disk_run (Decoded 0%nat) true true (Some (Decoded 2%nat))) = Ok b /\
    exists cv scale nw nh img resized ov final,
      load disk_world (Decoded 0%nat) = Some cv /\
      fit (region 1 7 0) (region 1 7 0) 4 2 true = Ok (scale, (nw, nh)) /\
      let rim := mkImage (im_bands small_content) (nw, nh)
                   (lanczos small_content (nw, nh)) in
      let box := (paste_x "center" 1 7 0 (region 1 7 0) nw,
                  paste_y "middle" 1 7 0 (region 1 7 0) nh) in
      let alpha := true && bool_decide ("A"%string ∈ im_bands small_content) in
      let mid := pasted cv rim box (if alpha then Some rim else None) in
      pastes (events_of (disk_run (Decoded 0%nat) true true (Some (Decoded 2%nat)))) =
        [(img, resized, box, if alpha then Some resized else None);
         (img, ov, (0, 0), Some ov)] /\
      printed (events_of (disk_run (Decoded 0%nat) true true (Some (Decoded 2%nat))))
        = [] /\
      heap (world_of (disk_run (Decoded 0%nat) true true (Some (Decoded 2%nat))))
        !! img = Some final /\
      png_encode final = Some b /\
      final = pasted mid overlay_image (0, 0) (Some overlay_image) /\
      (forall x y,
         0 <= x < (im_size overlay_image).1 -> 0 <= y < (im_size overlay_image).2 ->
         let a := mask_value (im_bands overlay_image) (im_data overlay_image x y) in
         (a = 255 -> im_data final x y =
                     adapt (im_bands cv) (im_bands overlay_image)
                       (im_data overlay_image x y)) /\
         (a = 0 -> im_data final x y = im_data mid x y)) /\
      (forall x y,
         ~ (0 <= x < (im_size overlay_image).1 /\
            0 <= y < (im_size overlay_image).2) ->
         im_data final x y = im_data mid x y).
Proof.
  eexists. split; [vm_compute; reflexivity |].
  unfold disk_run.
  refine (overlay_on_top (L := demo_laws) (Decoded 0%nat) 1 1 7 7 1%nat
            "center" "middle" 0 true true (Some (Decoded 2%nat)) disk_world
            small_content overlay_image _ eq_refl eq_refl _).
  vm_compute. reflexivity.
Defined.

Lemma unknown_alignment_defaults_witness :
  disk_run_aligned "RIGHT" "middle" = disk_run_aligned "right" "middle" /\
  disk_run_aligned "center" "down" = disk_run_aligned "center" "bottom".
Proof.
  unfold disk_run_aligned.
  refine (unknown_alignment_defaults (Decoded 0%nat) (1, 1) (7, 7) (Decoded 1%nat)
            "center" "middle" 0 false true None disk_world "RIGHT" "down" _ _ _ _);
    discriminate.
Defined.

Lemma content_inside_inner_region_witness :
  exists nw nh img resized mask rest px py,
    resized_to (events_of (small_run false)) = [(nw, nh)] /\
    pastes (events_of (small_run false)) = (img, resized, (px, py), mask) :: rest /\
    1 + 0 <= px /\ px + nw <= 7 - 0 /\
    1 + 0 <= py /\ py + nh <= 7 - 0 /\
    (0 <= 0 -> 1 <= px /\ px + nw <= 7 /\ 1 <= py /\ py + nh <= 7) /\
    ("center"%string = "center"%string ->
       0 <= ((7 - 0) - (px + nw)) - (px - (1 + 0)) <= 1) /\
    ("middle"%string = "middle"%string ->
       0 <= ((7 - 0) - (py + nh)) - (py - (1 + 0)) <= 1).
Proof.
  unfold small_run.
  refine (content_inside_inner_region (Decoded 0%nat) 1 1 7 7 1%nat
            "center" "middle" 0 false true None small_world small_content _
            eq_refl _ _ _ _).
  - unfold wf_size, INT_MAX; cbn; lia.
  - lia.
  - lia.
  - vm_compute. reflexivity.
Defined.

Lemma excess_padding_collapses_witness :
  exists nw nh,
    resized_to (events_of (padded_run 3 false)) = [(nw, nh)] /\
    ((7 - 1) - 2 * 3 <= 1 -> region 1 7 3 = 1 /\ nw = 1) /\
    ((7 - 1) - 2 * 3 <= 1 -> region 1 7 3 = 1 /\ nh = 1).
Proof.
  unfold padded_run.
  refine (excess_padding_collapses (Decoded 0%nat) 1 1 7 7 1%nat
            "left" "top" 3 false true None small_world small_content _
            eq_refl _ _).
  - unfold wf_size, INT_MAX; cbn; lia.
  - vm_compute. reflexivity.
Defined.

Lemma never_enlarged_without_upscale_witness :
  exists scale nw nh,
    fit (region 1 7 0) (region 1 7 0) 4 2 false = Ok (scale, (nw, nh)) /\
    resized_to (events_of (small_run false)) = [(nw, nh)] /\
    (scale <= 1)%Q /\ 1 <= nw <= 4 /\ 1 <= nh <= 2.
Proof.
  unfold small_run.
  refine (never_enlarged_without_upscale (Decoded 0%nat) 1 1 7 7 1%nat
            "center" "middle" 0 true None small_world small_content _
            eq_refl _ _).
  - unfold wf_size, INT_MAX; cbn; lia.
  - vm_compute. reflexivity.
Defined.

Lemma proportional_content_fills_witness :
  resized_to
    (events_of
       (paste_image_auto (Decoded 0%nat) (1, 1) (7, 4) (Decoded 1%nat)
          "center" "middle" 0 true true None small_world)) = [(6, 3)].
Proof.
  refine (proportional_content_fills (Decoded 0%nat) 1 1 7 4 1%nat
            "center" "middle" 0 true true None small_world small_content _
            eq_refl _ _ _ _).
  - unfold wf_size, INT_MAX; cbn; lia.
  - reflexivity.
  - left. reflexivity.
  - vm_compute. reflexivity.
Defined.

Lemma keep_alpha_needs_alpha_band_witness :
  paste_image_auto (Decoded 0%nat) (0, 0) (2, 2) (Decoded 1%nat)
    "center" "middle" 0 false true None thin_world =
  paste_image_auto (Decoded 0%nat) (0, 0) (2, 2) (Decoded 1%nat)
    "center" "middle" 0 false false None thin_world.
Proof.
  refine (keep_alpha_needs_alpha_band (Decoded 0%nat) (0, 0) (2, 2) 1%nat
            "center" "middle" 0 false None thin_world thin_content eq_refl _).
  intros H%list_elem_of_singleton. discriminate H.
Defined.

Lemma upscale_flag_needs_small_content_witness :
  paste_image_auto (Decoded 0%nat) (0, 0) (2, 2) (Decoded 1%nat)
    "center" "middle" 0 true true None thin_world =
  paste_image_auto (Decoded 0%nat) (0, 0) (2, 2) (Decoded 1%nat)
    "center" "middle" 0 false true None thin_world.
Proof.
  refine (upscale_flag_needs_small_content (Decoded 0%nat) 0 0 2 2 1%nat
            "center" "middle" 0 true None thin_world thin_content eq_refl _ _).
  - unfold wf_size, INT_MAX; cbn; lia.
  - left. cbn. lia.
Defined.

Lemma unreadable_canvas_raises_witness :
  disk_run (Path "nothing.png") true true None
    = (Raise DecodeFailure, disk_world, [EvOpen "nothing.png"]).
Proof.
  unfold disk_run.
  refine (unreadable_canvas_raises "nothing.png" (1, 1) (7, 7) 1%nat
            "center" "middle" 0 true true None disk_world _).
  vm_compute. reflexivity.
Defined.

Lemma undecodable_overlay_raises_witness :
  result_of (disk_run (Decoded 0%nat) true true (Some (Path "broken.png")))
    = Raise DecodeFailure /\
  resized_to (events_of (disk_run (Decoded 0%nat) true true
                           (Some (Path "broken.png")))) = [] /\
  pastes (events_of (disk_run (Decoded 0%nat) true true
                       (Some (Path "broken.png")))) = [] /\
  printed (events_of (disk_run (Decoded 0%nat) true true
                        (Some (Path "broken.png")))) = [] /\
  exists pre, events_of (disk_run (Decoded 0%nat) true true
                           (Some (Path "broken.png")))
              = pre ++ [EvOpen "broken.png"].
Proof.
  unfold disk_run.
  refine (undecodable_overlay_raises (Decoded 0%nat) (1, 1) (7, 7) 1%nat
            "center" "middle" 0 true true "broken.png" disk_world
            (Demo.solid ["L"]%string 8 8 (200, 255)) eq_refl _).
  vm_compute. reflexivity.
Defined.

Lemma warning_only_for_missing_overlay_witness :
  printed (events_of (disk_run (Decoded 0%nat) true true
                        (Some (Path "nothing.png")))) =
  (if bool_decide (is_Some (files disk_world !! "nothing.png"%string))
   then [] else [warning]).
Proof.
  unfold disk_run.
  refine (warning_only_for_missing_overlay (Decoded 0%nat) 1 1 7 7 1%nat
            "center" "middle" 0 true true (Some (Path "nothing.png"))
            disk_world _ _).
  vm_compute. reflexivity.
Defined.


Lemma only_the_inner_region_changes_witness :
  exists b,
    result_of (disk_run (Decoded 0%nat) true true (Some (Path "nothing.png")))
      = Ok b /\
    exists cv img final,
      load disk_world (Decoded 0%nat) = Some cv /\
      heap (world_of (disk_run (Decoded 0%nat) true true
                        (Some (Path "nothing.png")))) !! img = Some final /\
      png_encode final = Some b /\
      forall x y,
        ~ (1 + 0 <= x < 7 - 0 /\ 1 + 0 <= y < 7 - 0) ->
        im_data final x y = im_data cv x y.
Proof.
  eexists. split; [vm_compute; reflexivity |].
  unfold disk_run.
  refine (only_the_inner_region_changes (Decoded 0%nat) 1 1 7 7 1%nat
            "center" "middle" 0 true true (Some (Path "nothing.png")) disk_world
            small_content _ eq_refl _ _ _ _ _).
  - unfold wf_size, INT_MAX; cbn; lia.
  - vm_compute. reflexivity.
  - lia.
  - lia.
  - vm_compute. reflexivity.
Defined.

Lemma never_shrunk_when_it_fits_witness :
  exists scale nw nh,
    fit (region 1 7 0) (region 1 7 0) 4 2 true = Ok (scale, (nw, nh)) /\
    resized_to (events_of (small_run true)) = [(nw, nh)] /\
    (1 <= scale)%Q /\ 4 <= nw /\ 2 <= nh.
Proof.
  unfold small_run.
  refine (never_shrunk_when_it_fits (Decoded 0%nat) 1 1 7 7 1%nat
            "center" "middle" 0 true None small_world small_content _
            eq_refl _ _ _ _).
  - unfold wf_size, INT_MAX; cbn; lia.
  - cbn. lia.
  - cbn. lia.
  - vm_compute. reflexivity.
Defined.
